(** * KAM_score: the scoring engine of backend/app.py

    A shallow embedding of [calc_scores] (backend/app.py, lines 210-328) and
    of the queries it runs, followed by the properties of the scoring rules.

    Modelling choices.
    - The four ORM tables are lists of row records, read in table order.
    - Python floats are modelled by exact rationals ([Q]): the rules are
      read arithmetically, rounding, NaN and infinities are left out.  All
      equalities below are Leibniz equalities on the computed terms unless
      [==] is written.
    - Python exceptions are a [result] monad; [calc_scores] either returns
      its pair or raises.  The exceptions of the interpreter the code can
      meet are kept: [ValueError] of [int], of unpacking and of [date],
      [OverflowError] of an integer too large for a float or for [date],
      [KeyError] of a dictionary, [ZeroDivisionError].
    - Dictionaries are [gmap]s and Python sets are [gset]s. *)

From Stdlib Require Import ZArith QArith Qround Lqa Ascii String.
From stdpp Require Import gmap strings list sorting.

Local Open Scope Z_scope.

(** ** Exceptions *)

Inductive exn := ValueError | KeyError | OverflowError | ZeroDivisionError.

Inductive result (A : Type) :=
| Ok (a : A)
| Raise (e : exn).
Arguments Ok {A} a.
Arguments Raise {A} e.

Definition bind {A B} (r : result A) (f : A → result B) : result B :=
  match r with
  | Ok a => f a
  | Raise e => Raise e
  end.

Notation "x <-- r ;; k" := (bind r (λ x, k))
  (at level 100, r at next level, right associativity).

(** A [for] loop whose body may raise: the state is threaded from left to
    right and the first exception ends the loop. *)
Fixpoint for_each {A S} (body : S → A → result S) (l : list A) (st : S) : result S :=
  match l with
  | [] => Ok st
  | x :: l' => st' <-- body st x ;; for_each body l' st'
  end.

(** ** Numbers *)

Definition Qltb (a b : Q) : bool := negb (Qle_bool b a).

(** [max(a, b)] and [min(a, b)] of Python: the first argument is kept unless
    the second is strictly larger (smaller). *)
Definition py_max (a b : Q) : Q := if Qltb a b then b else a.
Definition py_min (a b : Q) : Q := if Qltb b a then b else a.

(** [x or 0.0]: a falsy number (zero) is replaced by [0.0]. *)
Definition or_zero (x : Q) : Q := if Qeq_bool x 0 then 0%Q else x.

(** [sum(...)]: accumulation from 0, left to right. *)
Definition sum (l : list Q) : Q := foldl Qplus 0%Q l.

(** ** Strings: [str.split("-")] and [int(str)] *)

(** [s.split(sep)] for a one-character separator. *)
Fixpoint split (sep : ascii) (s : string) : list string :=
  match s with
  | EmptyString => [EmptyString]
  | String c s' =>
      if Ascii.eqb c sep then EmptyString :: split sep s'
      else match split sep s' with
           | [] => [String c EmptyString]
           | h :: t => String c h :: t
           end
  end.

(** The white space [int] strips, among the code points 0-255: tab to
    carriage return, the blank, and the two Latin-1 spaces U+0085 and
    U+00A0. (The separators 0x1c-0x1f are white space for [str.strip] but
    not for [int].) *)
Definition is_space (c : ascii) : bool :=
  let n := Z.of_nat (nat_of_ascii c) in
  ((9 <=? n) && (n <=? 13)) || (n =? 32) || (n =? 133) || (n =? 160).

Definition digit_of (c : ascii) : option Z :=
  let n := Z.of_nat (nat_of_ascii c) in
  if (48 <=? n) && (n <=? 57) then Some (n - 48) else None.

Fixpoint lstrip (s : string) : string :=
  match s with
  | EmptyString => EmptyString
  | String c s' => if is_space c then lstrip s' else s
  end.

Fixpoint rstrip (s : string) : string :=
  match s with
  | EmptyString => EmptyString
  | String c s' =>
      match rstrip s' with
      | EmptyString => if is_space c then EmptyString else String c EmptyString
      | r => String c r
      end
  end.

(** The digits after the first one: a single underscore may separate two
    digits. [prev_us] tells that the previous character was an underscore. *)
Fixpoint int_digits (s : string) (acc : Z) (prev_us : bool) : option Z :=
  match s with
  | EmptyString => if prev_us then None else Some acc
  | String c s' =>
      if Ascii.eqb c "_"%char then
        if prev_us then None else int_digits s' acc true
      else
        match digit_of c with
        | Some d => int_digits s' (10 * acc + d) false
        | None => None
        end
  end.

Definition int_unsigned (s : string) : option Z :=
  match s with
  | EmptyString => None
  | String c s' =>
      match digit_of c with
      | Some d => int_digits s' d false
      | None => None
      end
  end.

(** The number of digit characters of a literal (underscores, the sign and
    the white space do not count, leading zeros do). *)
Fixpoint digit_count (s : string) : Z :=
  match s with
  | EmptyString => 0
  | String c s' =>
      match digit_of c with
      | Some _ => 1 + digit_count s'
      | None => digit_count s'
      end
  end.

(** [sys.get_int_max_str_digits()]: the interpreter's default limit on the
    digits of a decimal literal that [int] converts. *)
Definition int_max_str_digits : Z := 4300.

(** [int(s)], base 10, on a string of code points 0-255: surrounding white
    space, an optional sign, digits. Anything else raises [ValueError], and
    so does a literal of more than [int_max_str_digits] digits. (Digits and
    spaces beyond U+00FF are not modelled.) *)
Definition int_of_str (s : string) : result Z :=
  let body := rstrip (lstrip s) in
  let '(neg, digits) :=
    match body with
    | String "-"%char r => (true, r)
    | String "+"%char r => (false, r)
    | _ => (false, body)
    end in
  match int_unsigned digits with
  | Some n =>
      if digit_count digits <=? int_max_str_digits
      then Ok (if neg then - n else n)
      else Raise ValueError
  | None => Raise ValueError
  end.

(** The conversion of an integer to a float, as [float * int] and
    [float / int] perform it on their integer operand: an integer whose
    nearest double would be 2^1024 raises [OverflowError] (int too large to
    convert to float), that is every [n] with [|n| >= 2^1024 - 2^970]. The
    value kept is [n] itself (rounding is left out, as everywhere). *)
Definition float_limit : Z := 2 ^ 1024 - 2 ^ 970.

Definition float_of_int (n : Z) : result Q :=
  if Z.abs n <? float_limit then Ok (inject_Z n) else Raise OverflowError.

(** [ym_to_int], the helper defined inside the delay loop (lines 274-275):
    [y, mm = ym.split("-"); return int(y)*12 + int(mm)]. Unpacking anything
    but two fields raises [ValueError]. *)
Definition ym_to_int (ym : string) : result Z :=
  match split "-"%char ym with
  | [y; mm] =>
      yi <-- int_of_str y ;;
      mi <-- int_of_str mm ;;
      Ok (yi * 12 + mi)
  | _ => Raise ValueError
  end.

(** The format the column comment names: four digits, a dash, two digits. *)
Definition is_digit (c : ascii) : bool := bool_decide (is_Some (digit_of c)).

Definition matches_YYYY_MM (ym : string) : bool :=
  match list_ascii_of_string ym with
  | [y1; y2; y3; y4; d; m1; m2] =>
      is_digit y1 && is_digit y2 && is_digit y3 && is_digit y4
      && Ascii.eqb d "-"%char && is_digit m1 && is_digit m2
  | _ => false
  end.

(** ** The tables *)

(** [datetime.date]: the engine only sorts dates and compares them. *)
Record date := mkdate { year : Z; d_month : Z; day : Z }.

Record KAM := mkKAM {
  kam_id : Z;
  kam_name : string;
  region : string
}.

Record MonthlyTarget := mkMonthlyTarget {
  mt_kam_id : Z;
  mt_month : date;
  target_pp : Q;
  target_lvp : Q
}.

Record Project := mkProject {
  p_id : Z;
  p_kam_id : Z;
  code : string;
  name : string
}.

Record ProjectMonth := mkProjectMonth {
  project_id : Z;
  month : date;
  pp : Q;
  lvp : Q;
  sop_ym : string;
  foc2026_pp : Q;
  foc2026_sec : Q
}.

Record Store := mkStore {
  kams : list KAM;
  monthly_targets : list MonthlyTarget;
  projects : list Project;
  project_months : list ProjectMonth
}.

(** [ScoreItem] (lines 123-131). *)
Record ScoreItem := mkScoreItem {
  kam : string;
  si_month : date;
  points_gained_pp : Q;
  points_gained_lvp : Q;
  points_lost_sop_delay : Q;
  points_lost_volume_dec : Q;
  points_lost_pp_dec : Q;
  total : Q
}.

#[global] Instance date_eq_dec : EqDecision date.
Proof. solve_decision. Defined.

(** The order of dates: by year, then month, then day. *)
Definition date_le (a b : date) : Prop :=
  year a < year b ∨
  (year a = year b ∧
   (d_month a < d_month b ∨ (d_month a = d_month b ∧ day a <= day b))).

#[global] Instance date_le_dec : RelDecision date_le.
Proof. intros a b. unfold date_le. apply _. Defined.

(** ** The queries *)

(** [sorted(s.scalars(select(func.distinct(ProjectMonth.month))).all())]
    (line 213). *)
Definition months_of (s : Store) : list date :=
  merge_sort date_le (remove_dups (month <$> project_months s)).

(** [kam_month_snaps] (lines 217-222): the snapshots joined with their
    project, kept when the project is the KAM's and the month is [m]. *)
Definition kam_month_snaps (s : Store) (k : Z) (m : option date) : list ProjectMonth :=
  match m with
  | None => []
  | Some m =>
      flat_map (λ x,
        flat_map (λ p,
          if decide (project_id x = p_id p ∧ p_kam_id p = k ∧ month x = m)
          then [x] else []) (projects s))
        (project_months s)
  end.

(** [month_targets] (lines 224-227): the first matching row, if any. *)
Definition month_targets (s : Store) (k : Z) (m : date) : option MonthlyTarget :=
  find (λ t, bool_decide (mt_kam_id t = k ∧ mt_month t = m)) (monthly_targets s).

(** The rows of [select(...).where(ProjectMonth.month == m)]: the snapshots
    of month [m], of every project. *)
Definition month_rows (s : Store) (m : date) : list ProjectMonth :=
  filter (λ x, month x = m) (project_months s).

(** One value of [prev_proj_map] (lines 239-242). *)
Record PrevRow := mkPrevRow {
  prev_pp_of : Q;
  prev_lvp_of : Q;
  prev_sop : string;
  prev_foc : Q
}.

(** [prev_proj_map] (lines 232-242): filled from the rows of the previous
    month, a later row of the same project replacing an earlier one. *)
Definition prev_proj_map (s : Store) (prev_m : option date) : gmap Z PrevRow :=
  match prev_m with
  | None => ∅
  | Some pm =>
      foldl (λ d x,
        <[project_id x :=
            {| prev_pp_of := or_zero (pp x); prev_lvp_of := or_zero (lvp x);
               prev_sop := sop_ym x; prev_foc := or_zero (foc2026_sec x) |}]> d)
        ∅ (month_rows s pm)
  end.

(** ** The scoring rules, one definition per block of the loop body *)

(** Lines 261-265, the pp tier. *)
Definition gained_pp (t : option MonthlyTarget) (added_pp : Q) : Q :=
  match t with
  | Some t =>
      if Qle_bool (target_pp t * (13 # 10)) added_pp then 20
      else if Qle_bool (target_pp t) added_pp then 10
      else 0
  | None => 0
  end%Q.

(** Lines 261-265, the lvp tier. *)
Definition gained_lvp (t : option MonthlyTarget) (added_lvp : Q) : Q :=
  match t with
  | Some t =>
      if Qle_bool (target_lvp t * (13 # 10)) added_lvp then 40
      else if Qle_bool (target_lvp t) added_lvp then 20
      else 0
  | None => 0
  end%Q.

(** Lines 271-278: one turn of the delay loop on a row [(pid, sop_ym)].
    In [2.0 * prev["foc"] * diff] the integer [diff] is converted to a
    float, which raises [OverflowError] when it is too large. *)
Definition sop_delay_step (ppm : gmap Z PrevRow) (loss : Q) (x : ProjectMonth) : result Q :=
  match ppm !! project_id x with
  | None => Ok loss
  | Some prev =>
      a <-- ym_to_int (sop_ym x) ;;
      b <-- ym_to_int (prev_sop prev) ;;
      let diff := a - b in
      if (0 <? diff) && Qltb 0 (prev_foc prev)
      then
        d <-- float_of_int diff ;;
        Ok (loss + 2 * prev_foc prev * d)%Q
      else Ok loss
  end.

(** Lines 268-278. *)
Definition sop_delay (s : Store) (m : date) (prev_m : option date)
    (ppm : gmap Z PrevRow) : result Q :=
  match prev_m with
  | None => Ok 0%Q
  | Some _ => for_each (sop_delay_step ppm) (month_rows s m) 0%Q
  end.

(** Lines 281-286. *)
Definition vol_dec (prev_m : option date) (snaps prev_snaps : list ProjectMonth) : Q :=
  match prev_m with
  | None => 0
  | Some _ =>
      let prev_foc_total :=
        match prev_snaps with [] => 0 | _ => sum (foc2026_sec <$> prev_snaps) end in
      let curr_foc_total := sum (foc2026_sec <$> snaps) in
      if Qltb curr_foc_total prev_foc_total
      then 2 * (prev_foc_total - curr_foc_total)
      else 0
  end%Q.

(** Lines 292-296: one turn of the promotion loop on a row [(pid, lvp_now)]. *)
Definition promotion_step (ppm : gmap Z PrevRow) (promotions : Q) (x : ProjectMonth) : Q :=
  match ppm !! project_id x with
  | None => promotions
  | Some prev =>
      let lift_inc := py_max 0 (or_zero (lvp x) - prev_lvp_of prev) in
      (promotions + py_min lift_inc (prev_pp_of prev))%Q
  end.

(** Lines 289-296. *)
Definition promotions_of (s : Store) (m : date) (prev_m : option date)
    (ppm : gmap Z PrevRow) : Q :=
  match prev_m with
  | None => 0%Q
  | Some _ => foldl (promotion_step ppm) 0%Q (month_rows s m)
  end.

(** Lines 297-302. *)
Definition pp_dec (prev_m : option date) (prev_pp added_pp sum_pp promotions : Q) : Q :=
  match prev_m with
  | None => 0
  | Some _ =>
      let left := prev_pp + added_pp in
      let right := sum_pp + promotions in
      if Qltb right left then 2 * (left - right) else 0
  end%Q.

(** Lines 305-310. *)
Definition ids_of (l : list ProjectMonth) : gset Z := list_to_set (project_id <$> l).

Definition inactivity (prev_m : option date) (snaps prev_snaps : list ProjectMonth) : Q :=
  match prev_m with
  | None => 0
  | Some _ =>
      let prev_ids := ids_of prev_snaps in
      let curr_ids := ids_of snaps in
      if decide (size (curr_ids ∖ prev_ids) = 0%nat) then 100 else 0
  end%Q.

(** The figures the loop body holds for one KAM and one month when it
    reaches line 312. *)
Record Locals := mkLocals {
  gained_pp_points : Q;
  gained_lvp_points : Q;
  sop_delay_loss : Q;
  vol_dec_loss : Q;
  pp_dec_loss : Q;
  inactivity_loss : Q
}.

(** Lines 312-315. *)
Definition total_of (l : Locals) : Q :=
  (gained_pp_points l + gained_lvp_points l
   - (sop_delay_loss l + vol_dec_loss l + pp_dec_loss l + inactivity_loss l))%Q.

(** Lines 249-310, for a KAM whose snapshots [snaps] of month [m] are not
    empty. *)
Definition score_kam_month (s : Store) (m : date) (prev_m : option date)
    (ppm : gmap Z PrevRow) (k : KAM) (snaps : list ProjectMonth) : result Locals :=
  let sum_pp := sum (pp <$> snaps) in
  let sum_lvp := sum (lvp <$> snaps) in
  let prev_snaps :=
    match prev_m with Some _ => kam_month_snaps s (kam_id k) prev_m | None => [] end in
  let prev_pp := match prev_snaps with [] => 0%Q | _ => sum (pp <$> prev_snaps) end in
  let prev_lvp := match prev_snaps with [] => 0%Q | _ => sum (lvp <$> prev_snaps) end in
  let added_pp := py_max 0 (sum_pp - prev_pp) in
  let added_lvp := py_max 0 (sum_lvp - prev_lvp) in
  let t := month_targets s (kam_id k) m in
  loss <-- sop_delay s m prev_m ppm ;;
  let promotions := promotions_of s m prev_m ppm in
  Ok {| gained_pp_points := gained_pp t added_pp;
        gained_lvp_points := gained_lvp t added_lvp;
        sop_delay_loss := loss;
        vol_dec_loss := vol_dec prev_m snaps prev_snaps;
        pp_dec_loss := pp_dec prev_m prev_pp added_pp sum_pp promotions;
        inactivity_loss := inactivity prev_m snaps prev_snaps |}.

(** Lines 318-326. *)
Definition item_of (k : KAM) (m : date) (l : Locals) : ScoreItem :=
  {| kam := kam_name k; si_month := m;
     points_gained_pp := gained_pp_points l;
     points_gained_lvp := gained_lvp_points l;
     points_lost_sop_delay := sop_delay_loss l;
     points_lost_volume_dec := vol_dec_loss l;
     points_lost_pp_dec := pp_dec_loss l;
     total := total_of l |}.

(** ** The loops *)

(** [results] and [cumul]. *)
Definition State : Type := list ScoreItem * gmap string Q.

(** [cumul[name] += total] (line 316): a missing key raises [KeyError]. *)
Definition cumul_add (cumul : gmap string Q) (n : string) (t : Q) : result (gmap string Q) :=
  match cumul !! n with
  | Some c => Ok (<[n := (c + t)%Q]> cumul)
  | None => Raise KeyError
  end.

(** Lines 244-326: one turn of [for kam in kams]. *)
Definition kam_body (s : Store) (m : date) (prev_m : option date)
    (ppm : gmap Z PrevRow) (st : State) (k : KAM) : result State :=
  match kam_month_snaps s (kam_id k) (Some m) with
  | [] => Ok st
  | snaps =>
      l <-- score_kam_month s m prev_m ppm k snaps ;;
      cumul <-- cumul_add st.2 (kam_name k) (total_of l) ;;
      Ok (st.1 ++ [item_of k m l], cumul)
  end.

(** [months[mi - 1] if mi > 0 else None] (line 230). *)
Definition prev_month (months : list date) (mi : nat) : option date :=
  if (0 <? mi)%nat then months !! (mi - 1)%nat else None.

(** Lines 229-326: one turn of [for mi, m in enumerate(months)]. *)
Definition month_body (s : Store) (months : list date) (st : State)
    (im : nat * date) : result State :=
  let prev_m := prev_month months im.1 in
  let ppm := prev_proj_map s prev_m in
  for_each (kam_body s im.2 prev_m ppm) (kams s) st.

(** [enumerate(l)]. *)
Definition enumerate {A} (l : list A) : list (nat * A) := imap (λ i x, (i, x)) l.

(** [{k.name: 0.0 for k in kams}] (line 215). *)
Definition cumul_init (ks : list KAM) : gmap string Q :=
  foldl (λ d k, <[kam_name k := 0%Q]> d) ∅ ks.

(** [calc_scores] (lines 210-328). *)
Definition calc_scores (s : Store) : result State :=
  let months := months_of s in
  for_each (month_body s months) (enumerate months) ([], cumul_init (kams s)).

(** ** Stores used as examples *)

Definition M1 : date := mkdate 2025 9 1.
Definition M2 : date := mkdate 2025 10 1.

Definition Alice : KAM := mkKAM 1 "Alice" "EU".
Definition Bob : KAM := mkKAM 2 "Bob" "EU".

(** The example of the specification: Alice, one project, one target. *)
Definition alice_store : Store :=
  {| kams := [Alice];
     monthly_targets := [mkMonthlyTarget 1 M1 40 20];
     projects := [mkProject 1 1 "AL-P1" "Proj AL-P1"];
     project_months :=
       [mkProjectMonth 1 M1 50 30 "2026-03" 25 21;
        mkProjectMonth 1 M2 40 35 "2026-03" 20 21] |}.

(** Alice drops project 2 and starts project 3 in the second month. *)
Definition churn_store : Store :=
  {| kams := [Alice];
     monthly_targets := [];
     projects :=
       [mkProject 1 1 "AL-P1" "Proj AL-P1"; mkProject 2 1 "AL-P2" "Proj AL-P2";
        mkProject 3 1 "AL-P3" "Proj AL-P3"];
     project_months :=
       [mkProjectMonth 1 M1 50 30 "2026-03" 25 21;
        mkProjectMonth 2 M1 40 20 "2026-05" 20 14;
        mkProjectMonth 1 M2 50 30 "2026-03" 25 21;
        mkProjectMonth 3 M2 40 20 "2026-06" 20 14] |}.

Definition M3 : date := mkdate 2025 11 1.
Definition Carla : KAM := mkKAM 3 "Carla" "EU".

(** Three KAMs: Alice has a project in every month, Bob's project has no
    snapshot in the second month, Carla has no project. *)
Definition team_store : Store :=
  {| kams := [Alice; Bob; Carla];
     monthly_targets := [mkMonthlyTarget 1 M1 40 20; mkMonthlyTarget 2 M1 20 10];
     projects := [mkProject 1 1 "AL-P1" "Proj AL-P1"; mkProject 2 2 "BO-P1" "Proj BO-P1"];
     project_months :=
       [mkProjectMonth 1 M1 50 30 "2026-03" 25 21;
        mkProjectMonth 2 M1 30 10 "2026-04" 15 7;
        mkProjectMonth 1 M2 40 35 "2026-03" 20 21;
        mkProjectMonth 1 M3 45 35 "2026-04" 22 21;
        mkProjectMonth 2 M3 35 12 "2026-04" 17 8] |}.

(** Alice's pp falls and nothing else of hers changes; Bob's project slips
    by one month and its lvp rises by 5. *)
Definition two_kam_store : Store :=
  {| kams := [Alice; Bob];
     monthly_targets := [];
     projects := [mkProject 1 1 "AL-P1" "Proj AL-P1"; mkProject 2 2 "BO-P1" "Proj BO-P1"];
     project_months :=
       [mkProjectMonth 1 M1 50 30 "2026-03" 25 21;
        mkProjectMonth 2 M1 30 10 "2026-04" 15 5;
        mkProjectMonth 1 M2 40 30 "2026-03" 20 21;
        mkProjectMonth 2 M2 30 15 "2026-05" 15 5] |}.

(** Tokens that are not of the form YYYY-MM but split into two integers. *)
Definition loose_token_store : Store :=
  {| kams := [Alice];
     monthly_targets := [];
     projects := [mkProject 1 1 "AL-P1" "Proj AL-P1"];
     project_months :=
       [mkProjectMonth 1 M1 50 30 "2026-3" 25 21;
        mkProjectMonth 1 M2 50 30 "2026-7" 25 21] |}.

(** A token that does not split into two integers. *)
Definition bad_token_store : Store :=
  {| kams := [Alice];
     monthly_targets := [];
     projects := [mkProject 1 1 "AL-P1" "Proj AL-P1"];
     project_months :=
       [mkProjectMonth 1 M1 50 30 "2026-03" 25 21;
        mkProjectMonth 1 M2 50 30 "2026/07" 25 21] |}.

(** Bob's only snapshot, in the second month, has a negative pp and a
    negative secured forecast; Alice's project does not change. *)
Definition negative_store : Store :=
  {| kams := [Alice; Bob];
     monthly_targets := [];
     projects := [mkProject 1 1 "AL-P1" "Proj AL-P1"; mkProject 2 2 "BO-P1" "Proj BO-P1"];
     project_months :=
       [mkProjectMonth 1 M1 50 30 "2026-03" 25 21;
        mkProjectMonth 1 M2 50 30 "2026-03" 25 21;
        mkProjectMonth 2 M2 (-5) 10 "2026-04" 0 (-3)] |}.

(** ** The two per-project rules as the specification words them *)

(** The delay loss over that KAM's snapshots of the month only: the turns
    of the delay loop, run on [kam_month_snaps] instead of on every row of
    the month. *)
Definition spec_sop_delay (s : Store) (k : Z) (m p : date) : result Q :=
  for_each (sop_delay_step (prev_proj_map s (Some p))) (kam_month_snaps s k (Some m)) 0%Q.

(** The promotions over that KAM's snapshots of the month only. *)
Definition spec_promotions (s : Store) (k : Z) (m p : date) : Q :=
  foldl (promotion_step (prev_proj_map s (Some p))) 0%Q (kam_month_snaps s k (Some m)).

(** The pp-decrease loss with these promotions: [left], [right] and the
    comparison are those of lines 299-302. *)
Definition spec_pp_dec (s : Store) (k : Z) (m p : date) : Q :=
  let snaps := kam_month_snaps s k (Some m) in
  let prev_snaps := kam_month_snaps s k (Some p) in
  let sum_pp := sum (pp <$> snaps) in
  let prev_pp := match prev_snaps with [] => 0%Q | _ => sum (pp <$> prev_snaps) end in
  let added_pp := py_max 0 (sum_pp - prev_pp) in
  pp_dec (Some p) prev_pp added_pp sum_pp (spec_promotions s k m p).

(** Every delivery-date token of the store is accepted by [ym_to_int]. *)
Definition tokens_parse (s : Store) : Prop :=
  ∀ x, x ∈ project_months s → ∃ n, ym_to_int (sop_ym x) = Ok n.

(** The month counts of the tokens of the store that [ym_to_int] accepts. *)
Definition token_months (s : Store) : list Z :=
  omap (λ x, match ym_to_int (sop_ym x) with Ok a => Some a | Raise _ => None end)
    (project_months s).

(** No two accepted tokens of the store lie so many months apart that the
    difference cannot be converted to a float. *)
Definition delays_fit (s : Store) : Prop :=
  Forall (λ a, Forall (λ b, a - b < float_limit) (token_months s)) (token_months s).

(** Every token of the store has the form of the column comment. *)
Definition tokens_well_formed (s : Store) : Prop :=
  Forall (λ x, matches_YYYY_MM (sop_ym x) = true) (project_months s).

(** What makes one turn of the delay loop raise: a token [ym_to_int]
    refuses ([ValueError]), or two accepted tokens too far apart for a float
    ([OverflowError]). *)
Definition step_failure (ppm : gmap Z PrevRow) (x : ProjectMonth) (e : exn) : Prop :=
  ∃ prev, ppm !! project_id x = Some prev ∧
    ((e = ValueError ∧
      (ym_to_int (sop_ym x) = Raise ValueError ∨
       ym_to_int (prev_sop prev) = Raise ValueError)) ∨
     (e = OverflowError ∧
      ∃ a b, ym_to_int (sop_ym x) = Ok a ∧ ym_to_int (prev_sop prev) = Ok b ∧
             float_limit <= a - b)).

(** The failure of a run, in terms of the store: a refused token, or two
    accepted tokens too far apart. *)
Definition store_failure (s : Store) (e : exn) : Prop :=
  (e = ValueError ∧
   ∃ x, x ∈ project_months s ∧ ym_to_int (sop_ym x) = Raise ValueError) ∨
  (e = OverflowError ∧
   ∃ x y a b, x ∈ project_months s ∧ y ∈ project_months s ∧
              ym_to_int (sop_ym x) = Ok a ∧ ym_to_int (sop_ym y) = Ok b ∧
              float_limit <= a - b).

(** Strictly earlier. *)
Definition date_lt (a b : date) : Prop := date_le a b ∧ a ≠ b.

(** The KAM has at least one snapshot in month [m] ([if not snaps] fails). *)
Definition has_snaps (s : Store) (k : KAM) (m : date) : bool :=
  match kam_month_snaps s (kam_id k) (Some m) with
  | [] => false
  | _ => true
  end.

(** The numeric fields of a record, in the order of [ScoreItem]. *)
Definition figures (r : ScoreItem) : list Q :=
  [points_gained_pp r; points_gained_lvp r; points_lost_sop_delay r;
   points_lost_volume_dec r; points_lost_pp_dec r; total r].

(** The state a run returns, or the initial one when it raises. *)
Definition run (s : Store) : State :=
  match calc_scores s with
  | Ok st => st
  | Raise _ => ([], cumul_init (kams s))
  end.

(** ** What the loops produce *)

(** The record one turn of the KAM loop appends, if any. *)
Definition kam_items (s : Store) (m : date) (prev_m : option date)
    (ppm : gmap Z PrevRow) (k : KAM) : list ScoreItem :=
  match kam_month_snaps s (kam_id k) (Some m) with
  | [] => []
  | snaps =>
      match score_kam_month s m prev_m ppm k snaps with
      | Ok l => [item_of k m l]
      | Raise _ => []
      end
  end.

(** The records one turn of the month loop appends. *)
Definition month_items (s : Store) (months : list date) (im : nat * date) : list ScoreItem :=
  let prev_m := prev_month months im.1 in
  flat_map (kam_items s im.2 prev_m (prev_proj_map s prev_m)) (kams s).

(** The totals of the records of one KAM name, added to [c] in order. *)
Definition add_totals (n : string) (c : Q) (rs : list ScoreItem) : Q :=
  foldl Qplus c (total <$> filter (λ r, kam r = n) rs).

(** KAM [k] is scored in month [m], whose predecessor in the month sequence
    is [prev_m], and the loop body computes the figures [l]. *)
Definition scored (s : Store) (k : KAM) (m : date) (prev_m : option date)
    (l : Locals) : Prop :=
  ∃ mi : nat,
    months_of s !! mi = Some m ∧
    prev_m = prev_month (months_of s) mi ∧
    k ∈ kams s ∧
    kam_month_snaps s (kam_id k) (Some m) ≠ [] ∧
    score_kam_month s m prev_m (prev_proj_map s prev_m) k
      (kam_month_snaps s (kam_id k) (Some m)) = Ok l.

#[global] Arguments kam_month_snaps : simpl never.
#[global] Arguments score_kam_month : simpl never.
#[global] Arguments prev_proj_map : simpl never.
#[global] Arguments months_of : simpl never.
#[global] Arguments float_limit : simpl never.

(** [scored] on a concrete store, for the month at index [i]: every part
    is evaluated. *)
Ltac scored_at i :=
  exists i;
  split; [vm_compute; reflexivity|];
  split; [vm_compute; reflexivity|];
  split; [apply list_elem_of_In; vm_compute; tauto|];
  split; [let H := fresh in intros H; vm_compute in H; discriminate H|];
  vm_compute; reflexivity.

(** ** Dates and tokens: [date(...)], [month_add], the format specs *)

Definition is_leap (y : Z) : bool :=
  ((y mod 4 =? 0) && negb (y mod 100 =? 0)) || (y mod 400 =? 0).

Definition days_in_month (y m : Z) : Z :=
  if m =? 2 then (if is_leap y then 29 else 28)
  else if (m =? 4) || (m =? 6) || (m =? 9) || (m =? 11) then 30
  else 31.

(** The dates [datetime.date] can hold. *)
Definition valid_date (d : date) : Prop :=
  1 <= year d <= 9999 ∧ 1 <= d_month d <= 12 ∧
  1 <= day d <= days_in_month (year d) (d_month d).

#[global] Instance valid_date_dec (d : date) : Decision (valid_date d).
Proof. unfold valid_date. apply _. Defined.

(** An integer a C [int] can hold: the constructor of [date] takes its
    three arguments as such. *)
Definition c_int_fits (z : Z) : bool := (- 2 ^ 31 <=? z) && (z <=? 2 ^ 31 - 1).

(** [date(y, m, d)]: [OverflowError] for an argument outside the C [int]
    range, [ValueError] outside the calendar. *)
Definition make_date (y m d : Z) : result date :=
  if c_int_fits y && c_int_fits m && c_int_fits d then
    if decide (valid_date (mkdate y m d)) then Ok (mkdate y m d) else Raise ValueError
  else Raise OverflowError.

(** [month_add] (lines 111-114); [//] and [%] round towards minus infinity,
    as [Z.div] and [Z.modulo] do for the divisor 12. *)
Definition month_add (d : date) (n : Z) : result date :=
  let y := year d + (d_month d - 1 + n) / 12 in
  let m := (d_month d - 1 + n) mod 12 + 1 in
  make_date y m 1.

(** The months elapsed since year 0, counting from 0. *)
Definition month_index (d : date) : Z := year d * 12 + (d_month d - 1).

(** The decimal digits of [n >= 0], most significant first, put before
    [acc]; [fuel] bounds the number of divisions. *)
Definition digit_char (d : Z) : ascii := ascii_of_nat (Z.to_nat (48 + d)).

Fixpoint dec_digits (fuel : nat) (n : Z) (acc : string) : string :=
  let acc' := String (digit_char (n mod 10)) acc in
  match fuel with
  | O => acc'
  | S f => if n <? 10 then acc' else dec_digits f (n / 10) acc'
  end.

Definition str_nat (n : Z) : string := dec_digits (Z.to_nat (Z.log2 n)) n EmptyString.

Fixpoint zeros (k : nat) : string :=
  match k with
  | O => EmptyString
  | S k' => String "0"%char (zeros k')
  end.

(** The format spec [0<width>d] on an integer: the sign, then the digits
    padded with zeros up to [width] characters in all. *)
Definition format_d (width : nat) (n : Z) : string :=
  let digits := str_nat (Z.abs n) in
  let sign := if n <? 0 then String "-"%char EmptyString else EmptyString in
  (sign ++ zeros (width - String.length sign - String.length digits) ++ digits)%string.

(** [f"{sop.year:04d}-{sop.month:02d}"] (lines 185, 199, 467). *)
Definition format_ym (d : date) : string :=
  (format_d 4 (year d) ++ "-" ++ format_d 2 (d_month d))%string.

(** [str(d)] of a date: the ISO form. *)
Definition isoformat (d : date) : string :=
  (format_d 4 (year d) ++ "-" ++ format_d 2 (d_month d) ++ "-" ++ format_d 2 (day d))%string.

(** A string of decimal digits, and the number it writes after the digits
    already read as [acc]. *)
Fixpoint all_digits (s : string) : bool :=
  match s with
  | EmptyString => true
  | String c s' => is_digit c && all_digits s'
  end.

Fixpoint digits_value (s : string) (acc : Z) : Z :=
  match s with
  | EmptyString => acc
  | String c s' => digits_value s' (10 * acc + default 0 (digit_of c))
  end.

(** [_row_source] (lines 365-366). *)
Definition _row_source (nm : string) : string :=
  if String.prefix "Manual " nm then "manual"%string else "seed"%string.

(** ** [input_month] (lines 415-476) *)

(** [HTTPException(status_code, detail)], the error the handler raises
    itself. *)
Record HTTPException := mkHTTPException { status_code : Z; detail : string }.

(** The ways a request ends: the handler returns, it raises an
    [HTTPException], or an exception of the interpreter escapes it. In the
    last two cases nothing is committed. *)
Inductive http_result (A : Type) :=
| Returns (a : A)
| Raises (e : HTTPException)
| Fails (e : exn).
Arguments Returns {A} a.
Arguments Raises {A} e.
Arguments Fails {A} e.

(** [InputMonthPayload] (lines 415-423). *)
Record InputMonthPayload := mkInputMonthPayload {
  payload_kam_name : string;
  payload_month : date;
  new_projects : Z;
  added_pp : Q;
  added_lvp : Q;
  avg_sop_month : Z;
  foc_ratio_pp : Q;
  foc_ratio_lvp : Q
}.

(** The dictionary [input_month] returns (lines 473-476). *)
Record InputMonthResponse := mkInputMonthResponse {
  res_status : string;
  res_kam : string;
  res_month : string;
  projects_created : Z;
  res_added_pp : Q;
  res_added_lvp : Q
}.

(** [round(x)] on an exact number: to the nearest integer, a tie to the
    even one. *)
Definition round_half_even (q : Q) : Z :=
  let f := Qfloor q in
  let r := (q - inject_Z f)%Q in
  if Qltb r (1 # 2) then f
  else if Qltb (1 # 2) r then f + 1
  else if Z.even f then f else f + 1.

(** [round(x, 2)] read on exact numbers (the binary representation of the
    float is left out, as everywhere): the float [round] returns is the
    double nearest to this number, not the number itself. The results below
    use of it only that it keeps the order, keeps 0 and is its own rounding. *)
Definition round2 (x : Q) : Q := (inject_Z (round_half_even (x * 100)) / 100)%Q.

(** [s.upper()] on the letters a-z; the other code points are kept (the
    Latin-1 letters whose upper case lies elsewhere are outside the model). *)
Definition upper_char (c : ascii) : ascii :=
  let n := nat_of_ascii c in
  if ((97 <=? n) && (n <=? 122))%nat then ascii_of_nat (n - 32) else c.

Fixpoint upper (s : string) : string :=
  match s with
  | EmptyString => EmptyString
  | String c s' => String (upper_char c) (upper s')
  end.

(** [str(n)] of an integer. *)
Definition str_int (n : Z) : string :=
  if n <? 0 then String "-"%char (str_nat (- n)) else str_nat n.

(** The identifier the database gives a new row of an integer primary key:
    one more than the largest in the table, 1 in an empty table (the rowid
    rule of SQLite, the default database of line 24). *)
Definition next_id (ids : list Z) : Z :=
  match ids with
  | [] => 1
  | i :: rest => 1 + foldl Z.max i rest
  end.

(** [select(KAM).where(KAM.name == name)], first row (line 433). *)
Definition kam_by_name (s : Store) (nm : string) : option KAM :=
  find (λ k, bool_decide (kam_name k = nm)) (kams s).

(** [select(MonthlyTarget).where(kam_id == k).order_by(month.desc())], first
    row (lines 441-443): a target of the KAM with the latest month, the first
    such row of the table. *)
Definition last_target (s : Store) (k : Z) : option MonthlyTarget :=
  foldl (λ best t,
    if decide (mt_kam_id t = k) then
      match best with
      | None => Some t
      | Some b =>
          if bool_decide (date_le (mt_month b) (mt_month t) ∧ mt_month b ≠ mt_month t)
          then Some t else Some b
      end
    else best) None (monthly_targets s).

(** Lines 437-449: the target of the month, created from the latest target
    of the KAM, or from 80 and 40, when there is none. *)
Definition ensure_target (s : Store) (k : KAM) (m : date) : Store :=
  match month_targets s (kam_id k) m with
  | Some _ => s
  | None =>
      let t :=
        match last_target s (kam_id k) with
        | Some last_t => mkMonthlyTarget (kam_id k) m (target_pp last_t) (target_lvp last_t)
        | None => mkMonthlyTarget (kam_id k) m 80 40
        end in
      {| kams := kams s; monthly_targets := monthly_targets s ++ [t];
         projects := projects s; project_months := project_months s |}
  end.

(** Lines 452-453: one share of the added figure, [round(v / n, 2)]. The
    integer [n] is converted to a float for the division, which raises
    [OverflowError] when it is too large; a division by zero raises
    [ZeroDivisionError] (line 428 keeps zero out). *)
Definition split_share (v : Q) (n : Z) : result Q :=
  d <-- float_of_int n ;;
  if Qeq_bool d 0 then Raise ZeroDivisionError else Ok (round2 (v / d)).

(** Line 457; [r] is the number [random.randint(1000, 9999)] returned. *)
Definition manual_code (k : KAM) (p : InputMonthPayload) (r : Z) : string :=
  (upper (String.substring 0 2 (kam_name k)) ++ "-M"
   ++ format_d 2 (d_month (payload_month p)) ++ "-" ++ str_int r)%string.

(** Lines 461-469: the snapshot of a new project; [split_pp] and
    [split_lvp] are the shares of lines 452-453 (every entry of the two lists
    is the same number). *)
Definition manual_snapshot (p : InputMonthPayload) (split_pp split_lvp : Q)
    (pid : Z) : ProjectMonth :=
  let sop := mkdate 2026 (Z.max 1 (Z.min 12 (avg_sop_month p))) 1 in
  {| project_id := pid; month := payload_month p;
     pp := split_pp; lvp := split_lvp; sop_ym := format_ym sop;
     foc2026_pp := round2 (split_pp * py_max 0 (py_min 1 (foc_ratio_pp p)));
     foc2026_sec := round2 (split_lvp * py_max 0 (py_min 1 (foc_ratio_lvp p))) |}.

(** Lines 456-470: one turn of [for i in range(n)]; [rand i] is the number
    drawn in that turn. *)
Definition add_manual_project (k : KAM) (p : InputMonthPayload)
    (split_pp split_lvp : Q) (rand : nat → Z) (s : Store) (i : nat) : Store :=
  let code := manual_code k p (rand i) in
  let pid := next_id (p_id <$> projects s) in
  let proj := mkProject pid (kam_id k) code ("Manual " ++ code)%string in
  {| kams := kams s; monthly_targets := monthly_targets s;
     projects := projects s ++ [proj];
     project_months := project_months s ++ [manual_snapshot p split_pp split_lvp pid] |}.

Definition month_range_detail : string :=
  "Month must be 2026-01-01 to 2026-04-01 (first of month).".

(** [input_month] (lines 425-476). The two lists of lines 452-453 hold
    [new_projects] copies of one share each and are modelled by that share;
    the memory and the time the lists and the loop take are not modelled. *)
Definition input_month (s : Store) (p : InputMonthPayload) (rand : nat → Z)
    : http_result (Store * InputMonthResponse) :=
  if negb (bool_decide (date_le (mkdate 2026 1 1) (payload_month p)
                        ∧ date_le (payload_month p) (mkdate 2026 4 1)))
  then Raises (mkHTTPException 400 month_range_detail)
  else if new_projects p <? 1
  then Raises (mkHTTPException 400 "new_projects must be >= 1")
  else
    match kam_by_name s (payload_kam_name p) with
    | None =>
        Raises (mkHTTPException 404
                  ("KAM '" ++ payload_kam_name p ++ "' not found.")%string)
    | Some k =>
        let s1 := ensure_target s k (payload_month p) in
        match split_share (added_pp p) (new_projects p) with
        | Raise e => Fails e
        | Ok split_pp =>
            match split_share (added_lvp p) (new_projects p) with
            | Raise e => Fails e
            | Ok split_lvp =>
                let s2 := foldl (add_manual_project k p split_pp split_lvp rand) s1
                            (seq 0 (Z.to_nat (new_projects p))) in
                Returns (s2,
                         {| res_status := "ok"; res_kam := kam_name k;
                            res_month := isoformat (payload_month p);
                            projects_created := Z.of_nat (Z.to_nat (new_projects p));
                            res_added_pp := added_pp p;
                            res_added_lvp := added_lvp p |})
            end
        end
    end.

(** ** [dataset] and [inputs] (lines 368-403) *)

(** One row of [dataset]. *)
Record DatasetRow := mkDatasetRow {
  row_kam : string;
  project_code : string;
  project_name : string;
  row_month : string;
  row_pp : Q;
  row_lvp : Q;
  row_sop_ym : string;
  row_foc2026_pp : Q;
  row_foc2026_sec : Q;
  source : string
}.

(** The dictionary both functions return. *)
Record DatasetResponse := mkDatasetResponse {
  response_rows : list DatasetRow;
  response_count : nat
}.

(** The two joins of lines 378-379: a KAM, a project of that KAM, a snapshot
    of that project. *)
Definition dataset_join (s : Store) : list (KAM * Project * ProjectMonth) :=
  flat_map (λ k,
    flat_map (λ q,
      flat_map (λ x,
        if decide (p_kam_id q = kam_id k ∧ project_id x = p_id q)
        then [(k, q, x)] else [])
        (project_months s))
      (projects s))
    (kams s).

(** [order_by(ProjectMonth.month, KAM.name, Project.code)] (line 380);
    strings are compared code point by code point. *)
Definition dataset_le (a b : KAM * Project * ProjectMonth) : Prop :=
  let '(ka, qa, xa) := a in
  let '(kb, qb, xb) := b in
  date_lt (month xa) (month xb) ∨
  (month xa = month xb ∧
   (String.ltb (kam_name ka) (kam_name kb) = true ∨
    (kam_name ka = kam_name kb ∧ String.leb (code qa) (code qb) = true))).

#[global] Instance dataset_le_dec : RelDecision dataset_le.
Proof. intros [[ka qa] xa] [[kb qb] xb]. unfold dataset_le, date_lt. apply _. Defined.

(** Lines 383-387. *)
Definition row_of (t : KAM * Project * ProjectMonth) : DatasetRow :=
  let '(k, q, x) := t in
  {| row_kam := kam_name k; project_code := code q; project_name := name q;
     row_month := isoformat (month x);
     row_pp := pp x; row_lvp := lvp x; row_sop_ym := sop_ym x;
     row_foc2026_pp := foc2026_pp x; row_foc2026_sec := foc2026_sec x;
     source := _row_source (name q) |}.

(** [dataset] (lines 368-388). *)
Definition dataset (s : Store) : DatasetResponse :=
  let rows := row_of <$> merge_sort dataset_le (dataset_join s) in
  {| response_rows := rows; response_count := length rows |}.

(** [inputs] (lines 399-403); [<=] on strings. *)
Definition inputs (s : Store) : DatasetResponse :=
  let all_rows := response_rows (dataset s) in
  let filtered :=
    filter (λ r, source r = "manual"%string ∧
                 String.leb "2026-01-01" (row_month r) = true ∧
                 String.leb (row_month r) "2026-04-01" = true) all_rows in
  {| response_rows := filtered; response_count := length filtered |}.

(** [state] (lines 338-343): the KAMs as they are stored and the months of
    the snapshots, in ascending order, as ISO strings. *)
Record StateResponse := mkStateResponse {
  state_kams : list (Z * string * string);
  state_months : list string
}.

Definition state (s : Store) : StateResponse :=
  {| state_kams := (λ k, (kam_id k, kam_name k, region k)) <$> kams s;
     state_months := isoformat <$> months_of s |}.

(** A token with a year of 401 digits in the second month, and a token
    that does not parse in the third. *)
Definition far_token : string := String "1" (zeros 400 ++ "-03").

Definition far_token_store : Store :=
  {| kams := [Alice];
     monthly_targets := [];
     projects := [mkProject 1 1 "AL-P1" "Proj AL-P1"];
     project_months :=
       [mkProjectMonth 1 M1 50 30 "2026-03" 25 21;
        mkProjectMonth 1 M2 50 30 far_token 25 21;
        mkProjectMonth 1 M3 50 30 "2026/07" 25 21] |}.

(** A request for Alice in the middle of February 2026, and the numbers
    drawn for the project codes. *)
Definition february_payload : InputMonthPayload :=
  mkInputMonthPayload "Alice" (mkdate 2026 2 15) 3 100 50 6 (1 # 2) (7 # 10).

Definition draws (i : nat) : Z := 1000 + Z.of_nat i.

(** The store a call leaves: the one it returns, or the old one when it
    raises. *)
Definition after_input (s : Store) (p : InputMonthPayload) (rand : nat → Z) : Store :=
  match input_month s p rand with
  | Returns (s', _) => s'
  | Raises _ | Fails _ => s
  end.

Definition february_response : InputMonthResponse :=
  mkInputMonthResponse "ok" "Alice" "2026-02-15" 3 100 50.

#[global] Arguments add_manual_project : simpl never.
#[global] Arguments ensure_target : simpl never.
#[global] Arguments manual_snapshot : simpl never.

(** ** Loop lemmas *)

Lemma bind_Ok {A B} (r : result A) (f : A → result B) (b : B) :
  bind r f = Ok b → ∃ a, r = Ok a ∧ f a = Ok b.
Proof. destruct r as [a|e]; simpl; [eauto | discriminate]. Qed.

Lemma add_totals_app n c rs1 rs2 :
  add_totals n c (rs1 ++ rs2) = add_totals n (add_totals n c rs1) rs2.
Proof. unfold add_totals. by rewrite filter_app, fmap_app, foldl_app. Qed.

Section KamLoop.
Context (s : Store) (m : date) (prev_m : option date) (ppm : gmap Z PrevRow).

Lemma kam_items_item k r :
  r ∈ kam_items s m prev_m ppm k →
  ∃ l, kam_month_snaps s (kam_id k) (Some m) ≠ [] ∧
       score_kam_month s m prev_m ppm k (kam_month_snaps s (kam_id k) (Some m)) = Ok l ∧
       r = item_of k m l.
Proof.
  unfold kam_items. destruct (kam_month_snaps s (kam_id k) (Some m)) as [|x xs] eqn:E.
  - intros H. by apply elem_of_nil in H.
  - destruct (score_kam_month s m prev_m ppm k (x :: xs)) as [l|e] eqn:El.
    + intros H. apply list_elem_of_singleton in H. exists l. by subst.
    + intros H. by apply elem_of_nil in H.
Qed.

(** One run of the KAM loop that does not raise: the records appended, the
    cumulative totals, and every KAM with snapshots got its figures. *)
Lemma kam_loop_spec ks st st' :
  for_each (kam_body s m prev_m ppm) ks st = Ok st' →
  st'.1 = st.1 ++ flat_map (kam_items s m prev_m ppm) ks ∧
  (∀ n, st'.2 !! n =
        (λ c, add_totals n c (flat_map (kam_items s m prev_m ppm) ks)) <$> st.2 !! n) ∧
  Forall (λ k, kam_month_snaps s (kam_id k) (Some m) ≠ [] →
               ∃ l, score_kam_month s m prev_m ppm k
                      (kam_month_snaps s (kam_id k) (Some m)) = Ok l) ks.
Proof.
  revert st. induction ks as [|k ks IH]; intros st; simpl.
  - intros [= <-]. rewrite app_nil_r. split; [done|]. split; [|constructor].
    intros n. by destruct (st.2 !! n).
  - intros (st1 & Hk & Hrest)%bind_Ok.
    destruct (IH _ Hrest) as (Hres & Hcum & Hall). clear IH Hrest.
    unfold kam_body in Hk. unfold kam_items at 1 3.
    destruct (kam_month_snaps s (kam_id k) (Some m)) as [|x xs] eqn:E.
    + injection Hk as <-. simpl. split; [done|]. split; [done|].
      constructor; [done|]. exact Hall.
    + apply bind_Ok in Hk as (l & Hl & Hk). rewrite Hl.
      apply bind_Ok in Hk as (cumul & Hc & Hk). injection Hk as <-.
      unfold cumul_add in Hc.
      destruct (st.2 !! kam_name k) as [c|] eqn:Hlook; [|discriminate].
      injection Hc as <-. simpl in *.
      split; [by rewrite Hres, <- app_assoc|].
      split; [|constructor; [rewrite E; eauto | exact Hall]].
      intros n. rewrite Hcum. unfold add_totals at 2. simpl.
      destruct (decide (kam_name k = n)) as [<-|Hne].
      * rewrite lookup_insert_eq, Hlook. simpl.
        rewrite filter_cons_True by done. done.
      * rewrite lookup_insert_ne by done.
        rewrite filter_cons_False by (simpl; congruence). done.
Qed.

End KamLoop.

(** One run of the month loop that does not raise. *)
Lemma month_loop_spec s months ims st st' :
  for_each (month_body s months) ims st = Ok st' →
  st'.1 = st.1 ++ flat_map (month_items s months) ims ∧
  (∀ n, st'.2 !! n =
        (λ c, add_totals n c (flat_map (month_items s months) ims)) <$> st.2 !! n) ∧
  Forall (λ im, ∀ k, k ∈ kams s →
            kam_month_snaps s (kam_id k) (Some im.2) ≠ [] →
            ∃ l, score_kam_month s im.2 (prev_month months im.1)
                   (prev_proj_map s (prev_month months im.1)) k
                   (kam_month_snaps s (kam_id k) (Some im.2)) = Ok l) ims.
Proof.
  revert st. induction ims as [|im ims IH]; intros st; simpl.
  - intros [= <-]. rewrite app_nil_r. split; [done|]. split; [|constructor].
    intros n. by destruct (st.2 !! n).
  - intros (st1 & Hm & Hrest)%bind_Ok.
    destruct (IH _ Hrest) as (Hres & Hcum & Hall). clear IH Hrest.
    unfold month_body in Hm. apply kam_loop_spec in Hm as (Hres1 & Hcum1 & Hall1).
    split; [|split].
    + rewrite Hres, Hres1, <- app_assoc. done.
    + intros n. rewrite Hcum, Hcum1. destruct (st.2 !! n) as [c|]; simpl; [|done].
      by rewrite add_totals_app.
    + constructor; [|exact Hall].
      intros k Hk. rewrite Forall_forall in Hall1. by apply Hall1.
Qed.

Lemma elem_of_enumerate {A} (l : list A) (i : nat) (x : A) :
  (i, x) ∈ enumerate l ↔ l !! i = Some x.
Proof.
  unfold enumerate. rewrite elem_of_lookup_imap. split.
  - intros (j & y & [= -> ->] & H). done.
  - intros H. by exists i, x.
Qed.

Lemma snd_enumerate {A} (l : list A) : snd <$> enumerate l = l.
Proof.
  unfold enumerate. apply list_eq. intros i.
  rewrite list_lookup_fmap, list_lookup_imap. by destruct (l !! i).
Qed.

Lemma cumul_init_lookup (ks : list KAM) (n : string) :
  cumul_init ks !! n = if decide (n ∈ kam_name <$> ks) then Some 0%Q else None.
Proof.
  unfold cumul_init.
  assert (∀ d : gmap string Q,
    foldl (λ d k, <[kam_name k := 0%Q]> d) d ks !! n
    = if decide (n ∈ kam_name <$> ks) then Some 0%Q else d !! n) as H.
  { induction ks as [|k ks IH]; intros d.
    - cbn [foldl]. case_decide as Hin; [|done]. by apply elem_of_nil in Hin.
    - cbn [foldl]. rewrite IH, fmap_cons.
      destruct (decide (n ∈ kam_name <$> ks)) as [Hin|Hout].
      + rewrite decide_True; [done | by apply list_elem_of_further].
      + destruct (decide (n = kam_name k)) as [->|Hne].
        * rewrite lookup_insert_eq, decide_True; [done | apply list_elem_of_here].
        * rewrite lookup_insert_ne by done. rewrite decide_False; [done|].
          intros [?|?]%elem_of_cons; done. }
  rewrite H. by rewrite lookup_empty.
Qed.

(** A run of [calc_scores] that returns: its records, in order, its
    cumulative mapping, and the figures of every scored KAM and month. *)
Lemma calc_scores_spec (s : Store) (st : State) :
  calc_scores s = Ok st →
  st.1 = flat_map (month_items s (months_of s)) (enumerate (months_of s)) ∧
  (∀ n, st.2 !! n =
        if decide (n ∈ kam_name <$> kams s) then Some (add_totals n 0 st.1) else None) ∧
  (∀ mi m k, months_of s !! mi = Some m → k ∈ kams s →
     kam_month_snaps s (kam_id k) (Some m) ≠ [] →
     ∃ l, scored s k m (prev_month (months_of s) mi) l).
Proof.
  unfold calc_scores. intros (Hres & Hcum & Hall)%month_loop_spec.
  cbn [fst snd app] in Hres, Hcum. split; [done|]. split.
  - intros n. rewrite Hcum, cumul_init_lookup, Hres.
    by destruct (decide (n ∈ kam_name <$> kams s)).
  - intros mi m k Hm Hk Hne. rewrite Forall_forall in Hall.
    destruct (Hall (mi, m)) with (k := k) as [l Hl]; [|done|done|].
    + by apply elem_of_enumerate.
    + exists l, mi. done.
Qed.

(** The records of a run are the records of the scored KAMs and months. *)
Lemma calc_scores_records (s : Store) (st : State) (r : ScoreItem) :
  calc_scores s = Ok st →
  r ∈ st.1 ↔ ∃ k m prev_m l, scored s k m prev_m l ∧ r = item_of k m l.
Proof.
  intros (Hres & _ & _)%calc_scores_spec. rewrite Hres.
  rewrite list_elem_of_In, in_flat_map. split.
  - intros ([mi m] & Him & Hr). apply list_elem_of_In, elem_of_enumerate in Him.
    unfold month_items in Hr. simpl in Hr.
    apply in_flat_map in Hr as (k & Hk & Hr).
    apply list_elem_of_In in Hk. apply list_elem_of_In, kam_items_item in Hr.
    destruct Hr as (l & Hne & Hl & ->).
    exists k, m, (prev_month (months_of s) mi), l. split; [|done].
    exists mi. done.
  - intros (k & m & prev_m & l & (mi & Hm & -> & Hk & Hne & Hl) & ->).
    exists (mi, m). split.
    + by apply list_elem_of_In, elem_of_enumerate.
    + unfold month_items. simpl. apply in_flat_map. exists k.
      split; [by apply list_elem_of_In|].
      unfold kam_items.
      destruct (kam_month_snaps s (kam_id k) (Some m)) as [|x xs]; [done|].
      rewrite Hl. by left.
Qed.

(** ** [prev_proj_map] and the runs that return *)

(** A value of [prev_proj_map] comes from a row of the previous month. *)
Lemma prev_proj_map_row (s : Store) (p : date) (i : Z) (v : PrevRow) :
  prev_proj_map s (Some p) !! i = Some v →
  ∃ x, x ∈ month_rows s p ∧ project_id x = i ∧
       v = {| prev_pp_of := or_zero (pp x); prev_lvp_of := or_zero (lvp x);
              prev_sop := sop_ym x; prev_foc := or_zero (foc2026_sec x) |}.
Proof.
  unfold prev_proj_map. generalize (month_rows s p). intros rows.
  assert (∀ d : gmap Z PrevRow,
    foldl (λ d x,
        <[project_id x :=
            {| prev_pp_of := or_zero (pp x); prev_lvp_of := or_zero (lvp x);
               prev_sop := sop_ym x; prev_foc := or_zero (foc2026_sec x) |}]> d)
        d rows !! i = Some v →
    d !! i = Some v ∨
    ∃ x, x ∈ rows ∧ project_id x = i ∧
         v = {| prev_pp_of := or_zero (pp x); prev_lvp_of := or_zero (lvp x);
                prev_sop := sop_ym x; prev_foc := or_zero (foc2026_sec x) |}) as H.
  { induction rows as [|y rows IH]; intros d; simpl; [by left|].
    intros [Hd|(x & Hx & Hi & Hv)]%IH.
    - destruct (decide (project_id y = i)) as [Hy|Hne].
      + rewrite <- Hy, lookup_insert_eq in Hd. injection Hd as <-.
        right. exists y. split; [apply list_elem_of_here | done].
      + rewrite lookup_insert_ne in Hd by done. by left.
    - right. exists x. split; [by apply list_elem_of_further | done]. }
  intros [Hd|Hx]%H; [by rewrite lookup_empty in Hd | done].
Qed.

Lemma float_of_int_Ok (n : Z) :
  Z.abs n < float_limit → float_of_int n = Ok (inject_Z n).
Proof.
  intros Hn. unfold float_of_int.
  by assert ((Z.abs n <? float_limit) = true) as -> by by apply Z.ltb_lt.
Qed.

Lemma float_of_int_Raise (n : Z) (e : exn) :
  float_of_int n = Raise e → e = OverflowError ∧ float_limit <= Z.abs n.
Proof.
  unfold float_of_int. destruct (Z.abs n <? float_limit) eqn:E; [discriminate|].
  apply Z.ltb_ge in E. by intros [= <-].
Qed.

Lemma token_months_elem (s : Store) (a : Z) :
  a ∈ token_months s ↔ ∃ x, x ∈ project_months s ∧ ym_to_int (sop_ym x) = Ok a.
Proof.
  unfold token_months. rewrite list_elem_of_omap. split.
  - intros (x & Hx & Ha). exists x. split; [done|].
    destruct (ym_to_int (sop_ym x)); by simplify_eq.
  - intros (x & Hx & Ha). exists x. split; [done|]. by rewrite Ha.
Qed.

Lemma delays_fit_elem (s : Store) (x y : ProjectMonth) (a b : Z) :
  delays_fit s → x ∈ project_months s → y ∈ project_months s →
  ym_to_int (sop_ym x) = Ok a → ym_to_int (sop_ym y) = Ok b →
  a - b < float_limit.
Proof.
  unfold delays_fit. rewrite Forall_forall. intros Hfit Hx Hy Ha Hb.
  assert (a ∈ token_months s) as Hta by (apply token_months_elem; eauto).
  assert (b ∈ token_months s) as Htb by (apply token_months_elem; eauto).
  specialize (Hfit a Hta). rewrite Forall_forall in Hfit. by apply Hfit.
Qed.

Section Returns.
Context (s : Store) (Hparse : tokens_parse s) (Hfit : delays_fit s).

Lemma sop_loop_returns (ppm : gmap Z PrevRow) (rows : list ProjectMonth) (acc : Q) :
  (∀ x, x ∈ rows → x ∈ project_months s) →
  (∀ i v, ppm !! i = Some v → ∃ y, y ∈ project_months s ∧ prev_sop v = sop_ym y) →
  ∃ loss, for_each (sop_delay_step ppm) rows acc = Ok loss.
Proof.
  intros Hrows Hppm. revert acc.
  induction rows as [|x rows IH]; intros acc; simpl; [by eexists|].
  assert (∃ acc', sop_delay_step ppm acc x = Ok acc') as [acc' ->].
  { unfold sop_delay_step. destruct (ppm !! project_id x) as [v|] eqn:E; [|by eexists].
    assert (x ∈ project_months s) as Hx by apply Hrows, list_elem_of_here.
    destruct (Hparse x Hx) as [a Ha]. rewrite Ha.
    destruct (Hppm _ _ E) as (y & Hy & Hsop). rewrite Hsop.
    destruct (Hparse y Hy) as [b Hb]. rewrite Hb. simpl.
    destruct ((0 <? a - b) && Qltb 0 (prev_foc v)) eqn:Hc; [|by eexists].
    apply andb_true_iff in Hc as [Hd%Z.ltb_lt _].
    pose proof (delays_fit_elem s x y a b Hfit Hx Hy Ha Hb).
    rewrite float_of_int_Ok by lia. by eexists. }
  simpl. apply IH. intros y Hy. apply Hrows. by apply list_elem_of_further.
Qed.

Lemma sop_delay_returns (m : date) (prev_m : option date) :
  ∃ loss, sop_delay s m prev_m (prev_proj_map s prev_m) = Ok loss.
Proof.
  unfold sop_delay. destruct prev_m as [p|]; [|by eexists].
  apply sop_loop_returns.
  - by intros x [_ Hx]%list_elem_of_filter.
  - intros i v (x & [_ Hx]%list_elem_of_filter & _ & ->)%prev_proj_map_row.
    simpl. by exists x.
Qed.

Lemma kam_loop_returns (m : date) (prev_m : option date) (ks : list KAM) (st : State) :
  (∀ k, k ∈ ks → is_Some (st.2 !! kam_name k)) →
  ∃ st', for_each (kam_body s m prev_m (prev_proj_map s prev_m)) ks st = Ok st'.
Proof.
  revert st. induction ks as [|k ks IH]; intros st Hdom; simpl; [by eexists|].
  assert (∃ st1, kam_body s m prev_m (prev_proj_map s prev_m) st k = Ok st1 ∧
                 ∀ n, is_Some (st.2 !! n) → is_Some (st1.2 !! n)) as (st1 & -> & Hdom1).
  { unfold kam_body.
    destruct (kam_month_snaps s (kam_id k) (Some m)) as [|x xs]; [by exists st|].
    unfold score_kam_month. destruct (sop_delay_returns m prev_m) as [loss ->].
    simpl. unfold cumul_add.
    destruct (Hdom k) as [c Hc]; [apply list_elem_of_here|]. rewrite Hc. simpl.
    eexists. split; [done|]. intros n Hn. simpl.
    destruct (decide (kam_name k = n)) as [<-|Hne].
    - by rewrite lookup_insert_eq.
    - by rewrite lookup_insert_ne. }
  simpl. apply IH. intros k' Hk'. apply Hdom1, Hdom. by apply list_elem_of_further.
Qed.

Lemma month_loop_returns (months : list date) (ims : list (nat * date)) (st : State) :
  (∀ k, k ∈ kams s → is_Some (st.2 !! kam_name k)) →
  ∃ st', for_each (month_body s months) ims st = Ok st'.
Proof.
  revert st. induction ims as [|im ims IH]; intros st Hdom; simpl; [by eexists|].
  unfold month_body at 1.
  destruct (kam_loop_returns im.2 (prev_month months im.1) (kams s) st Hdom)
    as [st1 Hst1].
  rewrite Hst1. simpl. apply IH. intros k Hk.
  apply kam_loop_spec in Hst1 as (_ & Hcum & _). rewrite Hcum.
  by apply fmap_is_Some, Hdom.
Qed.

(** When every token of the store parses and no two of them lie too far
    apart for a float, [calc_scores] returns. *)
Lemma calc_scores_returns : ∃ st, calc_scores s = Ok st.
Proof.
  unfold calc_scores. apply month_loop_returns. intros k Hk. cbn [snd].
  rewrite cumul_init_lookup, decide_True; [done | by apply list_elem_of_fmap_2].
Qed.
End Returns.

(** ** Signs of the figures *)

Lemma Qltb_lt (a b : Q) : Qltb a b = true ↔ (a < b)%Q.
Proof.
  unfold Qltb. rewrite negb_true_iff. split.
  - intros H. apply Qnot_le_lt. intros Hle. apply Qle_bool_iff in Hle. congruence.
  - intros H. destruct (Qle_bool b a) eqn:E; [|done].
    apply Qle_bool_iff in E. exfalso. by apply (Qlt_not_le a b).
Qed.

Lemma Qltb_ge (a b : Q) : Qltb a b = false ↔ (b <= a)%Q.
Proof.
  unfold Qltb. rewrite negb_false_iff. apply Qle_bool_iff.
Qed.

Lemma gained_pp_cases t a :
  gained_pp t a = 0%Q ∨ gained_pp t a = 10%Q ∨ gained_pp t a = 20%Q.
Proof.
  unfold gained_pp. destruct t as [t|]; [|by left].
  destruct (Qle_bool (target_pp t * (13 # 10)) a); [by right; right|].
  destruct (Qle_bool (target_pp t) a); [by right; left | by left].
Qed.

Lemma gained_lvp_cases t a :
  gained_lvp t a = 0%Q ∨ gained_lvp t a = 20%Q ∨ gained_lvp t a = 40%Q.
Proof.
  unfold gained_lvp. destruct t as [t|]; [|by left].
  destruct (Qle_bool (target_lvp t * (13 # 10)) a); [by right; right|].
  destruct (Qle_bool (target_lvp t) a); [by right; left | by left].
Qed.

Lemma sop_delay_step_nonneg ppm loss x loss' :
  (0 <= loss)%Q → sop_delay_step ppm loss x = Ok loss' → (0 <= loss')%Q.
Proof.
  intros Hl. unfold sop_delay_step.
  destruct (ppm !! project_id x) as [prev|]; [|by intros [= <-]].
  intros (a & _ & (b & _ & H)%bind_Ok)%bind_Ok. cbv zeta in H.
  destruct ((0 <? a - b) && Qltb 0 (prev_foc prev)) eqn:E; [|by injection H as <-].
  apply bind_Ok in H as (d & Hd' & H). injection H as <-.
  unfold float_of_int in Hd'. destruct (Z.abs (a - b) <? float_limit); [|discriminate].
  injection Hd' as <-.
  apply andb_true_iff in E as [Hd%Z.ltb_lt Hf%Qltb_lt].
  assert (0 < inject_Z (a - b))%Q as Hq by (unfold Qlt; simpl; lia).
  assert (0 <= 2 * prev_foc prev * inject_Z (a - b))%Q.
  { apply Qmult_le_0_compat; [|by apply Qlt_le_weak].
    apply Qmult_le_0_compat; [done | by apply Qlt_le_weak]. }
  lra.
Qed.

Lemma sop_delay_nonneg s m prev_m ppm loss :
  sop_delay s m prev_m ppm = Ok loss → (0 <= loss)%Q.
Proof.
  unfold sop_delay. destruct prev_m as [p|]; [|by intros [= <-]].
  assert (∀ rows acc, (0 <= acc)%Q →
            for_each (sop_delay_step ppm) rows acc = Ok loss → (0 <= loss)%Q) as H.
  { induction rows as [|x rows IH]; intros acc Hacc; simpl.
    - by intros [= <-].
    - intros (acc' & Hx & Hrest)%bind_Ok.
      eapply IH; [|exact Hrest]. by eapply sop_delay_step_nonneg. }
  by apply H.
Qed.

Lemma vol_dec_nonneg prev_m snaps prev_snaps :
  (0 <= vol_dec prev_m snaps prev_snaps)%Q.
Proof.
  unfold vol_dec. destruct prev_m as [p|]; [|done]. cbv zeta.
  match goal with |- context [Qltb ?a ?b] => destruct (Qltb a b) eqn:E end; [|done].
  apply Qltb_lt in E. lra.
Qed.

Lemma pp_dec_nonneg prev_m prev_pp added_pp sum_pp promotions :
  (0 <= pp_dec prev_m prev_pp added_pp sum_pp promotions)%Q.
Proof.
  unfold pp_dec. destruct prev_m as [p|]; [|done]. cbv zeta.
  match goal with |- context [Qltb ?a ?b] => destruct (Qltb a b) eqn:E end; [|done].
  apply Qltb_lt in E. lra.
Qed.

Lemma inactivity_cases prev_m snaps prev_snaps :
  inactivity prev_m snaps prev_snaps = 0%Q ∨ inactivity prev_m snaps prev_snaps = 100%Q.
Proof.
  unfold inactivity. destruct prev_m as [p|]; [|by left]. cbv zeta.
  case_decide; [by right | by left].
Qed.

(** The figures of [score_kam_month], block by block. *)
Lemma score_kam_month_Ok s m prev_m ppm k snaps l :
  score_kam_month s m prev_m ppm k snaps = Ok l →
  let prev_snaps :=
    match prev_m with Some _ => kam_month_snaps s (kam_id k) prev_m | None => [] end in
  let prev_pp := match prev_snaps with [] => 0%Q | _ => sum (pp <$> prev_snaps) end in
  let prev_lvp := match prev_snaps with [] => 0%Q | _ => sum (lvp <$> prev_snaps) end in
  let added_pp := py_max 0 (sum (pp <$> snaps) - prev_pp) in
  let added_lvp := py_max 0 (sum (lvp <$> snaps) - prev_lvp) in
  gained_pp_points l = gained_pp (month_targets s (kam_id k) m) added_pp ∧
  gained_lvp_points l = gained_lvp (month_targets s (kam_id k) m) added_lvp ∧
  sop_delay s m prev_m ppm = Ok (sop_delay_loss l) ∧
  vol_dec_loss l = vol_dec prev_m snaps prev_snaps ∧
  pp_dec_loss l =
    pp_dec prev_m prev_pp added_pp (sum (pp <$> snaps)) (promotions_of s m prev_m ppm) ∧
  inactivity_loss l = inactivity prev_m snaps prev_snaps.
Proof.
  unfold score_kam_month. intros (loss & Hs & H)%bind_Ok.
  injection H as <-. simpl. rewrite Hs. done.
Qed.

Lemma locals_nonneg s m prev_m ppm k snaps l :
  score_kam_month s m prev_m ppm k snaps = Ok l →
  (0 <= gained_pp_points l ∧ 0 <= gained_lvp_points l ∧ 0 <= sop_delay_loss l ∧
   0 <= vol_dec_loss l ∧ 0 <= pp_dec_loss l ∧ 0 <= inactivity_loss l)%Q.
Proof.
  intros (Hgp & Hgl & Hsop & Hvol & Hpp & Hin)%score_kam_month_Ok.
  repeat split.
  - rewrite Hgp.
    match goal with |- context [gained_pp ?t ?a] =>
      by destruct (gained_pp_cases t a) as [->|[->| ->]] end.
  - rewrite Hgl.
    match goal with |- context [gained_lvp ?t ?a] =>
      by destruct (gained_lvp_cases t a) as [->|[->| ->]] end.
  - by eapply sop_delay_nonneg.
  - rewrite Hvol. apply vol_dec_nonneg.
  - rewrite Hpp. apply pp_dec_nonneg.
  - rewrite Hin.
    match goal with |- context [inactivity ?p ?a ?b] =>
      by destruct (inactivity_cases p a b) as [->| ->] end.
Qed.

(** ** C7: the total and the signs of its summands *)

(** C7. Every record a run emits comes from a scored KAM and month whose
    figures [l] give [total = gained pp + gained lvp - (delay loss + volume
    loss + pp loss + inactivity loss)], and the two gains and the four losses
    are all at least 0. (The inactivity loss is a figure of the loop body, not
    a field of the record. The total itself may be negative: the second record
    of [alice_store] has total -110.) *)
Theorem C7_total_formula_and_signs (s : Store) (st : State) (r : ScoreItem) :
  calc_scores s = Ok st →
  r ∈ st.1 →
  ∃ k m prev_m l,
    scored s k m prev_m l ∧ r = item_of k m l ∧
    total r = (points_gained_pp r + points_gained_lvp r
               - (points_lost_sop_delay r + points_lost_volume_dec r
                  + points_lost_pp_dec r + inactivity_loss l))%Q ∧
    (0 <= points_gained_pp r ∧ 0 <= points_gained_lvp r ∧
     0 <= points_lost_sop_delay r ∧ 0 <= points_lost_volume_dec r ∧
     0 <= points_lost_pp_dec r ∧ 0 <= inactivity_loss l)%Q.
Proof.
  intros Hrun Hr. apply (calc_scores_records s st r Hrun) in Hr.
  destruct Hr as (k & m & prev_m & l & Hsc & ->).
  exists k, m, prev_m, l. split; [done|]. split; [done|]. split; [done|].
  destruct Hsc as (mi & _ & _ & _ & _ & Hl). simpl.
  by eapply locals_nonneg.
Qed.

Lemma C7_witness :
  ∃ k m prev_m l,
    scored alice_store k m prev_m l ∧
    mkScoreItem "Alice" M2 0 0 0 0 10 (-110) = item_of k m l ∧
    total (mkScoreItem "Alice" M2 0 0 0 0 10 (-110)) =
      (0 + 0 - (0 + 0 + 10 + inactivity_loss l))%Q ∧
    (0 <= 0 ∧ 0 <= 0 ∧ 0 <= 0 ∧ 0 <= 0 ∧ 0 <= 10 ∧ 0 <= inactivity_loss l)%Q.
Proof.
  apply (C7_total_formula_and_signs alice_store (run alice_store)
           (mkScoreItem "Alice" M2 0 0 0 0 10 (-110))).
  - vm_compute. reflexivity.
  - apply list_elem_of_In. vm_compute. right. left. reflexivity.
Defined.

(** ** C4: the inactivity loss *)

Lemma size_difference_0 (X Y : gset Z) : size (X ∖ Y) = 0%nat ↔ X ⊆ Y.
Proof.
  rewrite size_empty_iff. split.
  - intros H x Hx. destruct (decide (x ∈ Y)) as [|Hn]; [done|].
    exfalso. apply (not_elem_of_empty (C := gset Z) x). rewrite <- H.
    by apply elem_of_difference.
  - intros H x. rewrite elem_of_difference. split; [|by intros ?%not_elem_of_empty].
    intros [Hx Hn]. exfalso. by apply Hn, H.
Qed.

(** C4, as the code has it. For a KAM scored in a month with a previous
    month, the inactivity loss is 100 when every project identifier active
    for that KAM in the month was already active for it in the previous month
    (no new project), and 0 otherwise. *)
Theorem C4_inactivity_no_new_project (s : Store) (k : KAM) (m p : date) (l : Locals) :
  scored s k m (Some p) l →
  inactivity_loss l =
    if decide (ids_of (kam_month_snaps s (kam_id k) (Some m))
               ⊆ ids_of (kam_month_snaps s (kam_id k) (Some p)))
    then 100%Q else 0%Q.
Proof.
  intros (mi & _ & _ & _ & _ & Hl).
  apply score_kam_month_Ok in Hl as (_ & _ & _ & _ & _ & ->).
  unfold inactivity. cbv zeta.
  destruct (decide (size (ids_of (kam_month_snaps s (kam_id k) (Some m))
                          ∖ ids_of (kam_month_snaps s (kam_id k) (Some p))) = 0%nat))
    as [H|H].
  - rewrite decide_True; [done | by apply size_difference_0].
  - rewrite decide_False; [done | by rewrite <- size_difference_0].
Qed.

Lemma C4_witness :
  inactivity_loss (mkLocals 0 0 0 0 10 100) =
    if decide (ids_of (kam_month_snaps alice_store (kam_id Alice) (Some M2))
               ⊆ ids_of (kam_month_snaps alice_store (kam_id Alice) (Some M1)))
    then 100%Q else 0%Q.
Proof.
  apply (C4_inactivity_no_new_project alice_store Alice M2 M1 (mkLocals 0 0 0 0 10 100)).
  scored_at 1%nat.
Defined.

(** C4 as stated fails. In [churn_store] Alice's projects are 1 and 2 in the
    first month and 1 and 3 in the second: the second set is not a strict
    superset of the first, yet the inactivity loss is 0, not 100. *)
Lemma C4_counterexample :
  ∃ l, scored churn_store Alice M2 (Some M1) l ∧
       ¬ (ids_of (kam_month_snaps churn_store (kam_id Alice) (Some M1))
          ⊂ ids_of (kam_month_snaps churn_store (kam_id Alice) (Some M2))) ∧
       inactivity_loss l = 0%Q ∧ inactivity_loss l ≠ 100%Q.
Proof.
  eexists. split; [|split].
  - scored_at 1%nat.
  - intros [H _]. specialize (H 2). vm_compute in H.
    by discriminate H.
  - split; [reflexivity | discriminate].
Qed.

(** ** C3: the first-month example *)

Lemma sum_singleton (x : Q) : sum [x] = (0 + x)%Q.
Proof. done. Qed.

Lemma Qle_bool_false (a b : Q) : Qle_bool a b = false ↔ (b < a)%Q.
Proof.
  split.
  - intros H. apply Qnot_le_lt. intros Hle%Qle_bool_iff. congruence.
  - intros H. destruct (Qle_bool a b) eqn:E; [|done].
    apply Qle_bool_iff in E. exfalso. by apply (Qlt_not_le b a).
Qed.

(** C3, as the code has it. In a month without a previous month, a KAM with
    exactly one snapshot (pp 50, lvp 30) and the target (40, 20) gains 10
    points for pp and 40 points for lvp (30 reaches 1.3 x 20 = 26); the four
    losses are 0 and the total is 50. *)
Theorem C3_first_month_example (s : Store) (k : KAM) (m : date) (l : Locals)
    (x : ProjectMonth) (t : MonthlyTarget) :
  scored s k m None l →
  kam_month_snaps s (kam_id k) (Some m) = [x] →
  (pp x == 50)%Q → (lvp x == 30)%Q →
  month_targets s (kam_id k) m = Some t →
  (target_pp t == 40)%Q → (target_lvp t == 20)%Q →
  gained_pp_points l = 10%Q ∧ gained_lvp_points l = 40%Q ∧
  sop_delay_loss l = 0%Q ∧ vol_dec_loss l = 0%Q ∧ pp_dec_loss l = 0%Q ∧
  inactivity_loss l = 0%Q ∧ (total_of l == 50)%Q.
Proof.
  intros (mi & _ & _ & _ & _ & Hl) Hx Hpp Hlvp Ht Htp Htl.
  rewrite Hx in Hl. unfold total_of.
  apply score_kam_month_Ok in Hl as (Hgp & Hgl & Hsop & -> & -> & ->).
  cbn [sop_delay] in Hsop. injection Hsop as <-.
  rewrite Hgp, Hgl, Ht. cbn [vol_dec pp_dec inactivity fmap list_fmap].
  rewrite !sum_singleton. unfold gained_pp, gained_lvp, py_max.
  assert (Qltb 0 (0 + pp x - 0) = true) as -> by (apply Qltb_lt; lra).
  assert (Qltb 0 (0 + lvp x - 0) = true) as -> by (apply Qltb_lt; lra).
  assert (Qle_bool (target_pp t * (13 # 10)) (0 + pp x - 0) = false) as ->
    by (apply Qle_bool_false; lra).
  assert (Qle_bool (target_pp t) (0 + pp x - 0) = true) as ->
    by (apply Qle_bool_iff; lra).
  assert (Qle_bool (target_lvp t * (13 # 10)) (0 + lvp x - 0) = true) as ->
    by (apply Qle_bool_iff; lra).
  repeat split; reflexivity.
Qed.

Lemma C3_witness :
  gained_pp_points (mkLocals 10 40 0 0 0 0) = 10%Q ∧
  gained_lvp_points (mkLocals 10 40 0 0 0 0) = 40%Q ∧
  sop_delay_loss (mkLocals 10 40 0 0 0 0) = 0%Q ∧
  vol_dec_loss (mkLocals 10 40 0 0 0 0) = 0%Q ∧
  pp_dec_loss (mkLocals 10 40 0 0 0 0) = 0%Q ∧
  inactivity_loss (mkLocals 10 40 0 0 0 0) = 0%Q ∧
  (total_of (mkLocals 10 40 0 0 0 0) == 50)%Q.
Proof.
  apply (C3_first_month_example alice_store Alice M1 (mkLocals 10 40 0 0 0 0)
           (mkProjectMonth 1 M1 50 30 "2026-03" 25 21) (mkMonthlyTarget 1 M1 40 20)).
  - scored_at 0%nat.
  - vm_compute. reflexivity.
  - reflexivity.
  - reflexivity.
  - vm_compute. reflexivity.
  - reflexivity.
  - reflexivity.
Defined.

(** C3 as stated fails. [alice_store] is the example of the specification:
    Alice's first month, one snapshot with pp 50 and lvp 30, the target
    (40, 20). The engine awards 40 points for lvp and a total of 50, not 20
    and 30. *)
Lemma C3_counterexample :
  ∃ l,
    scored alice_store Alice M1 None l ∧
    kam_month_snaps alice_store (kam_id Alice) (Some M1)
      = [mkProjectMonth 1 M1 50 30 "2026-03" 25 21] ∧
    month_targets alice_store (kam_id Alice) M1 = Some (mkMonthlyTarget 1 M1 40 20) ∧
    gained_pp_points l = 10%Q ∧
    gained_lvp_points l = 40%Q ∧ ¬ (gained_lvp_points l == 20)%Q ∧
    total_of l = 50%Q ∧ ¬ (total_of l == 30)%Q ∧
    ∃ st, calc_scores alice_store = Ok st ∧ item_of Alice M1 l ∈ st.1.
Proof.
  exists (mkLocals 10 40 0 0 0 0).
  split; [scored_at 0%nat|].
  split; [vm_compute; reflexivity|].
  split; [vm_compute; reflexivity|].
  split; [reflexivity|]. split; [reflexivity|]. split; [by intros H; vm_compute in H|].
  split; [vm_compute; reflexivity|]. split; [by intros H; vm_compute in H|].
  eexists. split; [vm_compute; reflexivity|].
  apply list_elem_of_In. vm_compute. left. reflexivity.
Qed.

(** ** C5: what a score record carries *)

(** C5, as the code has it. Every record a run emits carries the KAM name,
    the month, five component figures (points gained for pp and for lvp,
    points lost for delivery-date slippage, volume decrease and pp decrease)
    and the total; the inactivity loss has no field, it is only subtracted
    in the total. *)
Theorem C5_record_carries_five_figures (s : Store) (st : State) (r : ScoreItem) :
  calc_scores s = Ok st →
  r ∈ st.1 →
  ∃ k m prev_m l,
    scored s k m prev_m l ∧
    kam r = kam_name k ∧ si_month r = m ∧
    points_gained_pp r = gained_pp_points l ∧
    points_gained_lvp r = gained_lvp_points l ∧
    points_lost_sop_delay r = sop_delay_loss l ∧
    points_lost_volume_dec r = vol_dec_loss l ∧
    points_lost_pp_dec r = pp_dec_loss l ∧
    total r = (gained_pp_points l + gained_lvp_points l
               - (sop_delay_loss l + vol_dec_loss l + pp_dec_loss l
                  + inactivity_loss l))%Q.
Proof.
  intros Hrun Hr. apply (calc_scores_records s st r Hrun) in Hr.
  destruct Hr as (k & m & prev_m & l & Hsc & ->).
  exists k, m, prev_m, l. done.
Qed.

Lemma C5_witness :
  ∃ k m prev_m l,
    scored alice_store k m prev_m l ∧
    "Alice"%string = kam_name k ∧ M1 = m ∧
    10%Q = gained_pp_points l ∧ 40%Q = gained_lvp_points l ∧
    0%Q = sop_delay_loss l ∧ 0%Q = vol_dec_loss l ∧ 0%Q = pp_dec_loss l ∧
    50%Q = (gained_pp_points l + gained_lvp_points l
            - (sop_delay_loss l + vol_dec_loss l + pp_dec_loss l
               + inactivity_loss l))%Q.
Proof.
  apply (C5_record_carries_five_figures alice_store (run alice_store)
           (mkScoreItem "Alice" M1 10 40 0 0 0 50)).
  - vm_compute. reflexivity.
  - apply list_elem_of_In. vm_compute. left. reflexivity.
Defined.

(** C5 as stated fails. The record emitted for Alice's second month in
    [alice_store] comes from an inactivity loss of 100, and none of its
    numeric fields holds that figure. *)
Lemma C5_counterexample :
  ∃ l,
    scored alice_store Alice M2 (Some M1) l ∧
    (∃ st, calc_scores alice_store = Ok st ∧ item_of Alice M2 l ∈ st.1) ∧
    inactivity_loss l = 100%Q ∧
    figures (item_of Alice M2 l) = [0; 0; 0; 0; 10; -110]%Q ∧
    Forall (λ f, ¬ (f == inactivity_loss l)%Q) (figures (item_of Alice M2 l)).
Proof.
  exists (mkLocals 0 0 0 0 10 100).
  split; [scored_at 1%nat|].
  split.
  { eexists. split; [vm_compute; reflexivity|].
    apply list_elem_of_In. vm_compute. right. left. reflexivity. }
  split; [reflexivity|]. split; [vm_compute; reflexivity|].
  repeat constructor; by intros H; vm_compute in H.
Qed.

(** ** C10: a KAM without snapshots of its own in the previous month *)

Lemma kam_month_snaps_elem (s : Store) (k : Z) (m : date) (x : ProjectMonth) :
  x ∈ kam_month_snaps s k (Some m) → x ∈ project_months s ∧ month x = m.
Proof.
  unfold kam_month_snaps. rewrite list_elem_of_In, in_flat_map.
  intros (y & Hy & Hx). apply in_flat_map in Hx as (p & _ & Hx).
  destruct (decide (project_id y = p_id p ∧ p_kam_id p = k ∧ month y = m))
    as [(_ & _ & Hm)|]; [|done].
  destruct Hx as [->|[]]. split; [by apply list_elem_of_In | done].
Qed.

Lemma foldl_Qplus_nonneg (l : list Q) (acc : Q) :
  (0 <= acc)%Q → Forall (λ q, (0 <= q)%Q) l → (0 <= foldl Qplus acc l)%Q.
Proof.
  revert acc. induction l as [|q l IH]; intros acc Hacc Hl; simpl; [done|].
  inversion Hl; subst. apply IH; [lra | done].
Qed.

Lemma sum_nonneg (l : list Q) : Forall (λ q, (0 <= q)%Q) l → (0 <= sum l)%Q.
Proof. intros H. by apply foldl_Qplus_nonneg. Qed.

Lemma or_zero_nonneg (x : Q) : (0 <= x)%Q → (0 <= or_zero x)%Q.
Proof. intros H. unfold or_zero. by destruct (Qeq_bool x 0). Qed.

Lemma prev_proj_map_pp_nonneg (s : Store) (p : date) (pid : Z) (v : PrevRow) :
  Forall (λ x, (0 <= pp x)%Q) (project_months s) →
  prev_proj_map s (Some p) !! pid = Some v → (0 <= prev_pp_of v)%Q.
Proof.
  intros Hnn (x & [_ Hx]%list_elem_of_filter & _ & ->)%prev_proj_map_row.
  rewrite Forall_forall in Hnn. simpl. by apply or_zero_nonneg, Hnn.
Qed.

Lemma py_max_0_nonneg (x : Q) : (0 <= py_max 0 x)%Q.
Proof.
  unfold py_max. destruct (Qltb 0 x) eqn:E; [|done].
  apply Qltb_lt in E. lra.
Qed.

Lemma py_min_nonneg (a b : Q) : (0 <= a)%Q → (0 <= b)%Q → (0 <= py_min a b)%Q.
Proof. intros Ha Hb. unfold py_min. by destruct (Qltb b a). Qed.

Lemma promotions_of_nonneg (s : Store) (m : date) (prev_m : option date) :
  Forall (λ x, (0 <= pp x)%Q) (project_months s) →
  (0 <= promotions_of s m prev_m (prev_proj_map s prev_m))%Q.
Proof.
  intros Hnn. unfold promotions_of. destruct prev_m as [p|]; [|done].
  assert (∀ rows acc, (0 <= acc)%Q →
    (0 <= foldl (promotion_step (prev_proj_map s (Some p))) acc rows)%Q) as H.
  { induction rows as [|x rows IH]; intros acc Hacc; simpl; [done|].
    apply IH. unfold promotion_step.
    destruct (prev_proj_map s (Some p) !! project_id x) as [v|] eqn:E; [|done].
    cbv zeta.
    assert (0 <= py_min (py_max 0 (or_zero (lvp x) - prev_lvp_of v)) (prev_pp_of v))%Q.
    { apply py_min_nonneg; [apply py_max_0_nonneg|].
      by eapply prev_proj_map_pp_nonneg. }
    lra. }
  by apply H.
Qed.

Lemma ids_of_nonempty (x : ProjectMonth) (xs : list ProjectMonth) :
  size (ids_of (x :: xs) ∖ ids_of []) ≠ 0%nat.
Proof.
  rewrite size_difference_0. intros H.
  apply (not_elem_of_empty (C := gset Z) (project_id x)).
  apply H. unfold ids_of. rewrite fmap_cons, list_to_set_cons. set_solver.
Qed.

(** C10, as the code has it. For a KAM scored in a month that has a
    previous month in which the KAM has no snapshot of its own, the
    volume-decrease loss, the pp-decrease loss and the inactivity loss are 0,
    provided no snapshot of the store has a negative pp or a negative
    foc2026_sec. Nothing is said of the delay loss. *)
Theorem C10_no_own_snapshot_in_previous_month (s : Store) (k : KAM) (m p : date)
    (l : Locals) :
  scored s k m (Some p) l →
  kam_month_snaps s (kam_id k) (Some p) = [] →
  Forall (λ x, (0 <= pp x)%Q ∧ (0 <= foc2026_sec x)%Q) (project_months s) →
  vol_dec_loss l = 0%Q ∧ pp_dec_loss l = 0%Q ∧ inactivity_loss l = 0%Q.
Proof.
  intros (mi & _ & _ & _ & Hne & Hl) Hprev Hnn.
  assert (Forall (λ x, (0 <= pp x)%Q) (project_months s)) as Hpp
    by (eapply Forall_impl; [exact Hnn | by intros x [? ?]]).
  assert (Forall (λ x, (0 <= pp x)%Q ∧ (0 <= foc2026_sec x)%Q)
            (kam_month_snaps s (kam_id k) (Some m))) as Hsnaps.
  { rewrite Forall_forall in Hnn. apply Forall_forall.
    intros x [Hx _]%kam_month_snaps_elem. by apply Hnn. }
  apply score_kam_month_Ok in Hl as (_ & _ & _ & -> & -> & ->).
  rewrite Hprev. split; [|split].
  - unfold vol_dec. cbv zeta.
    assert (Qltb (sum (foc2026_sec <$> kam_month_snaps s (kam_id k) (Some m))) 0 = false)
      as ->; [|done].
    apply Qltb_ge, sum_nonneg, Forall_fmap.
    eapply Forall_impl; [exact Hsnaps | by intros x [? ?]].
  - unfold pp_dec. cbv zeta.
    pose proof (promotions_of_nonneg s m (Some p) Hpp) as Hprom.
    assert (0 <= sum (pp <$> kam_month_snaps s (kam_id k) (Some m)))%Q as Hsum.
    { apply sum_nonneg, Forall_fmap.
      eapply Forall_impl; [exact Hsnaps | by intros x [? ?]]. }
    match goal with |- (if Qltb ?a ?b then _ else _) = _ =>
      assert (Qltb a b = false) as ->; [|done] end.
    apply Qltb_ge. unfold py_max.
    destruct (Qltb 0 (sum (pp <$> kam_month_snaps s (kam_id k) (Some m)) - 0)); lra.
  - unfold inactivity. cbv zeta.
    destruct (kam_month_snaps s (kam_id k) (Some m)) as [|x xs]; [done|].
    rewrite decide_False; [done | apply ids_of_nonempty].
Qed.

Lemma C10_witness :
  vol_dec_loss (mkLocals 0 0 42 0 0 0) = 0%Q ∧
  pp_dec_loss (mkLocals 0 0 42 0 0 0) = 0%Q ∧
  inactivity_loss (mkLocals 0 0 42 0 0 0) = 0%Q.
Proof.
  apply (C10_no_own_snapshot_in_previous_month team_store Bob M3 M2
           (mkLocals 0 0 42 0 0 0)).
  - scored_at 2%nat.
  - vm_compute. reflexivity.
  - repeat constructor; by intros H; vm_compute in H.
Defined.

(** C10 as stated fails. In [negative_store] Bob is scored in the second
    month and has no snapshot in the first, and his only snapshot has pp -5
    and foc2026_sec -3: the volume-decrease loss is 2 x (0 - (-3)) = 6 and the
    pp-decrease loss is 2 x (0 - (-5)) = 10. Nothing in the code keeps such
    figures out: [input_month] stores the shares of negative added figures. *)
Lemma C10_counterexample :
  ∃ l,
    scored negative_store Bob M2 (Some M1) l ∧
    kam_month_snaps negative_store (kam_id Bob) (Some M1) = [] ∧
    vol_dec_loss l = 6%Q ∧ pp_dec_loss l = 10%Q ∧ inactivity_loss l = 0%Q.
Proof.
  exists (mkLocals 0 0 0 6 10 0).
  split; [scored_at 1%nat|]. split; [vm_compute; reflexivity|].
  split; [reflexivity|]. split; reflexivity.
Qed.

(** ** The month sequence *)

#[global] Instance date_le_trans : Transitive date_le.
Proof. intros a b c. unfold date_le. lia. Qed.

#[global] Instance date_le_total : Total date_le.
Proof. intros a b. unfold date_le. lia. Qed.

Lemma months_of_elem (s : Store) (m : date) :
  m ∈ months_of s ↔ ∃ x, x ∈ project_months s ∧ month x = m.
Proof.
  unfold months_of. rewrite merge_sort_Permutation, elem_of_remove_dups.
  rewrite list_elem_of_fmap. split.
  - intros (x & -> & Hx). by exists x.
  - intros (x & Hx & <-). by exists x.
Qed.

(** The month sequence is strictly ascending. *)
Lemma months_of_sorted (s : Store) : StronglySorted date_lt (months_of s).
Proof.
  unfold months_of.
  assert (StronglySorted date_le
            (merge_sort date_le (remove_dups (month <$> project_months s)))) as Hs
    by apply (StronglySorted_merge_sort date_le).
  assert (NoDup (merge_sort date_le (remove_dups (month <$> project_months s)))) as Hn
    by (rewrite merge_sort_Permutation; apply NoDup_remove_dups).
  revert Hs Hn. generalize (merge_sort date_le (remove_dups (month <$> project_months s))).
  intros l Hs. induction Hs as [|a l Hs IH Ha]; intros Hn; [constructor|].
  apply NoDup_cons in Hn as [Hnin Hn]. constructor; [by apply IH|].
  rewrite Forall_forall in Ha. apply Forall_forall. intros b Hb.
  split; [by apply Ha|]. intros ->. done.
Qed.

(** ** C6 and C9: the cumulative mapping *)

Lemma has_snaps_true (s : Store) (k : KAM) (m : date) :
  has_snaps s k m = true ↔ kam_month_snaps s (kam_id k) (Some m) ≠ [].
Proof. unfold has_snaps. by destruct (kam_month_snaps s (kam_id k) (Some m)). Qed.

Section RecordsOfOneKam.
Context (s : Store) (m : date) (prev_m : option date) (ppm : gmap Z PrevRow).

Lemma filter_kam_items_self k :
  filter (λ r, kam r = kam_name k) (kam_items s m prev_m ppm k)
  = kam_items s m prev_m ppm k.
Proof.
  unfold kam_items. destruct (kam_month_snaps s (kam_id k) (Some m)); [done|].
  destruct (score_kam_month s m prev_m ppm k (p :: l)); [|done].
  by rewrite filter_cons_True.
Qed.

Lemma filter_kam_items_other n ks :
  n ∉ kam_name <$> ks →
  filter (λ r, kam r = n) (flat_map (kam_items s m prev_m ppm) ks) = [].
Proof.
  induction ks as [|k ks IH]; [done|].
  rewrite fmap_cons, not_elem_of_cons. intros [Hne Hnin].
  cbn [flat_map]. rewrite filter_app, IH by done. rewrite app_nil_r.
  unfold kam_items. destruct (kam_month_snaps s (kam_id k) (Some m)); [done|].
  destruct (score_kam_month s m prev_m ppm k (p :: l)); [|done].
  by rewrite filter_cons_False by (simpl; congruence).
Qed.

(** With unique KAM names, the records of one KAM's name among those of a
    month are the record of that KAM. *)
Lemma filter_kam_loop ks k :
  NoDup (kam_name <$> ks) → k ∈ ks →
  filter (λ r, kam r = kam_name k) (flat_map (kam_items s m prev_m ppm) ks)
  = kam_items s m prev_m ppm k.
Proof.
  induction ks as [|k' ks IH]; [by intros _ ?%elem_of_nil|].
  rewrite fmap_cons, NoDup_cons. intros [Hnin Hnd] Hk.
  cbn [flat_map]. rewrite filter_app.
  apply elem_of_cons in Hk as [->|Hk].
  - rewrite filter_kam_items_self, filter_kam_items_other by done.
    by rewrite app_nil_r.
  - rewrite IH by done.
    assert (kam_name k' ≠ kam_name k) as Hne.
    { intros Heq. apply Hnin. rewrite Heq. by apply list_elem_of_fmap_2. }
    unfold kam_items at 1.
    destruct (kam_month_snaps s (kam_id k') (Some m)); [done|].
    destruct (score_kam_month s m prev_m ppm k' (p :: l)); [|done].
    by rewrite filter_cons_False by (simpl; congruence).
Qed.

End RecordsOfOneKam.

Lemma months_of_kam_records s months ims k :
  NoDup (kam_name <$> kams s) → k ∈ kams s →
  Forall (λ im : nat * date, ∀ k, k ∈ kams s →
            kam_month_snaps s (kam_id k) (Some im.2) ≠ [] →
            ∃ l, score_kam_month s im.2 (prev_month months im.1)
                   (prev_proj_map s (prev_month months im.1)) k
                   (kam_month_snaps s (kam_id k) (Some im.2)) = Ok l) ims →
  si_month <$> filter (λ r, kam r = kam_name k) (flat_map (month_items s months) ims)
  = filter (λ m, has_snaps s k m) (snd <$> ims).
Proof.
  intros Hnd Hk. induction 1 as [|im ims Him _ IH]; [done|].
  cbn [flat_map]. rewrite filter_app, fmap_app, IH, fmap_cons. clear IH.
  unfold month_items at 1. rewrite filter_kam_loop by done.
  unfold kam_items, has_snaps. specialize (Him k Hk). rewrite filter_cons.
  destruct (kam_month_snaps s (kam_id k) (Some im.2)) as [|x xs]; [done|].
  destruct Him as [l ->]; [done|].
  rewrite decide_True by done. done.
Qed.

Lemma kam_name_inj (ks : list KAM) (k k' : KAM) :
  NoDup (kam_name <$> ks) → k' ∈ ks → k ∈ ks → kam_name k' = kam_name k → k' = k.
Proof.
  induction ks as [|k0 ks IH]; [by intros _ ?%elem_of_nil|].
  rewrite fmap_cons, NoDup_cons. intros [Hnin Hnd] Hk' Hk Heq.
  apply elem_of_cons in Hk' as [->|Hk']; apply elem_of_cons in Hk as [->|Hk].
  - done.
  - exfalso. apply Hnin. rewrite Heq. by apply list_elem_of_fmap_2.
  - exfalso. apply Hnin. rewrite <- Heq. by apply list_elem_of_fmap_2.
  - by apply IH.
Qed.

(** The cumulative entry of a KAM and the months of its records. *)
Lemma cumulative_spec (s : Store) (st : State) (k : KAM) :
  calc_scores s = Ok st →
  NoDup (kam_name <$> kams s) →
  k ∈ kams s →
  st.2 !! kam_name k
    = Some (foldl Qplus 0%Q (total <$> filter (λ r, kam r = kam_name k) st.1)) ∧
  si_month <$> filter (λ r, kam r = kam_name k) st.1
    = filter (λ m, has_snaps s k m) (months_of s).
Proof.
  intros Hrun Hnd Hk.
  pose proof Hrun as (Hres & Hcum & _)%calc_scores_spec.
  unfold calc_scores in Hrun. apply month_loop_spec in Hrun as (_ & _ & Hall).
  split.
  - rewrite Hcum, decide_True; [done | by apply list_elem_of_fmap_2].
  - rewrite Hres, (months_of_kam_records s (months_of s)) by done.
    by rewrite snd_enumerate.
Qed.

(** The snapshots of a KAM in a month, in terms of the tables: a snapshot
    of that month whose project is a project of the KAM. *)
Lemma kam_month_snaps_iff (s : Store) (k : Z) (m : date) (x : ProjectMonth) :
  x ∈ kam_month_snaps s k (Some m) ↔
  x ∈ project_months s ∧ month x = m ∧
  ∃ q, q ∈ projects s ∧ project_id x = p_id q ∧ p_kam_id q = k.
Proof.
  unfold kam_month_snaps. rewrite list_elem_of_In, in_flat_map. split.
  - intros (y & Hy & Hx). apply in_flat_map in Hx as (q & Hq & Hx).
    destruct (decide (project_id y = p_id q ∧ p_kam_id q = k ∧ month y = m))
      as [(Hid & Hk & Hm)|]; [|done].
    destruct Hx as [->|[]]. split; [by apply list_elem_of_In|]. split; [done|].
    exists q. split; [by apply list_elem_of_In | done].
  - intros (Hx & Hm & q & Hq & Hid & Hk). exists x. split; [by apply list_elem_of_In|].
    apply in_flat_map. exists q. split; [by apply list_elem_of_In|].
    rewrite decide_True by done. by left.
Qed.

(** The months in which a KAM has a snapshot, in terms of the tables. *)
Lemma has_snaps_store (s : Store) (k : KAM) (m : date) :
  has_snaps s k m = true ↔
  ∃ x q, x ∈ project_months s ∧ q ∈ projects s ∧
         project_id x = p_id q ∧ p_kam_id q = kam_id k ∧ month x = m.
Proof.
  rewrite has_snaps_true. split.
  - destruct (kam_month_snaps s (kam_id k) (Some m)) as [|x xs] eqn:E; [done|].
    intros _. assert (x ∈ kam_month_snaps s (kam_id k) (Some m)) as Hx
      by (rewrite E; apply list_elem_of_here).
    apply kam_month_snaps_iff in Hx as (Hx & Hm & q & Hq & Hid & Hk).
    by exists x, q.
  - intros (x & q & Hx & Hq & Hid & Hk & Hm) Hnil.
    assert (x ∈ kam_month_snaps s (kam_id k) (Some m)) as Hin
      by (apply kam_month_snaps_iff; eauto 10).
    rewrite Hnil in Hin. by apply elem_of_nil in Hin.
Qed.

Lemma StronglySorted_filter {A} (R : relation A) (P : A → Prop)
    `{!∀ x, Decision (P x)} (l : list A) :
  StronglySorted R l → StronglySorted R (filter P l).
Proof.
  induction 1 as [|a l Hs IH Ha]; [constructor|].
  rewrite filter_cons. case_decide; [|done].
  constructor; [done|]. rewrite Forall_forall in Ha. apply Forall_forall.
  intros b [_ Hb]%list_elem_of_filter. by apply Ha.
Qed.

(** C6. With KAM names unique (as the schema requires), the cumulative total
    of a KAM is the sum, from 0 and in the order of the records, of the totals
    of the records carrying its name; these records are the ones of that KAM's
    scored months, and their months are exactly the months of the month
    sequence in which the KAM has a snapshot, in the order of that sequence,
    which is strictly ascending. In terms of the tables: the months of the
    KAM's records are strictly ascending, and a month is among them exactly
    when some snapshot of that month belongs to a project of the KAM. A month
    without a snapshot of the KAM adds no record and leaves the sum as it
    is. *)
Theorem C6_cumulative_is_running_sum (s : Store) (st : State) (k : KAM) :
  calc_scores s = Ok st →
  NoDup (kam_name <$> kams s) →
  k ∈ kams s →
  st.2 !! kam_name k
    = Some (foldl Qplus 0%Q (total <$> filter (λ r, kam r = kam_name k) st.1)) ∧
  Forall (λ r, ∃ prev_m l, scored s k (si_month r) prev_m l ∧ r = item_of k (si_month r) l)
    (filter (λ r, kam r = kam_name k) st.1) ∧
  si_month <$> filter (λ r, kam r = kam_name k) st.1
    = filter (λ m, has_snaps s k m) (months_of s) ∧
  StronglySorted date_lt (months_of s) ∧
  StronglySorted date_lt (si_month <$> filter (λ r, kam r = kam_name k) st.1) ∧
  (∀ m, m ∈ si_month <$> filter (λ r, kam r = kam_name k) st.1 ↔
        ∃ x q, x ∈ project_months s ∧ q ∈ projects s ∧
               project_id x = p_id q ∧ p_kam_id q = kam_id k ∧ month x = m).
Proof.
  intros Hrun Hnd Hk.
  destruct (cumulative_spec s st k Hrun Hnd Hk) as [Hcum Hmonths].
  split; [done|]. split; [|split; [done|split; [apply months_of_sorted|split]]].
  - apply Forall_forall. intros r [Hname Hr]%list_elem_of_filter.
    apply (calc_scores_records s st r Hrun) in Hr.
    destruct Hr as (k' & m & prev_m & l & Hsc & ->). simpl in Hname.
    assert (k' = k) as ->.
    { destruct Hsc as (_ & _ & _ & Hk' & _). by eapply kam_name_inj. }
    by exists prev_m, l.
  - rewrite Hmonths. apply StronglySorted_filter, months_of_sorted.
  - intros m. rewrite Hmonths, list_elem_of_filter, <- has_snaps_store. split.
    + by intros [Hs%Is_true_true _].
    + intros Hs. split; [by apply Is_true_true|].
      apply has_snaps_store in Hs as (x & q & Hx & _ & _ & _ & Hm).
      apply months_of_elem. by exists x.
Qed.

Lemma C6_witness :
  calc_scores team_store = Ok (run team_store) ∧
  si_month <$> filter (λ r, kam r = kam_name Bob) (run team_store).1 = [M1; M3] ∧
  (run team_store).2 !! kam_name Bob
    = Some (foldl Qplus 0%Q
              (total <$> filter (λ r, kam r = kam_name Bob) (run team_store).1)) ∧
  Forall (λ r, ∃ prev_m l, scored team_store Bob (si_month r) prev_m l ∧
                           r = item_of Bob (si_month r) l)
    (filter (λ r, kam r = kam_name Bob) (run team_store).1) ∧
  si_month <$> filter (λ r, kam r = kam_name Bob) (run team_store).1
    = filter (λ m, has_snaps team_store Bob m) (months_of team_store) ∧
  StronglySorted date_lt (months_of team_store) ∧
  StronglySorted date_lt
    (si_month <$> filter (λ r, kam r = kam_name Bob) (run team_store).1) ∧
  (∀ m, m ∈ si_month <$> filter (λ r, kam r = kam_name Bob) (run team_store).1 ↔
        ∃ x q, x ∈ project_months team_store ∧ q ∈ projects team_store ∧
               project_id x = p_id q ∧ p_kam_id q = kam_id Bob ∧ month x = m).
Proof.
  split; [vm_compute; reflexivity|].
  split; [vm_compute; reflexivity|].
  apply (C6_cumulative_is_running_sum team_store (run team_store) Bob).
  - vm_compute. reflexivity.
  - apply (bool_decide_unpack _). vm_compute. exact I.
  - apply list_elem_of_In. vm_compute. tauto.
Defined.

(** C9. The cumulative mapping of a run holds an entry for every KAM of the
    store. With KAM names unique, a KAM without a snapshot in any month of the
    month sequence has the entry 0 and no record. *)
Theorem C9_cumulative_has_every_kam (s : Store) (st : State) (k : KAM) :
  calc_scores s = Ok st →
  k ∈ kams s →
  is_Some (st.2 !! kam_name k) ∧
  (NoDup (kam_name <$> kams s) →
   Forall (λ m, has_snaps s k m = false) (months_of s) →
   st.2 !! kam_name k = Some 0%Q ∧ ∀ r, r ∈ st.1 → kam r ≠ kam_name k).
Proof.
  intros Hrun Hk. split.
  { apply calc_scores_spec in Hrun as (_ & Hcum & _).
    rewrite Hcum, decide_True; [done | by apply list_elem_of_fmap_2]. }
  intros Hnd Hno.
  destruct (cumulative_spec s st k Hrun Hnd Hk) as (Hcum & Hmonths).
  assert (∀ ms, Forall (λ m, has_snaps s k m = false) ms →
            filter (λ m, has_snaps s k m) ms = []) as Hfilter.
  { induction 1 as [|m ms Hm _ IH]; [done|].
    rewrite filter_cons_False; [done|]. rewrite Hm. by intros []. }
  pose proof (Hfilter _ Hno) as Hnil.
  rewrite Hnil in Hmonths. apply fmap_nil_inv in Hmonths.
  split; [by rewrite Hcum, Hmonths|].
  intros r Hr Hkam.
  assert (r ∈ filter (λ r, kam r = kam_name k) st.1) as Hin
    by (by apply list_elem_of_filter).
  rewrite Hmonths in Hin. by apply elem_of_nil in Hin.
Qed.

Lemma C9_witness :
  calc_scores team_store = Ok (run team_store) ∧
  is_Some ((run team_store).2 !! kam_name Carla) ∧
  (run team_store).2 !! kam_name Carla = Some 0%Q ∧
  ∀ r, r ∈ (run team_store).1 → kam r ≠ kam_name Carla.
Proof.
  split; [vm_compute; reflexivity|].
  destruct (C9_cumulative_has_every_kam team_store (run team_store) Carla)
    as [Hsome Hzero].
  - vm_compute. reflexivity.
  - apply list_elem_of_In. vm_compute. tauto.
  - split; [exact Hsome|]. apply Hzero.
    + apply (bool_decide_unpack _). vm_compute. exact I.
    + repeat constructor.
Defined.

(** ** C8: malformed delivery-date tokens *)

Lemma int_of_str_raise (str : string) (e : exn) :
  int_of_str str = Raise e → e = ValueError.
Proof.
  unfold int_of_str.
  destruct (match rstrip (lstrip str) with
            | String "-"%char r => (true, r)
            | String "+"%char r => (false, r)
            | _ => (false, rstrip (lstrip str))
            end) as [neg digits].
  destruct (int_unsigned digits); [|by intros [= <-]].
  destruct (digit_count digits <=? int_max_str_digits); [discriminate | by intros [= <-]].
Qed.

Lemma ym_to_int_raise (ym : string) (e : exn) :
  ym_to_int ym = Raise e → e = ValueError.
Proof.
  unfold ym_to_int.
  destruct (split "-" ym) as [|y [|mm [|? ?]]]; try by intros [= <-].
  destruct (int_of_str y) as [yi|e1] eqn:Ey; simpl.
  - destruct (int_of_str mm) as [mi|e2] eqn:Em; simpl; [discriminate|].
    intros [= <-]. by eapply int_of_str_raise.
  - intros [= <-]. by eapply int_of_str_raise.
Qed.

Lemma sop_delay_step_raise ppm loss x e :
  sop_delay_step ppm loss x = Raise e → step_failure ppm x e.
Proof.
  unfold sop_delay_step, step_failure.
  destruct (ppm !! project_id x) as [prev|]; [|discriminate].
  intros H. exists prev. split; [done|].
  destruct (ym_to_int (sop_ym x)) as [a|e1] eqn:Ea; simpl in H.
  - destruct (ym_to_int (prev_sop prev)) as [b|e2] eqn:Eb; simpl in H.
    + destruct ((0 <? a - b) && Qltb 0 (prev_foc prev)) eqn:Hc; [|discriminate].
      apply andb_true_iff in Hc as [Hd%Z.ltb_lt _].
      destruct (float_of_int (a - b)) as [d|e3] eqn:Ef; simpl in H; [discriminate|].
      injection H as <-. apply float_of_int_Raise in Ef as [-> Hbig].
      right. split; [done|]. exists a, b. split; [done|]. split; [done | lia].
    + injection H as <-. pose proof (ym_to_int_raise _ _ Eb) as ->.
      left. split; [done | by right].
  - injection H as <-. pose proof (ym_to_int_raise _ _ Ea) as ->.
    left. split; [done | by left].
Qed.

Lemma sop_loop_raise ppm rows acc e :
  for_each (sop_delay_step ppm) rows acc = Raise e →
  ∃ x, x ∈ rows ∧ step_failure ppm x e.
Proof.
  revert acc. induction rows as [|x rows IH]; intros acc; simpl; [discriminate|].
  destruct (sop_delay_step ppm acc x) as [acc'|e1] eqn:E; simpl.
  - intros (y & Hy & Hf)%IH. exists y. split; [by apply list_elem_of_further | done].
  - intros [= <-]. exists x. split; [apply list_elem_of_here|].
    by eapply sop_delay_step_raise.
Qed.

(** A delay loop that ends normally has parsed both tokens of every row
    whose project is in [prev_proj_map]. *)
Lemma sop_loop_Ok_tokens ppm rows acc loss x prev :
  for_each (sop_delay_step ppm) rows acc = Ok loss →
  x ∈ rows → ppm !! project_id x = Some prev →
  (∃ a, ym_to_int (sop_ym x) = Ok a) ∧ (∃ b, ym_to_int (prev_sop prev) = Ok b).
Proof.
  revert acc. induction rows as [|y rows IH]; intros acc; simpl.
  - by intros _ ?%elem_of_nil.
  - intros (acc' & Hy & Hrest)%bind_Ok [->|Hx]%elem_of_cons Hprev; [|by eapply IH].
    unfold sop_delay_step in Hy. rewrite Hprev in Hy.
    apply bind_Ok in Hy as (a & Ha & Hy). apply bind_Ok in Hy as (b & Hb & _).
    eauto.
Qed.

Lemma score_kam_month_raise s m prev_m k snaps e :
  score_kam_month s m prev_m (prev_proj_map s prev_m) k snaps = Raise e →
  store_failure s e.
Proof.
  unfold score_kam_month.
  destruct (sop_delay s m prev_m (prev_proj_map s prev_m)) as [loss|e1] eqn:E; simpl;
    [discriminate|].
  intros [= <-]. unfold sop_delay in E. destruct prev_m as [p|]; [|discriminate].
  apply sop_loop_raise in E as (x & [_ Hx]%list_elem_of_filter & prev & Hprev & Hf).
  apply prev_proj_map_row in Hprev as (y & [_ Hy]%list_elem_of_filter & _ & ->).
  simpl in Hf. destruct Hf as [[-> Hf]|[-> (a & b & Ha & Hb & Hbig)]].
  - left. split; [done|]. destruct Hf; eauto.
  - right. split; [done|]. by exists x, y, a, b.
Qed.

(** The KAM loop raises for nothing else when [cumul] has the names of its
    KAMs. *)
Lemma kam_loop_raise s m prev_m ks st e :
  (∀ k, k ∈ ks → is_Some (st.2 !! kam_name k)) →
  for_each (kam_body s m prev_m (prev_proj_map s prev_m)) ks st = Raise e →
  store_failure s e.
Proof.
  revert st. induction ks as [|k ks IH]; intros st Hdom; simpl; [discriminate|].
  destruct (kam_body s m prev_m (prev_proj_map s prev_m) st k) as [st1|e1] eqn:E; simpl.
  - apply IH. intros k' Hk'.
    assert (for_each (kam_body s m prev_m (prev_proj_map s prev_m)) [k] st = Ok st1) as H1
      by (simpl; by rewrite E).
    apply kam_loop_spec in H1 as (_ & Hcum & _). rewrite Hcum.
    apply fmap_is_Some, Hdom. by apply list_elem_of_further.
  - intros [= <-]. unfold kam_body in E.
    destruct (kam_month_snaps s (kam_id k) (Some m)) as [|x xs]; [discriminate|].
    destruct (score_kam_month s m prev_m (prev_proj_map s prev_m) k (x :: xs))
      as [l|e2] eqn:El; simpl in E.
    + unfold cumul_add in E. destruct (Hdom k) as [c Hc]; [apply list_elem_of_here|].
      rewrite Hc in E. discriminate.
    + injection E as <-. by eapply score_kam_month_raise.
Qed.

Lemma month_loop_raise s months ims st e :
  (∀ k, k ∈ kams s → is_Some (st.2 !! kam_name k)) →
  for_each (month_body s months) ims st = Raise e → store_failure s e.
Proof.
  revert st. induction ims as [|im ims IH]; intros st Hdom; simpl; [discriminate|].
  destruct (month_body s months st im) as [st1|e1] eqn:E; simpl.
  - apply IH. intros k Hk. unfold month_body in E.
    apply kam_loop_spec in E as (_ & Hcum & _). rewrite Hcum.
    by apply fmap_is_Some, Hdom.
  - intros [= <-]. unfold month_body in E. by eapply kam_loop_raise.
Qed.

(** [calc_scores] raises nothing but [ValueError], for a token of the store
    that [ym_to_int] refuses, and [OverflowError], for two accepted tokens of
    the store too far apart; line 316 never meets a missing key. *)
Lemma calc_scores_raise (s : Store) (e : exn) :
  calc_scores s = Raise e → store_failure s e.
Proof.
  unfold calc_scores. apply month_loop_raise. intros k Hk. cbn [snd].
  rewrite cumul_init_lookup, decide_True; [done | by apply list_elem_of_fmap_2].
Qed.

Lemma store_failure_overflow (s : Store) :
  store_failure s OverflowError → ¬ delays_fit s.
Proof.
  intros [[? _]|[_ (x & y & a & b & Hx & Hy & Ha & Hb & Hbig)]] Hfit; [done|].
  pose proof (delays_fit_elem s x y a b Hfit Hx Hy Ha Hb). lia.
Qed.

Lemma store_failure_value (s : Store) :
  store_failure s ValueError → ¬ tokens_parse s.
Proof.
  intros [[_ (x & Hx & Hbad)]|[? _]] Hparse; [|done].
  destruct (Hparse x Hx) as [n Hn]. congruence.
Qed.

(** C8, as the code has it. When a KAM is scored in a month with a previous
    month, every snapshot of that month (of any KAM) whose project also has a
    snapshot in the previous month gets both tokens parsed by [ym_to_int]; if
    one of the two does not split at the dashes into exactly two integer
    literals, [calc_scores] returns no record at all: it raises [ValueError],
    unless the conversion of a month difference to a float has raised
    [OverflowError] before, which needs two accepted tokens of the store at
    least 2^1024 - 2^970 months apart. There is no error kind of its own, and
    the YYYY-MM form is not checked. *)
Theorem C8_unparsable_token_raises (s : Store) (k : KAM) (mi : nat) (m p : date)
    (x : ProjectMonth) (prev : PrevRow) :
  months_of s !! mi = Some m →
  prev_month (months_of s) mi = Some p →
  k ∈ kams s →
  has_snaps s k m = true →
  x ∈ month_rows s m →
  prev_proj_map s (Some p) !! project_id x = Some prev →
  ym_to_int (sop_ym x) = Raise ValueError ∨ ym_to_int (prev_sop prev) = Raise ValueError →
  (calc_scores s = Raise ValueError ∨ calc_scores s = Raise OverflowError) ∧
  (delays_fit s → calc_scores s = Raise ValueError).
Proof.
  intros Hm Hp Hk Hsnaps%has_snaps_true Hx Hprev Hbad.
  destruct (calc_scores s) as [st|e] eqn:Hrun.
  - exfalso. apply calc_scores_spec in Hrun as (_ & _ & Hall).
    destruct (Hall mi m k Hm Hk Hsnaps) as (l & mi' & _ & _ & _ & _ & Hl).
    rewrite Hp in Hl.
    apply score_kam_month_Ok in Hl as (_ & _ & Hsop & _).
    cbn [sop_delay] in Hsop.
    destruct (sop_loop_Ok_tokens _ _ _ _ x prev Hsop Hx Hprev) as [[a Ha] [b Hb]].
    destruct Hbad as [Hbad|Hbad]; congruence.
  - pose proof (calc_scores_raise s e Hrun) as Hf. split.
    + destruct Hf as [[-> _]|[-> _]]; [by left | by right].
    + intros Hfit. destruct Hf as [[-> _]|[-> Hf]]; [done|].
      exfalso. apply (store_failure_overflow s); [|done]. right. by split.
Qed.

Lemma C8_witness : calc_scores bad_token_store = Raise ValueError.
Proof.
  destruct (C8_unparsable_token_raises bad_token_store Alice 1%nat M2 M1
              (mkProjectMonth 1 M2 50 30 "2026/07" 25 21)
              (mkPrevRow 50 30 "2026-03" 21)) as [_ H].
  - vm_compute. reflexivity.
  - vm_compute. reflexivity.
  - apply list_elem_of_In. vm_compute. tauto.
  - vm_compute. reflexivity.
  - apply list_elem_of_In. vm_compute. tauto.
  - vm_compute. reflexivity.
  - left. vm_compute. reflexivity.
  - apply H, (bool_decide_unpack _). vm_compute. exact I.
Defined.

(** The other exception: in [far_token_store] the token of the third month
    does not parse, but the run ends in the second month, where the two
    accepted tokens lie about 12 x 10^400 months apart and the conversion of
    the difference to a float raises [OverflowError]. *)
Lemma far_token_store_overflows :
  ym_to_int "2026/07" = Raise ValueError ∧
  (∃ a, ym_to_int far_token = Ok a ∧ float_limit <= a - (2026 * 12 + 3)) ∧
  calc_scores far_token_store = Raise OverflowError.
Proof.
  split; [vm_compute; reflexivity|]. split.
  - eexists. split; [vm_compute; reflexivity|]. vm_compute. discriminate.
  - vm_compute. reflexivity.
Qed.

(** C8 as stated fails. In [loose_token_store] the delay loop parses the
    tokens 2026-7 and 2026-3 of Alice's project: neither matches YYYY-MM, no
    error is raised, and the run returns a record with a delay loss of
    2 x 21 x 4 = 168. *)
Lemma C8_counterexample :
  ∃ l,
    mkProjectMonth 1 M2 50 30 "2026-7" 25 21 ∈ month_rows loose_token_store M2 ∧
    prev_proj_map loose_token_store (Some M1) !! 1 = Some (mkPrevRow 50 30 "2026-3" 21) ∧
    matches_YYYY_MM "2026-7" = false ∧ matches_YYYY_MM "2026-3" = false ∧
    scored loose_token_store Alice M2 (Some M1) l ∧
    sop_delay_loss l = 168%Q ∧
    ∃ st, calc_scores loose_token_store = Ok st ∧ item_of Alice M2 l ∈ st.1.
Proof.
  exists (mkLocals 0 0 168 0 0 100).
  split; [apply list_elem_of_In; vm_compute; tauto|].
  split; [vm_compute; reflexivity|].
  split; [reflexivity|]. split; [reflexivity|].
  split; [scored_at 1%nat|]. split; [reflexivity|].
  eexists. split; [vm_compute; reflexivity|].
  apply list_elem_of_In. vm_compute. right. left. reflexivity.
Qed.

(** ** C1 and C2: the two loops over every row of the month *)

(** The delay loss and the promotions are computed from the rows of the
    month of every KAM: two KAMs scored in the same month get the same delay
    loss. *)
Lemma sop_delay_loss_shared (s : Store) (k1 k2 : KAM) (m : date)
    (prev_m : option date) (l1 l2 : Locals) :
  scored s k1 m prev_m l1 → scored s k2 m prev_m l2 →
  sop_delay_loss l1 = sop_delay_loss l2.
Proof.
  intros (? & _ & _ & _ & _ & H1) (? & _ & _ & _ & _ & H2).
  apply score_kam_month_Ok in H1 as (_ & _ & H1 & _).
  apply score_kam_month_Ok in H2 as (_ & _ & H2 & _).
  congruence.
Qed.

(** One promotion is at most the previous pp of its project. *)
Lemma py_min_le_r (a b : Q) : (py_min a b <= b)%Q.
Proof.
  unfold py_min. destruct (Qltb b a) eqn:E; [lra|].
  by apply Qltb_ge in E.
Qed.

(** C1 fails on the code. In [two_kam_store] Alice's only project keeps its
    delivery month, so the loss summed over her own projects is 0; the engine
    charges her 10, the slippage of Bob's project (2 x 5 x 1). *)
Theorem C1_delay_loss_counts_other_kams :
  ∃ l,
    scored two_kam_store Alice M2 (Some M1) l ∧
    sop_delay_loss l = 10%Q ∧
    points_lost_sop_delay (item_of Alice M2 l) = 10%Q ∧
    (∃ st, calc_scores two_kam_store = Ok st ∧ item_of Alice M2 l ∈ st.1) ∧
    spec_sop_delay two_kam_store (kam_id Alice) M2 M1 = Ok 0%Q ∧
    spec_sop_delay two_kam_store (kam_id Bob) M2 M1 = Ok 10%Q.
Proof.
  exists (mkLocals 0 0 10 0 10 100).
  split; [scored_at 1%nat|]. split; [reflexivity|]. split; [reflexivity|].
  split.
  { eexists. split; [vm_compute; reflexivity|].
    apply list_elem_of_In. vm_compute. tauto. }
  split; vm_compute; reflexivity.
Qed.

(** C2 fails on the code. In [two_kam_store] Alice's pp falls from 50 to 40
    and her lvp does not rise: with the promotions of her own project (0) the
    loss is 2 x (50 - 40) = 20; the engine adds the promotion of Bob's project
    (5) and charges her 2 x (50 - 45) = 10. *)
Theorem C2_promotions_count_other_kams :
  ∃ l,
    scored two_kam_store Alice M2 (Some M1) l ∧
    promotions_of two_kam_store M2 (Some M1) (prev_proj_map two_kam_store (Some M1)) = 5%Q ∧
    pp_dec_loss l = 10%Q ∧
    points_lost_pp_dec (item_of Alice M2 l) = 10%Q ∧
    (∃ st, calc_scores two_kam_store = Ok st ∧ item_of Alice M2 l ∈ st.1) ∧
    spec_promotions two_kam_store (kam_id Alice) M2 M1 = 0%Q ∧
    spec_pp_dec two_kam_store (kam_id Alice) M2 M1 = 20%Q.
Proof.
  exists (mkLocals 0 0 10 0 10 100).
  split; [scored_at 1%nat|]. split; [vm_compute; reflexivity|].
  split; [reflexivity|]. split; [reflexivity|].
  split.
  { eexists. split; [vm_compute; reflexivity|].
    apply list_elem_of_In. vm_compute. tauto. }
  split; vm_compute; reflexivity.
Qed.

(** ** [month_add] *)

Lemma c_int_fits_iff (z : Z) :
  c_int_fits z = true ↔ -2147483648 <= z <= 2147483647.
Proof.
  unfold c_int_fits. rewrite andb_true_iff, !Z.leb_le.
  change (2 ^ 31) with 2147483648. lia.
Qed.

Lemma days_in_month_ge_28 (y m : Z) : 28 <= days_in_month y m.
Proof.
  unfold days_in_month. destruct (m =? 2); [destruct (is_leap y); lia|].
  destruct ((m =? 4) || (m =? 6) || (m =? 9) || (m =? 11)); lia.
Qed.

(** [month_add] in terms of the month index: the first day of the month
    [n] months later; [ValueError] when that month is outside the years 1 to
    9999, [OverflowError] when its year is outside the C [int] range. *)
Lemma month_add_closed (d : date) (n : Z) :
  month_add d n =
    if decide (12 <= month_index d + n < 120000)
    then Ok (mkdate ((month_index d + n) / 12) ((month_index d + n) mod 12 + 1) 1)
    else if decide (- 2 ^ 31 * 12 <= month_index d + n < 2 ^ 31 * 12)
    then Raise ValueError
    else Raise OverflowError.
Proof.
  unfold month_add, month_index, make_date.
  replace (year d * 12 + (d_month d - 1) + n) with (year d * 12 + (d_month d - 1 + n)) by lia.
  rewrite Z.div_add_l by lia.
  replace ((year d * 12 + (d_month d - 1 + n)) mod 12) with ((d_month d - 1 + n) mod 12)
    by (rewrite (Z.add_comm (year d * 12)), Z.mod_add; lia).
  set (a := d_month d - 1 + n).
  pose proof (Z.mod_pos_bound a 12 ltac:(lia)) as Hm.
  pose proof (Z.div_mod a 12 ltac:(lia)) as Hd.
  pose proof (days_in_month_ge_28 (year d + a / 12) (a mod 12 + 1)) as Hdim.
  rewrite (proj2 (c_int_fits_iff (a mod 12 + 1))) by lia.
  rewrite (proj2 (c_int_fits_iff 1)) by lia.
  rewrite !andb_true_r.
  pose proof (c_int_fits_iff (year d + a / 12)) as Hfit.
  change (2 ^ 31) with 2147483648.
  destruct (c_int_fits (year d + a / 12)).
  - destruct (decide (valid_date (mkdate (year d + a / 12) (a mod 12 + 1) 1)))
      as [(Hy & _ & _)|Hbad]; simpl in *.
    + rewrite decide_True by lia. done.
    + rewrite decide_False.
      * rewrite decide_True by lia. done.
      * intros Hr. apply Hbad. unfold valid_date; simpl. lia.
  - assert (¬ (-2147483648 <= year d + a / 12 <= 2147483647)) as Hout
      by (intros H; by apply Hfit in H).
    rewrite !decide_False by lia. done.
Qed.

Lemma month_add_Ok (d d' : date) (n : Z) :
  month_add d n = Ok d' →
  day d' = 1 ∧ 1 <= d_month d' <= 12 ∧ 1 <= year d' <= 9999 ∧
  month_index d' = month_index d + n.
Proof.
  rewrite month_add_closed. generalize (month_index d + n). intros i.
  case_decide as Hr; [|by case_decide].
  intros [= <-]. unfold month_index. simpl.
  pose proof (Z.mod_pos_bound i 12 ltac:(lia)) as Hm.
  pose proof (Z.div_mod i 12 ltac:(lia)) as Hd.
  lia.
Qed.

(** X1. [month_add d n] returns exactly when the month [n] months after
    the month of [d] lies in the years 1 to 9999, and the date it returns is
    the first day of that month. Otherwise it raises: [ValueError] when the
    year of that month can be held by a C [int] (-2^31 to 2^31 - 1), and
    [OverflowError] when it cannot. *)
Theorem X1_month_add_result (d : date) (n : Z) :
  let i := month_index d + n in
  (12 <= i < 120000 ↔ ∃ d', month_add d n = Ok d') ∧
  (¬ (12 <= i < 120000) ∧ - 2 ^ 31 * 12 <= i < 2 ^ 31 * 12
     ↔ month_add d n = Raise ValueError) ∧
  (¬ (- 2 ^ 31 * 12 <= i < 2 ^ 31 * 12) ↔ month_add d n = Raise OverflowError) ∧
  (∀ d', month_add d n = Ok d' →
     valid_date d' ∧ day d' = 1 ∧ month_index d' = month_index d + n).
Proof.
  cbv zeta. split; [|split; [|split]].
  - rewrite month_add_closed. case_decide; [split; eauto|].
    split; [done|]. intros [d' Hd']. by case_decide.
  - rewrite month_add_closed.
    repeat case_decide; split; try done; try (by intros [? ?]); tauto.
  - rewrite month_add_closed.
    repeat case_decide; split; try done; try tauto;
      change (2 ^ 31) with 2147483648 in *; lia.
  - intros d' H. pose proof (month_add_Ok d d' n H) as (Hday & Hm & Hy & Hidx).
    split; [|done]. unfold valid_date. rewrite Hday.
    pose proof (days_in_month_ge_28 (year d') (d_month d')). lia.
Qed.

(** X2. Shifting by [a] months and then by [b] months is shifting by
    [a + b] months, errors included, once the first shift has returned. *)
Theorem X2_month_add_compose (d d1 : date) (a b : Z) :
  month_add d a = Ok d1 →
  month_add d1 b = month_add d (a + b).
Proof.
  intros (_ & _ & _ & Hidx)%month_add_Ok.
  rewrite !month_add_closed, Hidx.
  replace (month_index d + a + b) with (month_index d + (a + b)) by lia. done.
Qed.

Lemma X2_witness :
  month_add (mkdate 2025 12 1) 3 = month_add (mkdate 2025 9 15) (3 + 3).
Proof.
  apply (X2_month_add_compose (mkdate 2025 9 15) (mkdate 2025 12 1) 3 3).
  vm_compute. reflexivity.
Defined.

(** X3. [month_add] is strictly increasing in the number of months: a
    larger shift of the same date gives a strictly later date. *)
Theorem X3_month_add_increasing (d da db : date) (a b : Z) :
  month_add d a = Ok da →
  month_add d b = Ok db →
  a < b →
  date_lt da db.
Proof.
  intros (Hda & Hma & _ & Hia)%month_add_Ok (Hdb & Hmb & _ & Hib)%month_add_Ok Hab.
  unfold month_index in *. split.
  - unfold date_le. lia.
  - intros ->. lia.
Qed.

Lemma X3_witness : date_lt (mkdate 2025 12 1) (mkdate 2026 1 1).
Proof.
  apply (X3_month_add_increasing (mkdate 2026 1 1) _ _ (-1) 0).
  - vm_compute. reflexivity.
  - vm_compute. reflexivity.
  - lia.
Defined.

(** ** Decimal strings: what the format specs write, [int] reads back *)

Lemma is_digit_cases (c : ascii) :
  is_digit c = true →
  c = "0"%char ∨ c = "1"%char ∨ c = "2"%char ∨ c = "3"%char ∨ c = "4"%char ∨
  c = "5"%char ∨ c = "6"%char ∨ c = "7"%char ∨ c = "8"%char ∨ c = "9"%char.
Proof.
  destruct c as [[] [] [] [] [] [] [] []]; intros H; try discriminate H; tauto.
Qed.

Lemma is_digit_digit_of (c : ascii) :
  is_digit c = true → ∃ v, digit_of c = Some v ∧ 0 <= v <= 9.
Proof.
  intros H%is_digit_cases.
  repeat (destruct H as [->|H]; [eexists; split; [vm_compute; reflexivity | lia]|]).
  subst. eexists; split; [vm_compute; reflexivity | lia].
Qed.

Lemma digit_char_digit (v : Z) :
  0 <= v <= 9 → is_digit (digit_char v) = true ∧ digit_of (digit_char v) = Some v.
Proof.
  intros Hv.
  assert (v = 0 ∨ v = 1 ∨ v = 2 ∨ v = 3 ∨ v = 4 ∨ v = 5 ∨ v = 6 ∨ v = 7 ∨ v = 8 ∨ v = 9)
    as H by lia.
  repeat (destruct H as [->|H]; [by split|]). subst. by split.
Qed.

Lemma all_digits_app (s1 s2 : string) :
  all_digits (s1 ++ s2) = all_digits s1 && all_digits s2.
Proof.
  induction s1 as [|c s1 IH]; simpl; [done|]. rewrite IH. by rewrite andb_assoc.
Qed.

Lemma digits_value_app (s1 s2 : string) (acc : Z) :
  digits_value (s1 ++ s2) acc = digits_value s2 (digits_value s1 acc).
Proof. revert acc. induction s1 as [|c s1 IH]; intros acc; simpl; [done | apply IH]. Qed.

Lemma all_digits_zeros (k : nat) : all_digits (zeros k) = true.
Proof. induction k; [done | exact IHk]. Qed.

Lemma digits_value_zeros (k : nat) : digits_value (zeros k) 0 = 0.
Proof. induction k; [done | exact IHk]. Qed.

Lemma length_zeros (k : nat) : String.length (zeros k) = k.
Proof. induction k; simpl; [done | by rewrite IHk]. Qed.

Lemma string_length_app (s1 s2 : string) :
  String.length (s1 ++ s2) = (String.length s1 + String.length s2)%nat.
Proof. induction s1 as [|c s1 IH]; simpl; [done | by rewrite IH]. Qed.

Lemma append_cons (c : ascii) (s1 s2 : string) :
  (String c s1 ++ s2)%string = String c (s1 ++ s2)%string.
Proof. reflexivity. Qed.

Lemma string_app_assoc (s1 s2 s3 : string) :
  ((s1 ++ s2) ++ s3)%string = (s1 ++ (s2 ++ s3))%string.
Proof. induction s1 as [|c s1 IH]; [done|]. by rewrite !append_cons, IH. Qed.

Lemma dec_digits_app (fuel : nat) (n : Z) (acc : string) :
  dec_digits fuel n acc = (dec_digits fuel n EmptyString ++ acc)%string.
Proof.
  revert n acc. induction fuel as [|f IH]; intros n acc; simpl; [done|].
  destruct (n <? 10); [done|].
  rewrite IH, (IH _ (String _ EmptyString)). by rewrite string_app_assoc.
Qed.

Lemma log2_div10 (n : Z) : 10 <= n → Z.log2 (n / 10) < Z.log2 n.
Proof.
  intros Hn.
  assert (n / 10 <= n / 2) as Hle.
  { apply Z.div_le_lower_bound; [lia|].
    pose proof (Z.div_mod n 10 ltac:(lia)). pose proof (Z.mod_pos_bound n 10 ltac:(lia)).
    lia. }
  assert (Z.log2 (n / 2) < Z.log2 n) as Hlt.
  { rewrite <- Z.div2_div, Z.div2_spec, Z.log2_shiftr by lia.
    pose proof (Z.log2_pos n ltac:(lia)). lia. }
  pose proof (Z.log2_le_mono _ _ Hle). lia.
Qed.

(** With enough fuel, [dec_digits] writes [n] in decimal. *)
Lemma dec_digits_value (fuel : nat) (n : Z) :
  0 <= n → Z.log2 n <= Z.of_nat fuel →
  all_digits (dec_digits fuel n EmptyString) = true ∧
  digits_value (dec_digits fuel n EmptyString) 0 = n ∧
  dec_digits fuel n EmptyString ≠ EmptyString.
Proof.
  revert n. induction fuel as [|f IH]; intros n Hn Hlog.
  - assert (n < 2) as Hn2.
    { destruct (decide (n < 2)) as [|Hge]; [done|].
      pose proof (Z.log2_le_mono 2 n ltac:(lia)) as H2.
      change (Z.log2 2) with 1 in H2. lia. }
    simpl. rewrite Z.mod_small by lia.
    destruct (digit_char_digit n ltac:(lia)) as [Hd Hv].
    rewrite Hd, Hv. simpl. split; [done|]. split; [lia | done].
  - simpl. destruct (n <? 10) eqn:E.
    + apply Z.ltb_lt in E. rewrite Z.mod_small by lia.
      destruct (digit_char_digit n ltac:(lia)) as [Hd Hv].
      simpl. rewrite Hd, Hv. simpl. split; [done|]. split; [lia | done].
    + apply Z.ltb_ge in E. rewrite dec_digits_app.
      pose proof (log2_div10 n E) as Hl.
      pose proof (Z.div_pos n 10 ltac:(lia) ltac:(lia)) as Hq.
      destruct (IH (n / 10) Hq ltac:(lia)) as (Ha & Hv & Hne).
      pose proof (Z.mod_pos_bound n 10 ltac:(lia)) as Hm.
      destruct (digit_char_digit (n mod 10) ltac:(lia)) as [Hd Hdv].
      rewrite all_digits_app, digits_value_app, Ha, Hv. simpl.
      rewrite Hd, Hdv. simpl. split; [done|]. split.
      * pose proof (Z.div_mod n 10 ltac:(lia)). lia.
      * by destruct (dec_digits f (n / 10) EmptyString).
Qed.

Lemma dec_digits_length (k fuel : nat) (n : Z) :
  0 <= n < 10 ^ Z.of_nat (S k) →
  (String.length (dec_digits fuel n EmptyString) <= S k)%nat.
Proof.
  revert fuel n. induction k as [|k IH]; intros fuel n Hn.
  - change (10 ^ Z.of_nat 1) with 10 in Hn.
    destruct fuel; simpl; [lia|].
    destruct (n <? 10) eqn:E; [simpl; lia | apply Z.ltb_ge in E; lia].
  - destruct fuel; simpl; [lia|].
    destruct (n <? 10) eqn:E; [simpl; lia|].
    apply Z.ltb_ge in E. rewrite dec_digits_app, string_length_app. simpl.
    assert (0 <= n / 10 < 10 ^ Z.of_nat (S k)) as Hq.
    { split; [apply Z.div_pos; lia|].
      apply Z.div_lt_upper_bound; [lia|].
      replace (Z.of_nat (S (S k))) with (Z.succ (Z.of_nat (S k))) in Hn by lia.
      rewrite Z.pow_succ_r in Hn by lia. lia. }
    pose proof (IH fuel (n / 10) Hq). lia.
Qed.

Lemma str_nat_spec (n : Z) :
  0 <= n →
  all_digits (str_nat n) = true ∧ digits_value (str_nat n) 0 = n ∧
  str_nat n ≠ EmptyString.
Proof.
  intros Hn. unfold str_nat. apply dec_digits_value; [done|].
  pose proof (Z.log2_nonneg n). lia.
Qed.

(** [0<width>d] on a number that fits: exactly [width] digits, worth [n]. *)
Lemma format_d_spec (width : nat) (n : Z) :
  0 <= n < 10 ^ Z.of_nat width → (0 < width)%nat →
  all_digits (format_d width n) = true ∧
  digits_value (format_d width n) 0 = n ∧
  String.length (format_d width n) = width.
Proof.
  intros Hn Hw. unfold format_d.
  assert ((n <? 0) = false) as -> by (apply Z.ltb_ge; lia).
  rewrite Z.abs_eq by lia.
  destruct (str_nat_spec n ltac:(lia)) as (Ha & Hv & _).
  assert (String.length (str_nat n) <= width)%nat as Hlen.
  { destruct width as [|k]; [lia|]. by apply dec_digits_length. }
  rewrite !all_digits_app, !digits_value_app, !string_length_app.
  rewrite all_digits_zeros, length_zeros, Ha. cbn [all_digits digits_value String.length].
  rewrite digits_value_zeros, Hv.
  split; [done|]. split; [done | lia].
Qed.

Lemma is_digit_facts (c : ascii) :
  is_digit c = true →
  is_space c = false ∧ Ascii.eqb c "_" = false ∧ Ascii.eqb c "-" = false ∧
  Ascii.eqb c "+" = false.
Proof.
  intros H%is_digit_cases.
  repeat (destruct H as [->|H]; [by repeat split|]). subst. by repeat split.
Qed.

Lemma all_digits_rstrip (s : string) : all_digits s = true → rstrip s = s.
Proof.
  induction s as [|c s IH]; [done|]. simpl.
  intros [Hc Hs]%andb_true_iff. rewrite (IH Hs).
  destruct (is_digit_facts c Hc) as (-> & _). by destruct s.
Qed.

Lemma all_digits_lstrip (s : string) : all_digits s = true → lstrip s = s.
Proof.
  destruct s as [|c s]; [done|]. simpl. intros [Hc _]%andb_true_iff.
  by destruct (is_digit_facts c Hc) as (-> & _).
Qed.

Lemma all_digits_int_digits (s : string) (acc : Z) :
  all_digits s = true → int_digits s acc false = Some (digits_value s acc).
Proof.
  revert acc. induction s as [|c s IH]; intros acc; [done|]. simpl.
  intros [Hc Hs]%andb_true_iff.
  destruct (is_digit_facts c Hc) as (_ & -> & _).
  destruct (is_digit_digit_of c Hc) as (v & -> & _). simpl. by apply IH.
Qed.

Lemma digit_count_digits (s : string) :
  all_digits s = true → digit_count s = Z.of_nat (String.length s).
Proof.
  induction s as [|c s IH]; [done|]. cbn [all_digits digit_count String.length].
  intros [Hc Hs]%andb_true_iff.
  destruct (is_digit_digit_of c Hc) as (v & -> & _). rewrite (IH Hs). lia.
Qed.

(** [int] reads a non-empty string of digits, within the limit on their
    number, as the number it writes. *)
Lemma int_of_str_digits (s : string) :
  all_digits s = true → s ≠ EmptyString →
  Z.of_nat (String.length s) <= int_max_str_digits →
  int_of_str s = Ok (digits_value s 0).
Proof.
  intros Hs Hne Hlen. unfold int_of_str.
  rewrite <- (digit_count_digits s Hs) in Hlen.
  rewrite (all_digits_lstrip s Hs), (all_digits_rstrip s Hs).
  destruct s as [|c s]; [done|]. simpl in Hs.
  apply andb_true_iff in Hs as [Hc Hs].
  assert (match String c s with
          | String "-"%char r => (true, r)
          | String "+"%char r => (false, r)
          | _ => (false, String c s)
          end = (false, String c s)) as ->.
  { apply is_digit_cases in Hc.
    repeat (destruct Hc as [->|Hc]; [done|]). by subst. }
  cbv iota beta. cbn [int_unsigned].
  destruct (is_digit_digit_of c Hc) as (v & Hv & _). rewrite Hv.
  rewrite (all_digits_int_digits s _ Hs).
  assert ((digit_count (String c s) <=? int_max_str_digits) = true) as ->
    by by apply Z.leb_le.
  cbn [digits_value]. rewrite Hv. simpl. by destruct v.
Qed.

Lemma split_digits (s : string) : all_digits s = true → split "-" s = [s].
Proof.
  induction s as [|c s IH]; [done|]. simpl. intros [Hc Hs]%andb_true_iff.
  destruct (is_digit_facts c Hc) as (_ & _ & -> & _). by rewrite (IH Hs).
Qed.

Lemma split_dash (a b : string) :
  all_digits a = true → all_digits b = true →
  split "-" (a ++ String "-" b) = [a; b].
Proof.
  intros Ha Hb. induction a as [|c a IH].
  - change (EmptyString ++ String "-" b)%string with (String "-"%char b).
    simpl. by rewrite (split_digits b Hb).
  - rewrite append_cons. simpl. simpl in Ha.
    apply andb_true_iff in Ha as [Hc Ha].
    destruct (is_digit_facts c Hc) as (_ & _ & -> & _). by rewrite (IH Ha).
Qed.

Lemma ym_to_int_digits (a b : string) :
  all_digits a = true → a ≠ EmptyString →
  Z.of_nat (String.length a) <= int_max_str_digits →
  all_digits b = true → b ≠ EmptyString →
  Z.of_nat (String.length b) <= int_max_str_digits →
  ym_to_int (a ++ String "-" b) = Ok (digits_value a 0 * 12 + digits_value b 0).
Proof.
  intros Ha Hane Hla Hb Hbne Hlb. unfold ym_to_int.
  rewrite (split_dash a b Ha Hb).
  by rewrite (int_of_str_digits a Ha Hane Hla), (int_of_str_digits b Hb Hbne Hlb).
Qed.

Lemma matches_YYYY_MM_digits (a b : string) :
  all_digits a = true → String.length a = 4%nat →
  all_digits b = true → String.length b = 2%nat →
  matches_YYYY_MM (a ++ String "-" b) = true.
Proof.
  intros Ha Hla Hb Hlb.
  destruct a as [|a1 [|a2 [|a3 [|a4 [|? ?]]]]]; try discriminate Hla.
  destruct b as [|b1 [|b2 [|? ?]]]; try discriminate Hlb.
  simpl in Ha, Hb.
  repeat match goal with H : _ && _ = true |- _ => apply andb_true_iff in H as [? H] end.
  unfold matches_YYYY_MM. rewrite !append_cons.
  change (EmptyString ++ String "-" (String b1 (String b2 EmptyString)))%string
    with (String "-"%char (String b1 (String b2 EmptyString))).
  cbn [list_ascii_of_string].
  repeat match goal with H : is_digit _ = true |- _ => rewrite H; clear H end.
  done.
Qed.

Lemma format_ym_spec (d : date) :
  1 <= year d <= 9999 → 1 <= d_month d <= 12 →
  matches_YYYY_MM (format_ym d) = true ∧
  ym_to_int (format_ym d) = Ok (year d * 12 + d_month d).
Proof.
  intros Hy Hm. unfold format_ym.
  destruct (format_d_spec 4 (year d)) as (Hay & Hvy & Hly);
    [change (10 ^ Z.of_nat 4) with 10000; lia | lia |].
  destruct (format_d_spec 2 (d_month d)) as (Ham & Hvm & Hlm);
    [change (10 ^ Z.of_nat 2) with 100; lia | lia |].
  change ((format_d 4 (year d) ++ "-" ++ format_d 2 (d_month d))%string)
    with ((format_d 4 (year d) ++ String "-" (format_d 2 (d_month d)))%string).
  split; [by apply matches_YYYY_MM_digits|].
  rewrite ym_to_int_digits, Hvy, Hvm; try done.
  - intros H. by rewrite H in Hly.
  - by rewrite Hly.
  - intros H. by rewrite H in Hlm.
  - by rewrite Hlm.
Qed.

(** X4. The token written for a calendar date by the format of lines 185,
    199 and 467 has the form YYYY-MM, and [ym_to_int] reads it back as
    [year * 12 + month]: [ym_to_int] never raises on a token the application
    writes. *)
Theorem X4_token_round_trip (d : date) :
  valid_date d →
  matches_YYYY_MM (format_ym d) = true ∧
  ym_to_int (format_ym d) = Ok (year d * 12 + d_month d).
Proof. intros (Hy & Hm & _). by apply format_ym_spec. Qed.

Lemma X4_witness :
  matches_YYYY_MM (format_ym (mkdate 2026 3 1)) = true ∧
  ym_to_int (format_ym (mkdate 2026 3 1))
    = Ok (year (mkdate 2026 3 1) * 12 + d_month (mkdate 2026 3 1)).
Proof.
  apply (X4_token_round_trip (mkdate 2026 3 1)).
  unfold valid_date. vm_compute. intuition discriminate.
Defined.

(** X5. The tokens of a date and of the date [month_add] puts [n] months
    later differ by [n] in the delay loop's month count: the loop's [diff] is
    the number of months the delivery date moved. *)
Theorem X5_delay_between_shifted_dates (d d' : date) (n : Z) :
  valid_date d →
  month_add d n = Ok d' →
  ∃ a b, ym_to_int (format_ym d') = Ok a ∧ ym_to_int (format_ym d) = Ok b ∧ a - b = n.
Proof.
  intros (Hy & Hm & _) (_ & Hm' & Hy' & Hidx)%month_add_Ok.
  destruct (format_ym_spec d Hy Hm) as [_ Hb].
  destruct (format_ym_spec d' Hy' Hm') as [_ Ha].
  eexists _, _. split; [exact Ha|]. split; [exact Hb|].
  unfold month_index in Hidx. lia.
Qed.

Lemma X5_witness :
  ∃ a b, ym_to_int (format_ym (mkdate 2027 2 1)) = Ok a ∧
         ym_to_int (format_ym (mkdate 2026 11 20)) = Ok b ∧ a - b = 3.
Proof.
  apply (X5_delay_between_shifted_dates (mkdate 2026 11 20) (mkdate 2027 2 1) 3).
  - unfold valid_date. vm_compute. intuition discriminate.
  - vm_compute. reflexivity.
Defined.

(** ** [_row_source] *)

Lemma row_source_manual (c : string) :
  _row_source ("Manual " ++ c)%string = "manual"%string.
Proof. by destruct c. Qed.

(** X6. [_row_source] tells the two writers apart: a project named by
    [input_month] ("Manual " and its code) is a manual row, a project named by
    the seed ("Proj " and its code) is a seed row, whatever the code. *)
Theorem X6_row_source_of_written_names (c : string) :
  _row_source ("Manual " ++ c)%string = "manual"%string ∧
  _row_source ("Proj " ++ c)%string = "seed"%string.
Proof. split; [apply row_source_manual | done]. Qed.

(** ** [input_month] *)

Lemma next_id_above (ids : list Z) (i : Z) : i ∈ ids → i < next_id ids.
Proof.
  destruct ids as [|j rest]; [by intros ?%elem_of_nil|]. simpl.
  assert (∀ l a, a <= foldl Z.max a l ∧ ∀ x, x ∈ l → x <= foldl Z.max a l) as H.
  { induction l as [|y l IH]; intros a; simpl.
    - split; [lia | by intros x ?%elem_of_nil].
    - destruct (IH (Z.max a y)) as [H1 H2]. split; [lia|].
      intros x [->|Hx]%elem_of_cons; [lia | by apply H2]. }
  destruct (H rest j) as [H1 H2].
  intros [->|Hi]%elem_of_cons; [lia|]. specialize (H2 _ Hi). lia.
Qed.

(** The projects and snapshots the loop of lines 456-470 appends. *)
Lemma add_manual_projects_spec (k : KAM) (p : InputMonthPayload) (sp sl : Q)
    (rand : nat → Z) (idx : list nat) (s : Store) :
  ∃ new_ps,
    kams (foldl (add_manual_project k p sp sl rand) s idx) = kams s ∧
    monthly_targets (foldl (add_manual_project k p sp sl rand) s idx) = monthly_targets s ∧
    projects (foldl (add_manual_project k p sp sl rand) s idx) = projects s ++ new_ps ∧
    project_months (foldl (add_manual_project k p sp sl rand) s idx)
      = project_months s ++ (manual_snapshot p sp sl <$> (p_id <$> new_ps)) ∧
    length new_ps = length idx ∧
    Forall (λ q, p_kam_id q = kam_id k ∧ _row_source (name q) = "manual"%string ∧
                 ∀ i, i ∈ p_id <$> projects s → i < p_id q) new_ps ∧
    NoDup (p_id <$> new_ps).
Proof.
  revert s. induction idx as [|i idx IH]; intros s.
  - exists []. simpl. rewrite !app_nil_r. repeat split; constructor.
  - cbn [foldl]. set (s1 := add_manual_project k p sp sl rand s i).
    destruct (IH s1) as (new_ps & Hk & Ht & Hp & Hx & Hlen & Hall & Hnd).
    set (proj := mkProject (next_id (p_id <$> projects s)) (kam_id k)
                   (manual_code k p (rand i))
                   ("Manual " ++ manual_code k p (rand i))%string).
    assert (projects s1 = projects s ++ [proj]) as Hp1 by done.
    assert (project_months s1 = project_months s ++ [manual_snapshot p sp sl (p_id proj)])
      as Hx1 by done.
    exists (proj :: new_ps). rewrite Hk, Ht, Hp, Hx, Hp1, Hx1, <- !app_assoc.
    split; [done|]. split; [done|]. split; [done|]. split; [done|].
    split; [simpl; by rewrite Hlen|].
    rewrite Forall_forall in Hall. split.
    + constructor.
      * split; [done|]. split; [apply row_source_manual|].
        intros j Hj. by apply next_id_above.
      * apply Forall_forall. intros q Hq. destruct (Hall q Hq) as (Hq1 & Hq2 & Hq3).
        split; [done|]. split; [done|]. intros j Hj. apply Hq3.
        rewrite Hp1, fmap_app. apply elem_of_app. by left.
    + rewrite fmap_cons. apply NoDup_cons. split; [|done].
      intros (q & Hid & Hq)%list_elem_of_fmap.
      destruct (Hall q Hq) as (_ & _ & Hq3).
      specialize (Hq3 (p_id proj)). rewrite Hp1, fmap_app in Hq3.
      assert (p_id proj < p_id q); [|lia].
      apply Hq3, elem_of_app. right. apply list_elem_of_here.
Qed.

Lemma Qeq_bool_inject_Z_0 (n : Z) : Qeq_bool (inject_Z n) 0 = bool_decide (n = 0).
Proof.
  destruct (Qeq_bool (inject_Z n) 0) eqn:E.
  - apply Qeq_bool_iff in E. unfold Qeq in E. simpl in E.
    rewrite bool_decide_eq_true_2; [done | lia].
  - rewrite bool_decide_eq_false_2; [done|]. intros ->. discriminate E.
Qed.

Lemma split_share_Ok (v : Q) (n : Z) (sh : Q) :
  split_share v n = Ok sh ↔
  Z.abs n < float_limit ∧ n ≠ 0 ∧ sh = round2 (v / inject_Z n).
Proof.
  unfold split_share, float_of_int. destruct (Z.abs n <? float_limit) eqn:E; simpl.
  - apply Z.ltb_lt in E. rewrite Qeq_bool_inject_Z_0. case_bool_decide.
    + split; [discriminate | by intros (_ & ? & _)].
    + split; [by intros [= <-] | by intros (_ & _ & ->)].
  - apply Z.ltb_ge in E. split; [discriminate | lia].
Qed.

Lemma split_share_Raise (v : Q) (n : Z) (e : exn) :
  split_share v n = Raise e ↔
  (float_limit <= Z.abs n ∧ e = OverflowError) ∨ (n = 0 ∧ e = ZeroDivisionError).
Proof.
  assert (0 < float_limit) as Hpos by done.
  unfold split_share, float_of_int. destruct (Z.abs n <? float_limit) eqn:E; simpl.
  - apply Z.ltb_lt in E. rewrite Qeq_bool_inject_Z_0. case_bool_decide.
    + split; [intros [= <-]; by right | intros [[? _]|[_ ->]]; [lia | done]].
    + split; [discriminate | intros [[? _]|[? _]]; [lia | done]].
  - apply Z.ltb_ge in E.
    split; [intros [= <-]; by left | intros [[_ ->]|[-> _]]; [done | simpl in E; lia]].
Qed.

(** What a call that returns went through. *)
Lemma input_month_Returns (s s' : Store) (p : InputMonthPayload) (rand : nat → Z)
    (r : InputMonthResponse) :
  input_month s p rand = Returns (s', r) →
  date_le (mkdate 2026 1 1) (payload_month p) ∧
  date_le (payload_month p) (mkdate 2026 4 1) ∧
  1 <= new_projects p ∧
  ∃ k sp sl,
    kam_by_name s (payload_kam_name p) = Some k ∧
    split_share (added_pp p) (new_projects p) = Ok sp ∧
    split_share (added_lvp p) (new_projects p) = Ok sl ∧
    s' = foldl (add_manual_project k p sp sl rand) (ensure_target s k (payload_month p))
           (seq 0 (Z.to_nat (new_projects p))) ∧
    projects_created r = new_projects p ∧ res_kam r = kam_name k.
Proof.
  unfold input_month. case_bool_decide as Hr; simpl; [|discriminate].
  destruct (new_projects p <? 1) eqn:Hn; [discriminate|]. apply Z.ltb_ge in Hn.
  destruct (kam_by_name s (payload_kam_name p)) as [k|]; [|discriminate].
  destruct (split_share (added_pp p) (new_projects p)) as [sp|]; [|discriminate].
  destruct (split_share (added_lvp p) (new_projects p)) as [sl|]; [|discriminate].
  intros [= <- <-]. destruct Hr as [Hlo Hhi]. simpl.
  split; [done|]. split; [done|]. split; [done|].
  exists k, sp, sl. repeat (split; [done|]). split; [lia | done].
Qed.

Lemma date_range_2026 (d : date) :
  valid_date d →
  (date_le (mkdate 2026 1 1) d ∧ date_le d (mkdate 2026 4 1)) ↔
  (year d = 2026 ∧ (d_month d <= 3 ∨ (d_month d = 4 ∧ day d = 1))).
Proof. unfold valid_date, date_le. simpl. lia. Qed.

(** X7. How [input_month] ends on a calendar date, with [in_range] for a
    date in January, February or March 2026 (any day of the month) or the 1st
    of April 2026. It raises 400 for the date exactly when the date is not in
    range; else 400 for the count exactly when [new_projects] is below 1; else
    404 exactly when no KAM has the name; else, exactly when [new_projects] is
    2^1024 - 2^970 or more, the division of line 452 raises [OverflowError].
    A call that returns has passed the four of them. *)
Theorem X7_input_month_outcomes (s : Store) (p : InputMonthPayload) (rand : nat → Z) :
  valid_date (payload_month p) →
  let d := payload_month p in
  let in_range := year d = 2026 ∧ (d_month d <= 3 ∨ (d_month d = 4 ∧ day d = 1)) in
  let found := is_Some (kam_by_name s (payload_kam_name p)) in
  (input_month s p rand = Raises (mkHTTPException 400 month_range_detail)
     ↔ ¬ in_range) ∧
  (input_month s p rand = Raises (mkHTTPException 400 "new_projects must be >= 1")
     ↔ in_range ∧ new_projects p < 1) ∧
  (input_month s p rand
     = Raises (mkHTTPException 404 ("KAM '" ++ payload_kam_name p ++ "' not found.")%string)
     ↔ in_range ∧ 1 <= new_projects p ∧ ¬ found) ∧
  (input_month s p rand = Fails OverflowError
     ↔ in_range ∧ float_limit <= new_projects p ∧ found) ∧
  (∀ s' r, input_month s p rand = Returns (s', r) →
     in_range ∧ 1 <= new_projects p < float_limit ∧ found).
Proof.
  intros Hv d in_range found. pose proof (date_range_2026 d Hv) as Hrange.
  assert (0 < float_limit) as Hpos by done.
  unfold input_month.
  destruct (decide in_range) as [Hin|Hout]; subst in_range found d; cbv beta in *.
  2:{ rewrite bool_decide_eq_false_2 by (intros H; by apply Hout, Hrange). simpl.
      repeat split; try done; try tauto. }
  rewrite bool_decide_eq_true_2 by (by apply Hrange). simpl.
  destruct (new_projects p <? 1) eqn:Hn.
  { apply Z.ltb_lt in Hn. repeat split; try done; try tauto; intros; lia. }
  apply Z.ltb_ge in Hn.
  destruct (kam_by_name s (payload_kam_name p)) as [k|] eqn:Hk.
  2:{ assert (¬ is_Some (@None KAM)) by (by intros [? ?]).
      repeat split; try done; try tauto; intros; lia. }
  assert (is_Some (Some k)) by done.
  destruct (decide (new_projects p < float_limit)) as [Hfit|Hbig].
  - rewrite (proj2 (split_share_Ok (added_pp p) (new_projects p) _))
      by (split; [lia|split; [lia|done]]).
    rewrite (proj2 (split_share_Ok (added_lvp p) (new_projects p) _))
      by (split; [lia|split; [lia|done]]).
    repeat split; try done; try tauto; intros; lia.
  - destruct (split_share (added_pp p) (new_projects p)) as [sp|e] eqn:Hsp.
    { apply split_share_Ok in Hsp as (Hfit & _ & _). lia. }
    apply split_share_Raise in Hsp as [[_ ->]|[? _]]; [|lia].
    repeat split; try done; try tauto; intros; lia.
Qed.

Lemma X7_witness :
  input_month alice_store
    (mkInputMonthPayload "Alice" (mkdate 2026 2 15) (2 ^ 1024) 100 50 6 (1 # 2) (7 # 10))
    draws
  = Fails OverflowError.
Proof.
  apply (X7_input_month_outcomes alice_store
           (mkInputMonthPayload "Alice" (mkdate 2026 2 15) (2 ^ 1024) 100 50 6
              (1 # 2) (7 # 10)) draws).
  - unfold valid_date. vm_compute. intuition discriminate.
  - split; [|split].
    + vm_compute. split; [reflexivity|]. left. discriminate.
    + vm_compute. discriminate.
    + vm_compute. eauto.
Defined.

Lemma ensure_target_frame (s : Store) (k : KAM) (m : date) :
  kams (ensure_target s k m) = kams s ∧
  projects (ensure_target s k m) = projects s ∧
  project_months (ensure_target s k m) = project_months s.
Proof. unfold ensure_target. by destruct (month_targets s (kam_id k) m). Qed.

(** The projects and snapshots a call that returns has appended. *)
Lemma input_month_appends (s s' : Store) (p : InputMonthPayload)
    (rand : nat → Z) (r : InputMonthResponse) :
  input_month s p rand = Returns (s', r) →
  ∃ k new_ps split_pp split_lvp,
    kam_by_name s (payload_kam_name p) = Some k ∧
    split_share (added_pp p) (new_projects p) = Ok split_pp ∧
    split_share (added_lvp p) (new_projects p) = Ok split_lvp ∧
    kams s' = kams s ∧
    projects s' = projects s ++ new_ps ∧
    project_months s'
      = project_months s ++ (manual_snapshot p split_pp split_lvp <$> (p_id <$> new_ps)) ∧
    Z.of_nat (length new_ps) = new_projects p ∧
    projects_created r = new_projects p ∧
    Forall (λ q, p_kam_id q = kam_id k ∧ _row_source (name q) = "manual"%string ∧
                 p_id q ∉ p_id <$> projects s) new_ps ∧
    NoDup (p_id <$> new_ps).
Proof.
  intros (_ & _ & Hn & k & sp & sl & Hk & Hsp & Hsl & -> & Hr & _)%input_month_Returns.
  destruct (add_manual_projects_spec k p sp sl rand (seq 0 (Z.to_nat (new_projects p)))
              (ensure_target s k (payload_month p)))
    as (new_ps & Hks & _ & Hps & Hxs & Hlen & Hall & Hnd).
  destruct (ensure_target_frame s k (payload_month p)) as (Hk0 & Hp0 & Hx0).
  exists k, new_ps, sp, sl. rewrite Hks, Hps, Hxs, Hk0, Hp0, Hx0.
  split; [done|]. split; [done|]. split; [done|].
  split; [done|]. split; [done|]. split; [done|].
  split; [rewrite Hlen, length_seq; lia|]. split; [done|]. split; [|done].
  eapply Forall_impl; [exact Hall|]. intros q (Hq1 & Hq2 & Hq3).
  split; [done|]. split; [done|]. rewrite Hp0 in Hq3.
  intros Hin. specialize (Hq3 _ Hin). lia.
Qed.

(** X8. A call of [input_month] that returns leaves the KAMs and every
    existing project and snapshot as they are and appends exactly
    [new_projects] projects with one snapshot each, built from the two shares
    of lines 452-453: the projects belong to the KAM of the name, are manual
    rows for [_row_source], and carry fresh, pairwise different identifiers;
    the count it reports is [new_projects]. *)
Theorem X8_input_month_appends (s s' : Store) (p : InputMonthPayload)
    (rand : nat → Z) (r : InputMonthResponse) :
  input_month s p rand = Returns (s', r) →
  ∃ k new_ps split_pp split_lvp,
    kam_by_name s (payload_kam_name p) = Some k ∧
    split_share (added_pp p) (new_projects p) = Ok split_pp ∧
    split_share (added_lvp p) (new_projects p) = Ok split_lvp ∧
    kams s' = kams s ∧
    projects s' = projects s ++ new_ps ∧
    project_months s'
      = project_months s ++ (manual_snapshot p split_pp split_lvp <$> (p_id <$> new_ps)) ∧
    Z.of_nat (length new_ps) = new_projects p ∧
    projects_created r = new_projects p ∧
    Forall (λ q, p_kam_id q = kam_id k ∧ _row_source (name q) = "manual"%string ∧
                 p_id q ∉ p_id <$> projects s) new_ps ∧
    NoDup (p_id <$> new_ps).
Proof. apply input_month_appends. Qed.

Lemma X8_witness :
  ∃ k new_ps split_pp split_lvp,
    kam_by_name alice_store (payload_kam_name february_payload) = Some k ∧
    split_share (added_pp february_payload) (new_projects february_payload)
      = Ok split_pp ∧
    split_share (added_lvp february_payload) (new_projects february_payload)
      = Ok split_lvp ∧
    kams (after_input alice_store february_payload draws) = kams alice_store ∧
    projects (after_input alice_store february_payload draws)
      = projects alice_store ++ new_ps ∧
    project_months (after_input alice_store february_payload draws)
      = project_months alice_store
        ++ (manual_snapshot february_payload split_pp split_lvp <$> (p_id <$> new_ps)) ∧
    Z.of_nat (length new_ps) = new_projects february_payload ∧
    projects_created february_response = new_projects february_payload ∧
    Forall (λ q, p_kam_id q = kam_id k ∧ _row_source (name q) = "manual"%string ∧
                 p_id q ∉ p_id <$> projects alice_store) new_ps ∧
    NoDup (p_id <$> new_ps).
Proof.
  apply (X8_input_month_appends alice_store
           (after_input alice_store february_payload draws)
           february_payload draws february_response).
  vm_compute. reflexivity.
Defined.

Lemma find_app_Some {A} (f : A → bool) (l l' : list A) (x : A) :
  find f l = Some x → find f (l ++ l') = Some x.
Proof.
  induction l as [|y l IH]; simpl; [discriminate|]. by destruct (f y).
Qed.

Lemma find_app_None {A} (f : A → bool) (l l' : list A) :
  find f l = None → find f (l ++ l') = find f l'.
Proof.
  induction l as [|y l IH]; simpl; [done|]. by destruct (f y).
Qed.

(** [last_target]: a target of the KAM that no target of the KAM is later
    than, or nothing when the KAM has no target. *)
Lemma last_target_spec (s : Store) (k : Z) :
  match last_target s k with
  | Some b =>
      b ∈ monthly_targets s ∧ mt_kam_id b = k ∧
      ∀ t, t ∈ monthly_targets s → mt_kam_id t = k → date_le (mt_month t) (mt_month b)
  | None => ∀ t, t ∈ monthly_targets s → mt_kam_id t ≠ k
  end.
Proof.
  unfold last_target. induction (monthly_targets s) as [|t l IH] using rev_ind.
  - simpl. by intros t ?%elem_of_nil.
  - rewrite foldl_app. simpl.
    destruct (foldl _ None l) as [b|] eqn:E.
    + destruct IH as (Hb & Hkb & Hmax).
      destruct (decide (mt_kam_id t = k)) as [Hk|Hk].
      * case_bool_decide as Hlt.
        -- split; [apply elem_of_app; right; apply list_elem_of_here|].
           split; [done|]. intros t' [Ht'|Ht']%elem_of_app Hk'.
           ++ destruct Hlt as [Hle _]. etrans; [by apply Hmax | done].
           ++ apply list_elem_of_singleton in Ht' as ->.
              unfold date_le. lia.
        -- split; [apply elem_of_app; by left|]. split; [done|].
           intros t' [Ht'|Ht']%elem_of_app Hk'; [by apply Hmax|].
           apply list_elem_of_singleton in Ht' as ->.
           destruct (decide (mt_month b = mt_month t)) as [->|Hne].
           ++ unfold date_le. lia.
           ++ destruct (date_le_total (mt_month b) (mt_month t)) as [Hle|Hle]; [|done].
              exfalso. by apply Hlt.
      * split; [apply elem_of_app; by left|]. split; [done|].
        intros t' [Ht'|Ht']%elem_of_app Hk'; [by apply Hmax|].
        apply list_elem_of_singleton in Ht' as ->. done.
    + destruct (decide (mt_kam_id t = k)) as [Hk|Hk].
      * split; [apply elem_of_app; right; apply list_elem_of_here|].
        split; [done|]. intros t' [Ht'|Ht']%elem_of_app Hk'.
        -- by destruct (IH t' Ht').
        -- apply list_elem_of_singleton in Ht' as ->. unfold date_le. lia.
      * intros t' [Ht'|Ht']%elem_of_app; [by apply IH|].
        by apply list_elem_of_singleton in Ht' as ->.
Qed.

(** X9. After a call of [input_month] that returns, the KAM has a target
    for the month. An existing target is kept and no row is added; otherwise
    one row is appended that copies the figures of a target of the KAM with
    the latest month, or holds 80 and 40 when the KAM has no target at all.
    Every target found before is still the one found. *)
Theorem X9_input_month_target (s s' : Store) (p : InputMonthPayload)
    (rand : nat → Z) (r : InputMonthResponse) :
  input_month s p rand = Returns (s', r) →
  ∃ k t,
    kam_by_name s (payload_kam_name p) = Some k ∧
    month_targets s' (kam_id k) (payload_month p) = Some t ∧
    (∀ k' m' t', month_targets s k' m' = Some t' → month_targets s' k' m' = Some t') ∧
    (is_Some (month_targets s (kam_id k) (payload_month p)) →
       monthly_targets s' = monthly_targets s) ∧
    (month_targets s (kam_id k) (payload_month p) = None →
       monthly_targets s' = monthly_targets s ++ [t] ∧
       mt_kam_id t = kam_id k ∧ mt_month t = payload_month p ∧
       ((∃ b, b ∈ monthly_targets s ∧ mt_kam_id b = kam_id k ∧
              (∀ t', t' ∈ monthly_targets s → mt_kam_id t' = kam_id k →
                     date_le (mt_month t') (mt_month b)) ∧
              target_pp t = target_pp b ∧ target_lvp t = target_lvp b) ∨
        ((∀ t', t' ∈ monthly_targets s → mt_kam_id t' ≠ kam_id k) ∧
         target_pp t = 80%Q ∧ target_lvp t = 40%Q))).
Proof.
  intros (_ & _ & Hn & k & sp & sl & Hk & _ & _ & -> & _)%input_month_Returns.
  destruct (add_manual_projects_spec k p sp sl rand (seq 0 (Z.to_nat (new_projects p)))
              (ensure_target s k (payload_month p)))
    as (new_ps & _ & Ht & _).
  set (s' := foldl (add_manual_project k p sp sl rand)
               (ensure_target s k (payload_month p))
               (seq 0 (Z.to_nat (new_projects p)))) in *.
  assert (∀ k' m', month_targets s' k' m'
                   = month_targets (ensure_target s k (payload_month p)) k' m') as Hmt
    by (intros k' m'; unfold month_targets; by rewrite Ht).
  rewrite Ht. clearbody s'. clear Ht. unfold ensure_target in *.
  destruct (month_targets s (kam_id k) (payload_month p)) as [t0|] eqn:E.
  - exists k, t0. split; [done|]. split; [by rewrite Hmt|].
    split; [intros k' m' t' H; by rewrite Hmt|]. split; [done|].
    intros H. congruence.
  - set (t := match last_target s (kam_id k) with
              | Some last_t =>
                  mkMonthlyTarget (kam_id k) (payload_month p)
                    (target_pp last_t) (target_lvp last_t)
              | None => mkMonthlyTarget (kam_id k) (payload_month p) 80 40
              end) in *.
    assert (mt_kam_id t = kam_id k ∧ mt_month t = payload_month p) as [Htk Htm]
      by (unfold t; by destruct (last_target s (kam_id k))).
    exists k, t. simpl. split; [done|]. split; [|split; [|split]].
    + rewrite Hmt. unfold month_targets in *. simpl.
      rewrite (find_app_None _ _ _ E). simpl.
      by rewrite bool_decide_eq_true_2.
    + intros k' m' t' H. rewrite Hmt. unfold month_targets in *. simpl.
      by apply find_app_Some.
    + intros [? H]. congruence.
    + intros _. split; [done|]. split; [done|]. split; [done|].
      pose proof (last_target_spec s (kam_id k)) as Hlast. unfold t.
      destruct (last_target s (kam_id k)) as [b|].
      * left. exists b. destruct Hlast as (Hb & Hkb & Hmax). done.
      * right. done.
Qed.

Lemma X9_witness :
  ∃ k t,
    kam_by_name alice_store (payload_kam_name february_payload) = Some k ∧
    month_targets (after_input alice_store february_payload draws) (kam_id k)
      (payload_month february_payload) = Some t ∧
    (∀ k' m' t', month_targets alice_store k' m' = Some t' →
       month_targets (after_input alice_store february_payload draws) k' m' = Some t') ∧
    (is_Some (month_targets alice_store (kam_id k) (payload_month february_payload)) →
       monthly_targets (after_input alice_store february_payload draws)
       = monthly_targets alice_store) ∧
    (month_targets alice_store (kam_id k) (payload_month february_payload) = None →
       monthly_targets (after_input alice_store february_payload draws)
       = monthly_targets alice_store ++ [t] ∧
       mt_kam_id t = kam_id k ∧ mt_month t = payload_month february_payload ∧
       ((∃ b, b ∈ monthly_targets alice_store ∧ mt_kam_id b = kam_id k ∧
              (∀ t', t' ∈ monthly_targets alice_store → mt_kam_id t' = kam_id k →
                     date_le (mt_month t') (mt_month b)) ∧
              target_pp t = target_pp b ∧ target_lvp t = target_lvp b) ∨
        ((∀ t', t' ∈ monthly_targets alice_store → mt_kam_id t' ≠ kam_id k) ∧
         target_pp t = 80%Q ∧ target_lvp t = 40%Q))).
Proof.
  apply (X9_input_month_target alice_store
           (after_input alice_store february_payload draws)
           february_payload draws february_response).
  vm_compute. reflexivity.
Defined.

Lemma manual_snapshot_token (p : InputMonthPayload) (sp sl : Q) (pid : Z) :
  matches_YYYY_MM (sop_ym (manual_snapshot p sp sl pid)) = true ∧
  ym_to_int (sop_ym (manual_snapshot p sp sl pid))
    = Ok (2026 * 12 + Z.max 1 (Z.min 12 (avg_sop_month p))).
Proof.
  unfold manual_snapshot. cbn [sop_ym].
  apply (format_ym_spec (mkdate 2026 (Z.max 1 (Z.min 12 (avg_sop_month p))) 1)); simpl; lia.
Qed.

Lemma digit_of_bound (c : ascii) : 0 <= default 0 (digit_of c) <= 9.
Proof.
  unfold digit_of. destruct (_ && _) eqn:E; simpl; [|lia].
  apply andb_true_iff in E as [?%Z.leb_le ?%Z.leb_le]. lia.
Qed.

Lemma digits_value_acc (s : string) (acc : Z) :
  digits_value s acc = acc * 10 ^ Z.of_nat (String.length s) + digits_value s 0 ∧
  0 <= digits_value s 0 < 10 ^ Z.of_nat (String.length s).
Proof.
  revert acc. induction s as [|c s IH]; intros acc.
  - simpl. lia.
  - cbn [digits_value String.length].
    destruct (IH (10 * acc + default 0 (digit_of c))) as [-> Hb].
    destruct (IH (10 * 0 + default 0 (digit_of c))) as [-> _].
    pose proof (digit_of_bound c) as Hc.
    rewrite Nat2Z.inj_succ, Z.pow_succ_r by lia.
    split; [lia|]. nia.
Qed.

(** A token of the form YYYY-MM is accepted by [ym_to_int], as a month
    count below 120100. *)
Lemma matches_YYYY_MM_parses (ym : string) :
  matches_YYYY_MM ym = true → ∃ n, ym_to_int ym = Ok n ∧ 0 <= n < 120100.
Proof.
  unfold matches_YYYY_MM.
  destruct ym as [|y1 [|y2 [|y3 [|y4 [|d [|m1 [|m2 [|? ?]]]]]]]]; try discriminate.
  cbn [list_ascii_of_string]. intros H.
  repeat match goal with
         | H : _ && _ = true |- _ => apply andb_true_iff in H as [H ?]
         end.
  match goal with H : Ascii.eqb d "-" = true |- _ => apply Ascii.eqb_eq in H as -> end.
  set (a := String y1 (String y2 (String y3 (String y4 EmptyString)))).
  set (b := String m1 (String m2 EmptyString)).
  change (String y1 (String y2 (String y3 (String y4 (String "-" b)))))
    with (a ++ String "-" b)%string.
  assert (all_digits a = true) as Ha
    by (unfold a; cbn [all_digits]; repeat (apply andb_true_iff; split); done).
  assert (all_digits b = true) as Hb
    by (unfold b; cbn [all_digits]; repeat (apply andb_true_iff; split); done).
  rewrite (ym_to_int_digits a b) by done.
  eexists. split; [done|].
  destruct (digits_value_acc a 0) as [_ Hva]. destruct (digits_value_acc b 0) as [_ Hvb].
  change (10 ^ Z.of_nat (String.length a)) with 10000 in Hva.
  change (10 ^ Z.of_nat (String.length b)) with 100 in Hvb. lia.
Qed.

(** A store whose tokens all have the form YYYY-MM meets both conditions
    under which [calc_scores] returns. *)
Lemma tokens_well_formed_fit (s : Store) :
  tokens_well_formed s → tokens_parse s ∧ delays_fit s.
Proof.
  unfold tokens_well_formed. rewrite Forall_forall. intros Hwf.
  assert (∀ a, a ∈ token_months s → 0 <= a < 120100) as Hbound.
  { intros a (x & Hx & Ha)%token_months_elem.
    destruct (matches_YYYY_MM_parses _ (Hwf x Hx)) as (n & Hn & Hb). congruence. }
  split.
  - intros x Hx. destruct (matches_YYYY_MM_parses _ (Hwf x Hx)) as (n & Hn & _). eauto.
  - apply Forall_forall. intros a Ha. apply Forall_forall. intros b Hb.
    pose proof (Hbound a Ha). pose proof (Hbound b Hb).
    assert (120100 < float_limit) by done. lia.
Qed.

(** X10. The snapshots [input_month] writes carry a delivery token of
    the form YYYY-MM, for the month of 2026 that [avg_sop_month] names once
    clamped to 1..12, and every older snapshot is kept. So tokens that
    [ym_to_int] accepted before the call are still accepted after it; and if
    every token of the store has the form YYYY-MM, this is still so after the
    call and [calc_scores] returns on the store the call leaves. *)
Theorem X10_input_month_keeps_scoring_total (s s' : Store) (p : InputMonthPayload)
    (rand : nat → Z) (r : InputMonthResponse) :
  input_month s p rand = Returns (s', r) →
  (∀ x, x ∈ project_months s' →
     x ∈ project_months s ∨
     (month x = payload_month p ∧ matches_YYYY_MM (sop_ym x) = true ∧
      ym_to_int (sop_ym x) = Ok (2026 * 12 + Z.max 1 (Z.min 12 (avg_sop_month p))))) ∧
  (tokens_parse s → tokens_parse s') ∧
  (tokens_well_formed s →
   tokens_well_formed s' ∧ ∃ st, calc_scores s' = Ok st).
Proof.
  intros Hret.
  destruct (input_month_appends s s' p rand r Hret)
    as (k & new_ps & sp & sl & _ & _ & _ & _ & _ & Hxs & _).
  assert (∀ x, x ∈ project_months s' →
     x ∈ project_months s ∨
     (month x = payload_month p ∧ matches_YYYY_MM (sop_ym x) = true ∧
      ym_to_int (sop_ym x) = Ok (2026 * 12 + Z.max 1 (Z.min 12 (avg_sop_month p)))))
    as Hnew.
  { intros x. rewrite Hxs. intros [Hx|Hx]%elem_of_app; [by left|]. right.
    apply list_elem_of_fmap in Hx as (pid & -> & _).
    split; [done|]. apply manual_snapshot_token. }
  split; [done|]. split.
  - intros Hparse x [Hx|(_ & _ & Hx)]%Hnew; [by apply Hparse | by eexists].
  - intros Hwf.
    assert (tokens_well_formed s') as Hwf'.
    { unfold tokens_well_formed in *. rewrite Forall_forall in Hwf.
      apply Forall_forall. intros x [Hx|(_ & Hx & _)]%Hnew; [by apply Hwf | done]. }
    split; [done|].
    destruct (tokens_well_formed_fit s' Hwf') as [Hparse' Hfit'].
    by apply calc_scores_returns.
Qed.

Lemma X10_witness :
  tokens_well_formed (after_input alice_store february_payload draws) ∧
  ∃ st, calc_scores (after_input alice_store february_payload draws) = Ok st.
Proof.
  destruct (X10_input_month_keeps_scoring_total alice_store
              (after_input alice_store february_payload draws)
              february_payload draws february_response) as (_ & _ & H).
  - vm_compute. reflexivity.
  - apply H. repeat constructor.
Defined.

Lemma months_of_NoDup (s : Store) : NoDup (months_of s).
Proof.
  unfold months_of. rewrite merge_sort_Permutation. apply NoDup_remove_dups.
Qed.

(** The previous month of the month sequence is another month. *)
Lemma prev_month_ne (s : Store) (mi : nat) (m p : date) :
  months_of s !! mi = Some m → prev_month (months_of s) mi = Some p → p ≠ m.
Proof.
  unfold prev_month. intros Hm Hp. destruct mi as [|mi]; [discriminate|].
  simpl in Hp. rewrite Nat.sub_0_r in Hp. intros ->.
  pose proof (NoDup_lookup _ _ _ _ (months_of_NoDup s) Hm Hp). lia.
Qed.

Lemma kam_month_snaps_intro (s : Store) (k : Z) (m : date) (x : ProjectMonth)
    (q : Project) :
  x ∈ project_months s → q ∈ projects s →
  project_id x = p_id q → p_kam_id q = k → month x = m →
  x ∈ kam_month_snaps s k (Some m).
Proof.
  intros Hx Hq Hid Hk Hm. unfold kam_month_snaps.
  apply list_elem_of_In, in_flat_map. exists x. split; [by apply list_elem_of_In|].
  apply in_flat_map. exists q. split; [by apply list_elem_of_In|].
  rewrite decide_True by done. by left.
Qed.

Lemma kam_by_name_elem (s : Store) (nm : string) (k : KAM) :
  kam_by_name s nm = Some k → k ∈ kams s ∧ kam_name k = nm.
Proof.
  unfold kam_by_name. intros [Hin Hn]%find_some.
  split; [by apply list_elem_of_In | by apply bool_decide_eq_true in Hn].
Qed.

(** X11. After a call of [input_month] that returns, on a store whose
    snapshots all belong to existing projects, the KAM of the name has
    snapshots in the month of the request, and whenever [calc_scores] scores
    that KAM in that month with a previous month, the inactivity loss is 0:
    the new projects are new to the previous month. *)
Theorem X11_manual_input_no_inactivity_loss (s s' : Store) (p : InputMonthPayload)
    (rand : nat → Z) (r : InputMonthResponse) (k : KAM) :
  input_month s p rand = Returns (s', r) →
  (∀ x, x ∈ project_months s → project_id x ∈ p_id <$> projects s) →
  kam_by_name s (payload_kam_name p) = Some k →
  has_snaps s' k (payload_month p) = true ∧
  ∀ prev l, scored s' k (payload_month p) (Some prev) l → inactivity_loss l = 0%Q.
Proof.
  intros Hret Hfk Hk.
  destruct (input_month_appends s s' p rand r Hret)
    as (k' & new_ps & sp & sl & Hk' & _ & _ & _ & Hps & Hxs & Hlen & _ & Hall & _).
  rewrite Hk in Hk'. injection Hk' as <-.
  apply input_month_Returns in Hret as (_ & _ & Hn & _).
  destruct new_ps as [|q new_ps]; [simpl in Hlen; lia|].
  apply Forall_cons in Hall as [(Hqk & _ & Hfresh) _].
  assert (manual_snapshot p sp sl (p_id q)
            ∈ kam_month_snaps s' (kam_id k) (Some (payload_month p)))
    as Hcur.
  { apply (kam_month_snaps_intro s' _ _ _ q); try done.
    - rewrite Hxs. apply elem_of_app. right. simpl. apply list_elem_of_here.
    - rewrite Hps. apply elem_of_app. right. apply list_elem_of_here. }
  split.
  { unfold has_snaps.
    destruct (kam_month_snaps s' (kam_id k) (Some (payload_month p)));
      [by apply elem_of_nil in Hcur | done]. }
  intros prev l (mi & Hm & Hp & _ & _ & Hl).
  assert (prev ≠ payload_month p) as Hne by (by eapply prev_month_ne).
  apply score_kam_month_Ok in Hl as (_ & _ & _ & _ & _ & ->).
  unfold inactivity. cbv zeta. rewrite decide_False; [done|].
  rewrite size_difference_0. intros Hsub.
  assert (p_id q ∈ ids_of (kam_month_snaps s' (kam_id k) (Some prev))) as Hin.
  { apply Hsub. unfold ids_of. rewrite elem_of_list_to_set.
    apply list_elem_of_fmap. by exists (manual_snapshot p sp sl (p_id q)). }
  unfold ids_of in Hin. rewrite elem_of_list_to_set in Hin.
  apply list_elem_of_fmap in Hin as (x & Hid & [Hx Hmx]%kam_month_snaps_elem).
  rewrite Hxs in Hx. apply elem_of_app in Hx as [Hx|Hx].
  - apply Hfresh. rewrite Hid. by apply Hfk.
  - apply list_elem_of_fmap in Hx as (pid & -> & _). by apply Hne.
Qed.

Lemma X11_witness :
  has_snaps (after_input alice_store february_payload draws) Alice
    (payload_month february_payload) = true ∧
  ∀ prev l,
    scored (after_input alice_store february_payload draws) Alice
      (payload_month february_payload) (Some prev) l →
    inactivity_loss l = 0%Q.
Proof.
  apply (X11_manual_input_no_inactivity_loss alice_store _ february_payload draws
           february_response Alice).
  - vm_compute. reflexivity.
  - intros x Hx. apply list_elem_of_In in Hx. simpl in Hx.
    destruct Hx as [<-|[<-|[]]]; apply list_elem_of_here.
  - vm_compute. reflexivity.
Defined.

(** ** [round(x, 2)] and the figures [input_month] writes *)











(** ** More on [calc_scores] *)

(** X14. [calc_scores] returns whenever every delivery token of the store
    is accepted by [ym_to_int] and no two of them lie 2^1024 - 2^970 months or
    more apart. When it raises, the exception is [ValueError], and then some
    token of the store is not accepted, or [OverflowError], and then two
    accepted tokens of the store lie that far apart; it is never [KeyError]
    (the update of [cumul] at line 316 never misses its key). *)
Theorem X14_calc_scores_returns_or_raises (s : Store) :
  (tokens_parse s → delays_fit s → ∃ st, calc_scores s = Ok st) ∧
  (∀ e, calc_scores s = Raise e →
     (e = ValueError ∧ ¬ tokens_parse s ∧
      ∃ x, x ∈ project_months s ∧ ym_to_int (sop_ym x) = Raise ValueError) ∨
     (e = OverflowError ∧ ¬ delays_fit s ∧
      ∃ x y a b, x ∈ project_months s ∧ y ∈ project_months s ∧
                 ym_to_int (sop_ym x) = Ok a ∧ ym_to_int (sop_ym y) = Ok b ∧
                 float_limit <= a - b)).
Proof.
  split; [apply calc_scores_returns|].
  intros e He. pose proof (calc_scores_raise s e He) as Hf.
  destruct Hf as [[-> Hx]|[-> Hxy]].
  - left. split; [done|]. split; [|done]. apply store_failure_value. by left.
  - right. split; [done|]. split; [|done]. apply store_failure_overflow. by right.
Qed.

Lemma Qle_bool_mono (c a b : Q) :
  (a <= b)%Q → Qle_bool c a = true → Qle_bool c b = true.
Proof. rewrite !Qle_bool_iff. lra. Qed.

(** X15. The gain tiers never fall with more progress: for any target (or
    none), a larger added pp gives at least as many pp points, and a larger
    added lvp at least as many lvp points. *)
Theorem X15_gain_tiers_monotone (t : option MonthlyTarget) (a b : Q) :
  (a <= b)%Q →
  (gained_pp t a <= gained_pp t b)%Q ∧ (gained_lvp t a <= gained_lvp t b)%Q.
Proof.
  intros Hab. unfold gained_pp, gained_lvp. destruct t as [t|]; [|split; lra].
  split.
  - destruct (Qle_bool (target_pp t * (13 # 10)) a) eqn:E1.
    + rewrite (Qle_bool_mono _ a b Hab E1). lra.
    + destruct (Qle_bool (target_pp t * (13 # 10)) b).
      * destruct (Qle_bool (target_pp t) a); lra.
      * destruct (Qle_bool (target_pp t) a) eqn:E2.
        -- rewrite (Qle_bool_mono _ a b Hab E2). lra.
        -- destruct (Qle_bool (target_pp t) b); lra.
  - destruct (Qle_bool (target_lvp t * (13 # 10)) a) eqn:E1.
    + rewrite (Qle_bool_mono _ a b Hab E1). lra.
    + destruct (Qle_bool (target_lvp t * (13 # 10)) b).
      * destruct (Qle_bool (target_lvp t) a); lra.
      * destruct (Qle_bool (target_lvp t) a) eqn:E2.
        -- rewrite (Qle_bool_mono _ a b Hab E2). lra.
        -- destruct (Qle_bool (target_lvp t) b); lra.
Qed.

Lemma X15_witness :
  (gained_pp (Some (mkMonthlyTarget 1 M1 40 20)) 45
   <= gained_pp (Some (mkMonthlyTarget 1 M1 40 20)) 52)%Q ∧
  (gained_lvp (Some (mkMonthlyTarget 1 M1 40 20)) 45
   <= gained_lvp (Some (mkMonthlyTarget 1 M1 40 20)) 52)%Q.
Proof.
  apply (X15_gain_tiers_monotone (Some (mkMonthlyTarget 1 M1 40 20)) 45 52).
  by vm_compute.
Defined.



Section OneRecordPerPair.
Context (s : Store).

Lemma kam_items_key (m : date) (prev_m : option date) (ppm : gmap Z PrevRow)
    (k : KAM) (r : ScoreItem) :
  r ∈ kam_items s m prev_m ppm k → kam r = kam_name k ∧ si_month r = m.
Proof. intros (l & _ & _ & ->)%kam_items_item. done. Qed.

Lemma month_items_key (months : list date) (im : nat * date) (r : ScoreItem) :
  r ∈ month_items s months im → kam r ∈ kam_name <$> kams s ∧ si_month r = im.2.
Proof.
  unfold month_items. rewrite list_elem_of_In, in_flat_map.
  intros (k & Hk%list_elem_of_In & [Hn Hm]%list_elem_of_In%kam_items_key).
  split; [|done]. rewrite Hn. by apply list_elem_of_fmap_2.
Qed.

Lemma kam_loop_NoDup (m : date) (prev_m : option date) (ppm : gmap Z PrevRow)
    (ks : list KAM) :
  NoDup (kam_name <$> ks) →
  NoDup ((λ r, (kam r, si_month r)) <$> flat_map (kam_items s m prev_m ppm) ks).
Proof.
  induction ks as [|k ks IH]; [constructor|].
  rewrite fmap_cons, NoDup_cons. intros [Hnin Hnd].
  cbn [flat_map]. rewrite fmap_app. apply NoDup_app. split; [|split].
  - unfold kam_items. destruct (kam_month_snaps s (kam_id k) (Some m)); [constructor|].
    destruct (score_kam_month s m prev_m ppm k (p :: l)); [|constructor].
    apply NoDup_singleton.
  - intros key (r & -> & [Hn _]%kam_items_key)%list_elem_of_fmap
           (r' & Heq & Hr')%list_elem_of_fmap.
    apply list_elem_of_In, in_flat_map in Hr' as (k' & Hk' & Hr').
    apply list_elem_of_In, kam_items_key in Hr' as [Hn' _].
    apply Hnin. injection Heq as Heq _. rewrite <- Hn, Heq, Hn'.
    by apply list_elem_of_fmap_2, list_elem_of_In.
  - by apply IH.
Qed.

Lemma month_loop_NoDup (months : list date) (ims : list (nat * date)) :
  NoDup (kam_name <$> kams s) → NoDup (snd <$> ims) →
  NoDup ((λ r, (kam r, si_month r)) <$> flat_map (month_items s months) ims).
Proof.
  intros Hnames. induction ims as [|im ims IH]; [constructor|].
  rewrite fmap_cons, NoDup_cons. intros [Hnin Hnd].
  cbn [flat_map]. rewrite fmap_app. apply NoDup_app. split; [|split].
  - by apply kam_loop_NoDup.
  - intros key (r & -> & [_ Hm]%month_items_key)%list_elem_of_fmap
           (r' & Heq & Hr')%list_elem_of_fmap.
    apply list_elem_of_In, in_flat_map in Hr' as (im' & Him' & Hr').
    apply list_elem_of_In, month_items_key in Hr' as [_ Hm'].
    apply Hnin. injection Heq as _ Heq. rewrite <- Hm, Heq, Hm'.
    by apply list_elem_of_fmap_2, list_elem_of_In.
  - by apply IH.
Qed.

Lemma month_loop_sorted (months : list date) (ims : list (nat * date)) :
  StronglySorted date_lt (snd <$> ims) →
  StronglySorted date_le (si_month <$> flat_map (month_items s months) ims).
Proof.
  induction ims as [|im ims IH]; [constructor|].
  rewrite fmap_cons. intros [Hs Hall]%StronglySorted_inv.
  cbn [flat_map]. rewrite fmap_app.
  apply (StronglySorted_app_2 date_le).
  - intros m1 m2 (r1 & -> & [_ Hm1]%month_items_key)%list_elem_of_fmap
                 (r2 & -> & Hr2)%list_elem_of_fmap.
    apply list_elem_of_In, in_flat_map in Hr2 as (im' & Him' & Hr2).
    apply list_elem_of_In, month_items_key in Hr2 as [_ Hm2].
    rewrite Forall_forall in Hall. rewrite Hm1, Hm2.
    apply Hall. by apply list_elem_of_fmap_2, list_elem_of_In.
  - assert (∀ rs : list ScoreItem, Forall (λ r, si_month r = im.2) rs →
              StronglySorted date_le (si_month <$> rs)) as Hconst.
    { induction 1 as [|r rs Hr Hrs IHrs]; [constructor|].
      rewrite fmap_cons. constructor; [done|].
      apply Forall_fmap. eapply Forall_impl; [exact Hrs|].
      intros r' Hr'. simpl. rewrite Hr, Hr'. unfold date_le. lia. }
    apply Hconst, Forall_forall. by intros r [_ Hm]%month_items_key.
  - by apply IH.
Qed.

End OneRecordPerPair.

(** X17. With KAM names unique, a run of [calc_scores] emits at most one
    record for a KAM name and a month: no two records of the list share
    both. *)
Theorem X17_one_record_per_kam_and_month (s : Store) (st : State) :
  calc_scores s = Ok st →
  NoDup (kam_name <$> kams s) →
  NoDup ((λ r, (kam r, si_month r)) <$> st.1).
Proof.
  intros (-> & _ & _)%calc_scores_spec Hnames.
  apply month_loop_NoDup; [done|]. rewrite snd_enumerate. apply months_of_NoDup.
Qed.

Lemma X17_witness :
  NoDup ((λ r, (kam r, si_month r)) <$> (run team_store).1).
Proof.
  apply (X17_one_record_per_kam_and_month team_store (run team_store)).
  - vm_compute. reflexivity.
  - apply (bool_decide_unpack _). vm_compute. exact I.
Defined.

(** X18. The records of a run come out in the order of the months: the
    list of their months never goes back in time. *)
Theorem X18_records_in_month_order (s : Store) (st : State) :
  calc_scores s = Ok st →
  StronglySorted date_le (si_month <$> st.1).
Proof.
  intros (-> & _ & _)%calc_scores_spec.
  apply month_loop_sorted. rewrite snd_enumerate. apply months_of_sorted.
Qed.

Lemma X18_witness : StronglySorted date_le (si_month <$> (run team_store).1).
Proof.
  apply (X18_records_in_month_order team_store (run team_store)).
  vm_compute. reflexivity.
Defined.

(** X19. The cumulative mapping of a run has the names of the KAMs as its
    keys and no other key. *)
Theorem X19_cumulative_keys (s : Store) (st : State) (n : string) :
  calc_scores s = Ok st →
  is_Some (st.2 !! n) ↔ n ∈ kam_name <$> kams s.
Proof.
  intros (_ & Hcum & _)%calc_scores_spec. rewrite Hcum.
  case_decide; split; done.
Qed.

Lemma X19_witness :
  is_Some ((run team_store).2 !! "Dario"%string) ↔
  "Dario"%string ∈ kam_name <$> kams team_store.
Proof.
  apply (X19_cumulative_keys team_store (run team_store) "Dario").
  vm_compute. reflexivity.
Defined.

(** ** [dataset] and [inputs] *)

Lemma flat_map_app_fun {A B} (g h : A → list B) (l : list A) :
  flat_map (λ a, g a ++ h a) l ≡ₚ flat_map g l ++ flat_map h l.
Proof.
  induction l as [|a l IH]; [done|]. cbn [flat_map]. rewrite IH.
  rewrite <- !app_assoc. f_equiv. rewrite !app_assoc. f_equiv.
  apply Permutation_app_comm.
Qed.

Lemma flat_map_nil_fun {A B} (l : list A) : flat_map (λ _ : A, @nil B) l = [].
Proof. by induction l. Qed.

Lemma flat_map_perm_ext {A B} (g h : A → list B) (l : list A) :
  (∀ a, g a ≡ₚ h a) → flat_map g l ≡ₚ flat_map h l.
Proof.
  intros Hgh. induction l as [|a l IH]; [done|]. cbn [flat_map]. by rewrite Hgh, IH.
Qed.

(** Two nested loops may be exchanged, up to the order of the result. *)
Lemma flat_map_comm {A B C} (f : A → B → list C) (la : list A) (lb : list B) :
  flat_map (λ a, flat_map (f a) lb) la ≡ₚ flat_map (λ b, flat_map (λ a, f a b) la) lb.
Proof.
  induction la as [|a la IH]; cbn [flat_map].
  - by rewrite flat_map_nil_fun.
  - rewrite IH. symmetry. apply flat_map_app_fun.
Qed.

(** Selecting by a unique key finds the one row that has it. *)
Lemma flat_map_select {A B} (f : A → Z) (v : Z) (g : A → list B) (l : list A) (a : A) :
  NoDup (f <$> l) → a ∈ l → f a = v →
  flat_map (λ b, if decide (f b = v) then g b else []) l = g a.
Proof.
  induction l as [|b l IH]; [by intros _ ?%elem_of_nil|].
  rewrite fmap_cons, NoDup_cons. intros [Hnin Hnd] Ha Hv. cbn [flat_map].
  assert (∀ l', v ∉ f <$> l' →
            flat_map (λ b, if decide (f b = v) then g b else []) l' = []) as Hnone.
  { induction l' as [|c l' IH']; [done|]. rewrite fmap_cons, not_elem_of_cons.
    intros [Hc Hl']. cbn [flat_map]. rewrite decide_False by done. by apply IH'. }
  apply elem_of_cons in Ha as [->|Ha].
  - rewrite decide_True by done. rewrite Hnone; [by rewrite app_nil_r|]. by rewrite <- Hv.
  - rewrite decide_False, IH; try done.
    intros Hb. apply Hnin. rewrite Hb, <- Hv. by apply list_elem_of_fmap_2.
Qed.

Lemma dataset_join_elem (s : Store) (k : KAM) (q : Project) (x : ProjectMonth) :
  (k, q, x) ∈ dataset_join s ↔
  k ∈ kams s ∧ q ∈ projects s ∧ x ∈ project_months s ∧
  p_kam_id q = kam_id k ∧ project_id x = p_id q.
Proof.
  unfold dataset_join. rewrite list_elem_of_In, in_flat_map. split.
  - intros (k' & Hk' & H). apply in_flat_map in H as (q' & Hq' & H).
    apply in_flat_map in H as (x' & Hx' & H).
    destruct (decide (p_kam_id q' = kam_id k' ∧ project_id x' = p_id q'))
      as [[H1 H2]|]; [|done].
    destruct H as [[= -> -> ->]|[]]. by rewrite !list_elem_of_In.
  - intros (Hk & Hq & Hx & H1 & H2). exists k. split; [by apply list_elem_of_In|].
    apply in_flat_map. exists q. split; [by apply list_elem_of_In|].
    apply in_flat_map. exists x. split; [by apply list_elem_of_In|].
    rewrite decide_True by done. by left.
Qed.

(** With the keys of the schema in force, the join holds every snapshot
    once. *)
Lemma dataset_join_snapshots (s : Store) :
  NoDup (kam_id <$> kams s) →
  NoDup (p_id <$> projects s) →
  (∀ q, q ∈ projects s → p_kam_id q ∈ kam_id <$> kams s) →
  (∀ x, x ∈ project_months s → project_id x ∈ p_id <$> projects s) →
  (λ t, t.2) <$> dataset_join s ≡ₚ project_months s.
Proof.
  intros Hkid Hpid Hfk1 Hfk2. unfold dataset_join.
  set (F := λ (k : KAM) (q : Project) (x : ProjectMonth),
              if decide (p_kam_id q = kam_id k ∧ project_id x = p_id q)
              then [(k, q, x)] else []).
  trans ((λ t : KAM * Project * ProjectMonth, t.2) <$>
           flat_map (λ x, flat_map (λ k, flat_map (λ q, F k q x) (projects s)) (kams s))
             (project_months s)).
  { apply fmap_Permutation.
    rewrite (flat_map_perm_ext _
               (λ k, flat_map (λ x, flat_map (λ q, F k q x) (projects s))
                       (project_months s)))
      by (intros k; apply flat_map_comm).
    apply flat_map_comm. }
  assert (∀ x, x ∈ project_months s →
            ∃ k q, flat_map (λ k, flat_map (λ q, F k q x) (projects s)) (kams s)
                   = [(k, q, x)]) as Hone.
  { intros x Hx.
    destruct (list_elem_of_fmap_1 _ _ _ (Hfk2 x Hx)) as (q & Hq1 & Hq).
    destruct (list_elem_of_fmap_1 _ _ _ (Hfk1 q Hq)) as (k & Hk1 & Hk).
    exists k, q.
    rewrite (flat_map_ext _ (λ k', if decide (kam_id k' = p_kam_id q)
                                    then [(k', q, x)] else [])).
    - by rewrite (flat_map_select kam_id (p_kam_id q) (λ k', [(k', q, x)]) _ k).
    - intros k'.
      rewrite (flat_map_ext _ (λ q', if decide (p_id q' = project_id x)
                                      then (if decide (p_kam_id q' = kam_id k')
                                            then [(k', q', x)] else [])
                                      else [])).
      + rewrite (flat_map_select p_id (project_id x)
                   (λ q', if decide (p_kam_id q' = kam_id k') then [(k', q', x)] else [])
                   _ q) by done.
        destruct (decide (p_kam_id q = kam_id k')), (decide (kam_id k' = p_kam_id q));
          congruence.
      + intros q'. unfold F.
        destruct (decide (p_kam_id q' = kam_id k' ∧ project_id x = p_id q')) as [[? ?]|Hn].
        * by rewrite !decide_True.
        * destruct (decide (p_id q' = project_id x)); [|done].
          destruct (decide (p_kam_id q' = kam_id k')); [|done]. exfalso. by apply Hn. }
  assert (∀ xs, (∀ x, x ∈ xs → x ∈ project_months s) →
    (λ t : KAM * Project * ProjectMonth, t.2) <$>
      flat_map (λ x, flat_map (λ k, flat_map (λ q, F k q x) (projects s)) (kams s)) xs
    = xs) as Hall.
  { induction xs as [|x xs IH]; intros Hxs; [done|]. cbn [flat_map].
    destruct (Hone x) as (k & q & ->); [apply Hxs, list_elem_of_here|].
    simpl. f_equal. apply IH. intros y Hy. by apply Hxs, list_elem_of_further. }
  by rewrite Hall.
Qed.

(** X20. [dataset] lists a snapshot only with its project and the KAM of
    that project (a snapshot without them is left out), and reports the number
    of rows it lists; when the keys of the schema hold (KAM and project
    identifiers unique, every project with its KAM, every snapshot with its
    project), every snapshot of the store is listed exactly once. *)
Theorem X20_dataset_lists_every_snapshot_once (s : Store) :
  ∃ ts,
    response_rows (dataset s) = row_of <$> ts ∧
    response_count (dataset s) = length ts ∧
    Forall (λ t, t.1.1 ∈ kams s ∧ t.1.2 ∈ projects s ∧ t.2 ∈ project_months s ∧
                 p_kam_id t.1.2 = kam_id t.1.1 ∧ project_id t.2 = p_id t.1.2) ts ∧
    (NoDup (kam_id <$> kams s) →
     NoDup (p_id <$> projects s) →
     (∀ q, q ∈ projects s → p_kam_id q ∈ kam_id <$> kams s) →
     (∀ x, x ∈ project_months s → project_id x ∈ p_id <$> projects s) →
     (λ t, t.2) <$> ts ≡ₚ project_months s ∧
     response_count (dataset s) = length (project_months s)).
Proof.
  exists (merge_sort dataset_le (dataset_join s)). unfold dataset. cbn.
  split; [done|]. split; [by rewrite length_fmap|]. split.
  - apply Forall_forall. intros [[k q] x] Ht.
    rewrite merge_sort_Permutation in Ht. by apply dataset_join_elem in Ht.
  - intros Hkid Hpid Hfk1 Hfk2.
    pose proof (dataset_join_snapshots s Hkid Hpid Hfk1 Hfk2) as Hperm.
    rewrite <- (merge_sort_Permutation dataset_le (dataset_join s)) in Hperm.
    split; [done|]. rewrite length_fmap.
    rewrite <- (length_fmap (λ t : KAM * Project * ProjectMonth, t.2)).
    by rewrite Hperm.
Qed.

(** ** The order of ISO dates as strings *)

Lemma string_compare_app (p1 p2 r1 r2 : string) :
  String.length p1 = String.length p2 →
  String.compare (p1 ++ r1) (p2 ++ r2) =
  match String.compare p1 p2 with Eq => String.compare r1 r2 | o => o end.
Proof.
  revert p2. induction p1 as [|c1 p1 IH]; intros [|c2 p2] Hlen; try discriminate Hlen.
  - done.
  - rewrite !append_cons. cbn [String.compare].
    destruct (Ascii.compare c1 c2); [|done..]. apply IH. by injection Hlen.
Qed.

Lemma append_nil_l (s : string) : (EmptyString ++ s)%string = s.
Proof. reflexivity. Qed.

Lemma digit_compare (c1 c2 : ascii) :
  is_digit c1 = true → is_digit c2 = true →
  Ascii.compare c1 c2 = (default 0 (digit_of c1) ?= default 0 (digit_of c2)).
Proof.
  intros H1%is_digit_cases H2%is_digit_cases.
  repeat (destruct H1 as [->|H1]);
    repeat (destruct H2 as [->|H2]); subst; reflexivity.
Qed.

(** Digit strings of one length compare as the numbers they write. *)
Lemma digits_compare (s1 s2 : string) :
  all_digits s1 = true → all_digits s2 = true →
  String.length s1 = String.length s2 →
  String.compare s1 s2 = (digits_value s1 0 ?= digits_value s2 0).
Proof.
  revert s2. induction s1 as [|c1 s1 IH]; intros [|c2 s2] H1 H2 Hlen;
    try discriminate Hlen; [done|].
  cbn [all_digits] in H1, H2.
  apply andb_true_iff in H1 as [Hc1 H1]. apply andb_true_iff in H2 as [Hc2 H2].
  injection Hlen as Hlen.
  cbn [String.compare digits_value]. rewrite (digit_compare _ _ Hc1 Hc2), (IH s2 H1 H2 Hlen).
  destruct (digits_value_acc s1 (10 * 0 + default 0 (digit_of c1))) as [-> Hb1].
  destruct (digits_value_acc s2 (10 * 0 + default 0 (digit_of c2))) as [-> Hb2].
  rewrite <- Hlen in *.
  set (d1 := default 0 (digit_of c1)). set (d2 := default 0 (digit_of c2)).
  set (v1 := digits_value s1 0) in *. set (v2 := digits_value s2 0) in *.
  set (P := 10 ^ Z.of_nat (String.length s1)) in *.
  destruct (Z.compare_spec d1 d2) as [->|Hlt|Hgt].
  - destruct (Z.compare_spec v1 v2) as [->|?|?]; symmetry.
    + apply Z.compare_refl.
    + apply Z.compare_lt_iff. lia.
    + apply Z.compare_gt_iff. lia.
  - symmetry. apply Z.compare_lt_iff. nia.
  - symmetry. apply Z.compare_gt_iff. nia.
Qed.

Lemma format_d_compare (width : nat) (n m : Z) :
  (0 < width)%nat → 0 <= n < 10 ^ Z.of_nat width → 0 <= m < 10 ^ Z.of_nat width →
  String.compare (format_d width n) (format_d width m) = (n ?= m).
Proof.
  intros Hw Hn Hm.
  destruct (format_d_spec width n Hn Hw) as (Ha1 & Hv1 & Hl1).
  destruct (format_d_spec width m Hm Hw) as (Ha2 & Hv2 & Hl2).
  rewrite digits_compare by congruence. by rewrite Hv1, Hv2.
Qed.

(** The ISO forms of two calendar dates compare as the dates do. *)
Lemma isoformat_compare (a b : date) :
  valid_date a → valid_date b →
  String.compare (isoformat a) (isoformat b) =
  match year a ?= year b with
  | Eq => match d_month a ?= d_month b with
          | Eq => day a ?= day b
          | o => o
          end
  | o => o
  end.
Proof.
  intros (Hya & Hma & Hda) (Hyb & Hmb & Hdb).
  assert (∀ y m, days_in_month y m <= 31) as H31.
  { intros y m. unfold days_in_month.
    destruct (m =? 2); [by destruct (is_leap y)|]. by destruct (_ || _). }
  pose proof (H31 (year a) (d_month a)). pose proof (H31 (year b) (d_month b)).
  assert (∀ d, 1 <= d <= 31 → 0 <= d < 10 ^ Z.of_nat 2) as H2 by (simpl; lia).
  assert (∀ d, 1 <= d <= 12 → 0 <= d < 10 ^ Z.of_nat 2) as H2' by (simpl; lia).
  assert (∀ d, 1 <= d <= 9999 → 0 <= d < 10 ^ Z.of_nat 4) as H4 by (simpl; lia).
  assert (∀ w n m, (0 < w)%nat → 0 <= n < 10 ^ Z.of_nat w → 0 <= m < 10 ^ Z.of_nat w →
            String.length (format_d w n) = String.length (format_d w m)) as Hlen.
  { intros w n m Hw Hn Hm.
    destruct (format_d_spec w n Hn Hw) as (_ & _ & ->).
    by destruct (format_d_spec w m Hm Hw) as (_ & _ & ->). }
  unfold isoformat.
  rewrite (string_compare_app (format_d 4 (year a)) (format_d 4 (year b)))
    by (apply Hlen; [lia|apply H4; lia..]).
  rewrite format_d_compare by (try apply H4; lia).
  destruct (year a ?= year b); [|done..].
  rewrite ?append_cons, ?append_nil_l. cbn [String.compare].
  change (Ascii.compare "-" "-") with Eq. cbv iota.
  rewrite (string_compare_app (format_d 2 (d_month a)) (format_d 2 (d_month b)))
    by (apply Hlen; [lia|apply H2'; lia..]).
  rewrite format_d_compare by (try apply H2'; lia).
  destruct (d_month a ?= d_month b); [|done..].
  rewrite ?append_cons, ?append_nil_l. cbn [String.compare].
  change (Ascii.compare "-" "-") with Eq. cbv iota.
  apply format_d_compare; [lia|apply H2; lia..].
Qed.

(** X21. [str] of a date keeps the order: on calendar dates, the ISO
    strings that [dataset] puts in its rows compare (code point by code point,
    as Python compares strings) exactly as the dates do, and two dates have the
    same string only when they are the same date. *)
Theorem X21_isoformat_keeps_order (a b : date) :
  valid_date a → valid_date b →
  (String.leb (isoformat a) (isoformat b) = true ↔ date_le a b) ∧
  (isoformat a = isoformat b ↔ a = b).
Proof.
  intros Ha Hb. pose proof (isoformat_compare a b Ha Hb) as Hc. split.
  - unfold String.leb, date_le. rewrite Hc.
    destruct (Z.compare_spec (year a) (year b));
      destruct (Z.compare_spec (d_month a) (d_month b));
      destruct (Z.compare_spec (day a) (day b)); split; (done || lia).
  - split; [|by intros ->]. intros Heq.
    rewrite Heq in Hc.
    assert (String.compare (isoformat b) (isoformat b) = Eq) as Hrefl
      by (by rewrite (isoformat_compare b b Hb Hb), !Z.compare_refl).
    rewrite Hrefl in Hc.
    destruct (Z.compare_spec (year a) (year b)); try discriminate Hc.
    destruct (Z.compare_spec (d_month a) (d_month b)); try discriminate Hc.
    destruct (Z.compare_spec (day a) (day b)); try discriminate Hc.
    destruct a, b; simpl in *; congruence.
Qed.

Lemma X21_witness :
  String.leb (isoformat (mkdate 2026 2 15)) (isoformat (mkdate 2026 4 1)) = true.
Proof.
  apply (X21_isoformat_keeps_order (mkdate 2026 2 15) (mkdate 2026 4 1)).
  - unfold valid_date. vm_compute. intuition discriminate.
  - unfold valid_date. vm_compute. intuition discriminate.
  - unfold date_le. simpl. lia.
Defined.

(** ** [input_month], then [inputs] *)

Lemma isoformat_leb (a b : date) :
  valid_date a → valid_date b →
  String.leb (isoformat a) (isoformat b) = true ↔ date_le a b.
Proof.
  intros Ha Hb. unfold String.leb, date_le. rewrite (isoformat_compare a b Ha Hb).
  destruct (Z.compare_spec (year a) (year b));
    destruct (Z.compare_spec (d_month a) (d_month b));
    destruct (Z.compare_spec (day a) (day b)); split; (done || lia).
Qed.

Lemma input_month_response (s s' : Store) (p : InputMonthPayload) (rand : nat → Z)
    (r : InputMonthResponse) :
  input_month s p rand = Returns (s', r) →
  res_status r = "ok"%string ∧ res_month r = isoformat (payload_month p) ∧
  res_added_pp r = added_pp p ∧ res_added_lvp r = added_lvp p.
Proof.
  unfold input_month. destruct (negb _); [discriminate|].
  destruct (new_projects p <? 1); [discriminate|].
  destruct (kam_by_name s (payload_kam_name p)); [|discriminate].
  destruct (split_share (added_pp p) (new_projects p)); [|discriminate].
  destruct (split_share (added_lvp p) (new_projects p)); [|discriminate].
  by intros [= <- <-].
Qed.

Lemma dataset_rows_elem (s : Store) (t : KAM * Project * ProjectMonth) :
  t ∈ dataset_join s → row_of t ∈ response_rows (dataset s).
Proof.
  intros Ht. unfold dataset. cbn. apply list_elem_of_fmap_2.
  by rewrite merge_sort_Permutation.
Qed.

(** X22. What [input_month] writes, [inputs] lists: after a call on a
    calendar date that returns, every project the call has created has a row
    in [inputs], with the name of the KAM and the date of the response, its
    code and name, the source "manual" and the shares of the added figures.
    Every date the check of [input_month] accepts (on dates) passes the
    filter of [inputs] (on strings). *)
Theorem X22_inputs_lists_what_input_month_wrote (s s' : Store)
    (p : InputMonthPayload) (rand : nat → Z) (r : InputMonthResponse) (q : Project) :
  valid_date (payload_month p) →
  input_month s p rand = Returns (s', r) →
  q ∈ projects s' → p_id q ∉ p_id <$> projects s →
  ∃ row, row ∈ response_rows (inputs s') ∧
         row_kam row = res_kam r ∧ row_month row = res_month r ∧
         project_code row = code q ∧ project_name row = name q ∧
         source row = "manual"%string ∧
         split_share (added_pp p) (new_projects p) = Ok (row_pp row) ∧
         split_share (added_lvp p) (new_projects p) = Ok (row_lvp row).
Proof.
  intros Hv Hret Hq Hnew.
  destruct (input_month_Returns _ _ _ _ _ Hret)
    as (Hlo & Hhi & _ & k0 & _ & _ & Hk0 & _ & _ & _ & _ & Hrk).
  destruct (input_month_response _ _ _ _ _ Hret) as (_ & Hrm & _).
  destruct (input_month_appends _ _ _ _ _ Hret)
    as (k & new_ps & sp & sl & Hk & Hsp & Hsl & Hks & Hps & Hxs & _ & _ & Hall & _).
  assert (k0 = k) as -> by congruence.
  destruct (kam_by_name_elem _ _ _ Hk) as [Hkin _].
  rewrite Hps in Hq. apply elem_of_app in Hq as [Hq|Hq].
  { exfalso. apply Hnew. by apply list_elem_of_fmap_2. }
  rewrite Forall_forall in Hall. destruct (Hall q Hq) as (Hqk & Hsrc & _).
  set (x := manual_snapshot p sp sl (p_id q)).
  assert ((k, q, x) ∈ dataset_join s') as Hjoin.
  { apply dataset_join_elem. rewrite Hks, Hps, Hxs.
    split; [done|]. split; [apply elem_of_app; by right|].
    split; [|done]. apply elem_of_app. right.
    apply list_elem_of_fmap_2, list_elem_of_fmap_2, Hq. }
  exists (row_of (k, q, x)). split.
  - unfold inputs. cbn [response_rows]. apply list_elem_of_filter. split.
    + split; [exact Hsrc|]. cbn. split.
      * change "2026-01-01"%string with (isoformat (mkdate 2026 1 1)).
        apply isoformat_leb; [|done..]. unfold valid_date. vm_compute.
        intuition discriminate.
      * change "2026-04-01"%string with (isoformat (mkdate 2026 4 1)).
        apply isoformat_leb; [done| |done]. unfold valid_date. vm_compute.
        intuition discriminate.
    + by apply dataset_rows_elem.
  - cbn. rewrite Hrk, Hrm. by repeat split.
Qed.

Lemma X22_witness :
  ∃ row, row ∈ response_rows (inputs (after_input alice_store february_payload draws)) ∧
         row_kam row = "Alice"%string ∧ row_month row = "2026-02-15"%string ∧
         project_code row = "AL-M02-1000"%string ∧
         project_name row = "Manual AL-M02-1000"%string ∧
         source row = "manual"%string ∧
         split_share 100 3 = Ok (row_pp row) ∧ split_share 50 3 = Ok (row_lvp row).
Proof.
  apply (X22_inputs_lists_what_input_month_wrote alice_store
           (after_input alice_store february_payload draws)
           february_payload draws february_response
           (mkProject 2 1 "AL-M02-1000" "Manual AL-M02-1000")).
  - unfold valid_date. vm_compute. intuition discriminate.
  - vm_compute. reflexivity.
  - apply list_elem_of_In. vm_compute. tauto.
  - intros H%list_elem_of_In. vm_compute in H. intuition discriminate.
Defined.

Lemma X20_witness :
  response_count (dataset (after_input alice_store february_payload draws))
  = length (project_months (after_input alice_store february_payload draws)).
Proof.
  destruct (X20_dataset_lists_every_snapshot_once
              (after_input alice_store february_payload draws))
    as (ts & _ & _ & _ & H).
  apply H.
  - apply (bool_decide_unpack _). vm_compute. exact I.
  - apply (bool_decide_unpack _). vm_compute. exact I.
  - apply Forall_forall, (bool_decide_unpack _). vm_compute. exact I.
  - apply Forall_forall, (bool_decide_unpack _). vm_compute. exact I.
Defined.

(** ** [state] *)

Lemma isoformat_ltb (a b : date) :
  valid_date a → valid_date b → date_lt a b →
  String.ltb (isoformat a) (isoformat b) = true.
Proof.
  intros Ha Hb [Hle Hne]. unfold String.ltb, date_le in *.
  rewrite (isoformat_compare a b Ha Hb).
  destruct (Z.compare_spec (year a) (year b));
    destruct (Z.compare_spec (d_month a) (d_month b));
    destruct (Z.compare_spec (day a) (day b)); try done; try lia.
  destruct a, b; simpl in *; congruence.
Qed.

(** X23. [state] on snapshots with calendar dates: its month list holds
    the ISO string of a date exactly when a snapshot has that date as its
    month, the strings are strictly ascending as strings (so no month is
    listed twice), and the month of every record [calc_scores] emits is one of
    them. *)
Theorem X23_state_months (s : Store) :
  (∀ x, x ∈ project_months s → valid_date (month x)) →
  (∀ t, t ∈ state_months (state s) ↔
        ∃ x, x ∈ project_months s ∧ t = isoformat (month x)) ∧
  StronglySorted (λ a b, String.ltb a b = true) (state_months (state s)) ∧
  (∀ st r, calc_scores s = Ok st → r ∈ st.1 →
           isoformat (si_month r) ∈ state_months (state s)).
Proof.
  intros Hv. unfold state. cbn [state_months]. split; [|split].
  - intros t. rewrite list_elem_of_fmap. split.
    + intros (m & -> & (x & Hx & <-)%months_of_elem). by exists x.
    + intros (x & Hx & ->). exists (month x). split; [done|].
      apply months_of_elem. by exists x.
  - assert (Forall valid_date (months_of s)) as Hall.
    { apply Forall_forall. intros m (x & Hx & <-)%months_of_elem. by apply Hv. }
    pose proof (months_of_sorted s) as Hs. revert Hall.
    induction Hs as [|a l Hs IH Ha]; intros Hall; [constructor|].
    apply Forall_cons in Hall as [Hva Hall]. rewrite fmap_cons.
    constructor; [by apply IH|].
    apply Forall_fmap, Forall_forall. intros b Hb. simpl.
    rewrite Forall_forall in Ha, Hall. apply isoformat_ltb; auto.
  - intros st r Hrun Hr.
    apply (calc_scores_records s st r Hrun) in Hr
      as (k & m & prev_m & l & (mi & Hm & _) & ->).
    apply list_elem_of_fmap_2. simpl. by eapply list_elem_of_lookup_2.
Qed.

Lemma X23_witness :
  StronglySorted (λ a b, String.ltb a b = true) (state_months (state alice_store)).
Proof.
  apply (X23_state_months alice_store).
  apply Forall_forall, (bool_decide_unpack _). vm_compute. exact I.
Defined.
